(** * Paragraph definitions: build-time rewrite and runtime defaults

    A shallow embedding of

    - [src/build.config.ts], the plugin that follows the build
      configuration: the unplugin transform that rewrites the argument of
      [defineParagraph(...)] calls ([falsy], [fileRegex], [estreeToObject],
      [buildRuntimeDefinition], [transform]);
    - [src/index.ts]: [POSSIBLE_EXTENSIONS], [getChunkNames],
      [getFieldListTypes], the templates and aliases registered by [setup],
      [applies], [appliesStyles] and the handler of [builder:watch];
    - [src/runtime/composables/defineParagraph.ts]: the computation of the
      default options of a paragraph and of the options it returns;
    - the closures of the editor, as state machines with their state made
      explicit: [useDelayedIntersectionObserver.ts], [animationProvider.ts],
      the cached elements of [uiProvider.ts], and [stateProvider.ts]
      ([setContext], [mutateWithLoadingState], [editMode]).

    JavaScript values are modelled by an inductive type, JavaScript objects
    by their own enumerable properties in enumeration order, source text by
    strings of code units, and the ESTree produced by the host parser by an
    inductive type of nodes carrying their [start]/[end] offsets. *)

From Stdlib Require Import PrimFloat.
From stdpp Require Import base option list strings pretty gmap.

Local Open Scope nat_scope.
Set Warnings "-register-all,-clear-no-such-hyp".

(** ** JavaScript values *)

(** The values that can occur in an extracted definition: the [value] of an
    ESTree [Literal] node (string, number, boolean, null, RegExp, bigint) and
    plain objects built by [Object.fromEntries].  An object is the list of
    its own enumerable properties in enumeration order. *)
Inductive JSValue : Type :=
  | JSString (s : string)
  | JSNumber (n : float)
  | JSBoolean (b : bool)
  | JSNull
  | JSRegExp (pattern flags : string)
  | JSBigInt (z : Z)
  | JSObject (entries : list (string * JSValue)).

Abbreviation JSObj := (list (string * JSValue)) (only parsing).

(** ToBoolean. *)
Definition truthy (v : JSValue) : bool :=
  match v with
  | JSString s => negb (String.eqb s "")
  | JSNumber n => negb (PrimFloat.eqb n 0%float || PrimFloat.is_nan n)
  | JSBoolean b => b
  | JSNull => false
  | JSRegExp _ _ => true
  | JSBigInt z => negb (Z.eqb z 0)
  | JSObject _ => true
  end.

(** [falsy] of [build.config.ts]: despite its name it keeps every value that
    is neither [null] nor [undefined].  The mapped array holds either an
    entry (an array, never nullish) or [null]; [option] plays that role. *)
Definition falsy {T : Type} (value : option T) : bool :=
  match value with
  | Some _ => true
  | None => false
  end.

(** ** Own properties of ordinary objects *)

(** Value of a decimal digit string. *)
Definition digit_of (c : Ascii.ascii) : option N :=
  let n := Ascii.N_of_ascii c in
  if ((48 <=? n) && (n <=? 57))%N then Some (n - 48)%N else None.

Fixpoint digits_value (acc : N) (s : string) : option N :=
  match s with
  | EmptyString => Some acc
  | String c s' =>
      match digit_of c with
      | Some d => digits_value (10 * acc + d)%N s'
      | None => None
      end
  end.

(** A property key is an array index when it is the canonical decimal
    spelling of an integer below [2^32 - 1]. *)
Definition array_index (key : string) : option N :=
  match key with
  | EmptyString => None
  | _ =>
      match digits_value 0%N key with
      | Some n =>
          if decide (pretty n = key ∧ (n < 4294967295)%N) then Some n else None
      | None => None
      end
  end.

(** [o[key]] for an own property ([None] is [undefined]). *)
Fixpoint obj_get (o : JSObj) (key : string) : option JSValue :=
  match o with
  | [] => None
  | (k, v) :: o' => if decide (k = key) then Some v else obj_get o' key
  end.

Fixpoint obj_replace (o : JSObj) (key : string) (v : JSValue) : JSObj :=
  match o with
  | [] => []
  | (k, w) :: o' =>
      if decide (k = key) then (k, v) :: o' else (k, w) :: obj_replace o' key v
  end.

(** Position of a new array-index key: before the first key that is not an
    array index or that is a larger one. *)
Fixpoint obj_insert_index (o : JSObj) (n : N) (key : string) (v : JSValue)
  : JSObj :=
  match o with
  | [] => [(key, v)]
  | (k, w) :: o' =>
      match array_index k with
      | Some m =>
          if (m <? n)%N then (k, w) :: obj_insert_index o' n key v
          else (key, v) :: (k, w) :: o'
      | None => (key, v) :: (k, w) :: o'
      end
  end.

(** CreateDataProperty on an ordinary object: an existing key keeps its
    place; a new array index goes among the indices in ascending order; any
    other new key goes last (OrdinaryOwnPropertyKeys order). *)
Definition obj_define (o : JSObj) (key : string) (v : JSValue) : JSObj :=
  match obj_get o key with
  | Some _ => obj_replace o key v
  | None =>
      match array_index key with
      | Some n => obj_insert_index o n key v
      | None => o ++ [(key, v)]
      end
  end.

(** [o[key] = v] on an object whose prototype is [Object.prototype]: the key
    [__proto__] reaches the inherited setter and creates no own property. *)
Definition obj_assign (o : JSObj) (key : string) (v : JSValue) : JSObj :=
  if decide (key = "__proto__") then o else obj_define o key v.

(** [Object.fromEntries(entries)]. *)
Definition fromEntries (entries : list (string * JSValue)) : JSObj :=
  foldl (λ o kv, obj_define o kv.1 kv.2) [] entries.

(** [Object.entries(v)] for a value [v] that is not nullish. *)
Definition string_chars (s : string) : list string :=
  (λ c, String c EmptyString) <$> String.list_ascii_of_string s.

Definition entries_of (v : JSValue) : list (string * JSValue) :=
  match v with
  | JSObject o => o
  | JSString s => imap (λ i c, (pretty i, JSString c)) (string_chars s)
  | _ => []
  end.

(** ** ESTree *)

Inductive LiteralValue : Type :=
  | LitString (s : string)
  | LitNumber (n : float)
  | LitBoolean (b : bool)
  | LitNull
  | LitRegExp (pattern flags : string)
  | LitBigInt (z : Z).

Definition literal_value (l : LiteralValue) : JSValue :=
  match l with
  | LitString s => JSString s
  | LitNumber n => JSNumber n
  | LitBoolean b => JSBoolean b
  | LitNull => JSNull
  | LitRegExp p f => JSRegExp p f
  | LitBigInt z => JSBigInt z
  end.

(** The node kinds the plugin distinguishes; every other kind is an
    [OtherNode] with its child nodes in the order the walker visits them.
    Each node carries the [start] and [end] offsets the parser records. *)
Inductive Node : Type :=
  | Literal (start end_ : nat) (value : LiteralValue)
  | Identifier (start end_ : nat) (name : string)
  | ObjectExpression (start end_ : nat) (properties : list Node)
  | Property (start end_ : nat) (computed : bool) (key value : Node)
  | SpreadElement (start end_ : nat) (argument : Node)
  | ArrayExpression (start end_ : nat) (elements : list Node)
  | CallExpression (start end_ : nat) (callee : Node) (arguments : list Node)
  | OtherNode (start end_ : nat) (children : list Node).

Definition node_start (n : Node) : nat :=
  match n with
  | Literal s _ _ | Identifier s _ _ | ObjectExpression s _ _
  | Property s _ _ _ _ | SpreadElement s _ _ | ArrayExpression s _ _
  | CallExpression s _ _ _ | OtherNode s _ _ => s
  end.

Definition node_end (n : Node) : nat :=
  match n with
  | Literal _ e _ | Identifier _ e _ | ObjectExpression _ e _
  | Property _ e _ _ _ | SpreadElement _ e _ | ArrayExpression _ e _
  | CallExpression _ e _ _ | OtherNode _ e _ => e
  end.

(** ['name' in node]: of the kinds above only identifiers have a name. *)
Definition node_name (n : Node) : option string :=
  match n with
  | Identifier _ _ name => Some name
  | _ => None
  end.

Definition is_ObjectExpression (n : Node) : bool :=
  match n with
  | ObjectExpression _ _ _ => true
  | _ => false
  end.

(** ** [estreeToObject] *)

(** The entry ([Some (key, value)]) or [null] ([None]) that the callback of
    [expression.properties.map] returns for one member of an object
    literal; [recurse] is [estreeToObject]. *)
Definition property_entry (recurse : Node → JSObj) (prop : Node)
  : option (string * JSValue) :=
  match prop with
  | Property _ _ _ key value =>
      match node_name key with
      | Some name =>
          match value with
          | Literal _ _ v => Some (name, literal_value v)
          | ObjectExpression _ _ _ => Some (name, JSObject (recurse value))
          | _ => None
          end
      | None => None
      end
  | _ => None
  end.

(** The array that [filter(falsy)] leaves, at the type its type guard
    ([value is NonNullable<T>]) gives it. *)
Definition non_null {T : Type} (array : list (option T)) : list T :=
  omap id (List.filter falsy array).

(** Build an object from an ObjectExpression.  (On a node of another kind,
    which the TypeScript signature excludes, the result is the empty
    object.) *)
Fixpoint estreeToObject (expression : Node) : JSObj :=
  match expression with
  | ObjectExpression _ _ properties =>
      fromEntries (non_null (property_entry estreeToObject <$> properties))
  | _ => []
  end.

(** ** Exceptions *)

Inductive Exception : Type :=
  | TypeError
  | MagicStringError
  | SyntaxError.

(** The outcome of code that may throw. *)
Inductive result (A : Type) : Type :=
  | Ok (a : A)
  | Throw (e : Exception).

Arguments Ok {A} a.
Arguments Throw {A} e.

#[global] Instance result_ret : MRet result := λ A a, Ok a.

#[global] Instance result_bind : MBind result := λ A B k r,
  match r with
  | Ok a => k a
  | Throw e => Throw e
  end.

(** ** [buildRuntimeDefinition] *)

(** [v.default] for a value [v]: a TypeError on [null], the own property of
    an object, [undefined] on every other value (neither the wrappers of
    primitives nor RegExp objects have a [default] property). *)
Definition get_default (v : JSValue) : result (option JSValue) :=
  match v with
  | JSNull => Throw TypeError
  | JSObject o => Ok (obj_get o "default")
  | _ => Ok None
  end.

(** One turn of the [forEach] callback, on the [options] object built so
    far. *)
Definition runtime_option (acc : JSObj) (entry : string * JSValue)
  : result JSObj :=
  d ← get_default entry.2;
  match d with
  | Some dv =>
      if truthy dv
      then Ok (obj_assign acc entry.1 (JSObject [("default", dv)]))
      else Ok acc
  | None => Ok acc
  end.

Fixpoint runtime_options (acc : JSObj) (entries : list (string * JSValue))
  : result JSObj :=
  match entries with
  | [] => Ok acc
  | entry :: rest => acc' ← runtime_option acc entry; runtime_options acc' rest
  end.

(** Build the runtime paragraph definition from the full definition. *)
Definition buildRuntimeDefinition (definition : JSObj) : result JSObj :=
  runtimeDefinition ←
    match obj_get definition "options" with
    | Some options =>
        if truthy options
        then
          o ← runtime_options [] (entries_of options);
          Ok (obj_assign [] "options" (JSObject o))
        else Ok []
    | None => Ok []
    end;
  match obj_get definition "globalOptions" with
  | Some globalOptions =>
      if truthy globalOptions
      then Ok (obj_assign runtimeDefinition "globalOptions" globalOptions)
      else Ok runtimeDefinition
  | None => Ok runtimeDefinition
  end.

(** ** [JSON.stringify] *)

Definition dquote : string := String (Ascii.ascii_of_nat 34) EmptyString.

Definition hex_digit (n : nat) : string :=
  String (Ascii.ascii_of_nat (if n <? 10 then 48 + n else 87 + n)) EmptyString.

(** QuoteJSONString, one code unit at a time. *)
Definition quote_char (c : Ascii.ascii) : string :=
  let n := Ascii.nat_of_ascii c in
  if n =? 8 then "\b"
  else if n =? 9 then "\t"
  else if n =? 10 then "\n"
  else if n =? 12 then "\f"
  else if n =? 13 then "\r"
  else if n =? 34 then "\" +:+ dquote
  else if n =? 92 then "\\"
  else if n <? 32 then "\u00" +:+ hex_digit (n / 16) +:+ hex_digit (n mod 16)
  else String c EmptyString.

Fixpoint quote_chars (s : string) : string :=
  match s with
  | EmptyString => EmptyString
  | String c s' => quote_char c +:+ quote_chars s'
  end.

Definition quote (s : string) : string := dquote +:+ quote_chars s +:+ dquote.

Definition is_finite (n : float) : bool :=
  negb (PrimFloat.is_nan n || PrimFloat.is_infinity n).

Section Serialize.

(** Number::toString of the host engine, for finite numbers. *)
Variable numberToString : float → string.

(** [JSON.stringify(v)] without replacer or indentation.  A BigInt makes
    it throw a TypeError; a RegExp is an object without enumerable
    properties. *)
Fixpoint JSON_stringify (v : JSValue) : result string :=
  match v with
  | JSString s => Ok (quote s)
  | JSNumber n => Ok (if is_finite n then numberToString n else "null")
  | JSBoolean b => Ok (if b then "true" else "false")
  | JSNull => Ok "null"
  | JSRegExp _ _ => Ok "{}"
  | JSBigInt _ => Throw TypeError
  | JSObject entries =>
      members ←
        (fix members (es : list (string * JSValue)) : result (list string) :=
           match es with
           | [] => Ok []
           | (k, w) :: es' =>
               m ← JSON_stringify w;
               ms ← members es';
               Ok ((quote k +:+ ":" +:+ m) :: ms)
           end) entries;
      Ok ("{" +:+ String.concat "," members +:+ "}")
  end.

End Serialize.

(** ** Source text *)

(** [s.slice(0, n)] and [s.slice(n)]. *)
Fixpoint string_take (n : nat) (s : string) : string :=
  match n, s with
  | S n', String c s' => String c (string_take n' s')
  | _, _ => EmptyString
  end.

Fixpoint string_drop (n : nat) (s : string) : string :=
  match n, s with
  | S n', String _ s' => string_drop n' s'
  | _, _ => s
  end.

(** [haystack.includes(needle)]. *)
Fixpoint includes (needle haystack : string) : bool :=
  String.prefix needle haystack
  || match haystack with
     | EmptyString => false
     | String _ rest => includes needle rest
     end.

(** [fileRegex = /\.(vue)$/] and [fileRegex.test(id)]: some position of
    [id] is followed by exactly [.vue] and the end of the string. *)
Fixpoint fileRegex_test (id : string) : bool :=
  String.eqb id ".vue"
  || match id with
     | EmptyString => false
     | String _ rest => fileRegex_test rest
     end.

(** ** magic-string *)

(** The part of the magic-string library that the plugin uses: a string is
    kept as the sequence of its chunks; [overwrite] splits the chunks at
    both ends of the range and edits the chunks in between; [toString]
    concatenates the chunk contents.  The [intro] and [outro] of a chunk
    stay empty under [overwrite] and are left out. *)
Module MagicString.

Record Chunk : Type := mkChunk {
  c_start : nat;
  c_end : nat;
  c_original : string;
  c_content : string;
  c_edited : bool
}.

Record t : Type := mk {
  original : string;
  chunks : list Chunk
}.

(** [new MagicString(source)]. *)
Definition new (source : string) : t :=
  mk source [mkChunk 0 (String.length source) source source false].

(** [chunk.edit(content)]. *)
Definition edit (content : string) (c : Chunk) : Chunk :=
  mkChunk (c_start c) (c_end c) (c_original c) content true.

(** [chunk.contains(index)]. *)
Definition contains (index : nat) (c : Chunk) : bool :=
  (c_start c <? index) && (index <? c_end c).

(** [chunk.split(index)]: the chunk that stays and the new chunk. *)
Definition split_chunk (index : nat) (c : Chunk) : Chunk * Chunk :=
  let sliceIndex := index - c_start c in
  let originalBefore := string_take sliceIndex (c_original c) in
  let originalAfter := string_drop sliceIndex (c_original c) in
  if c_edited c
  then (mkChunk (c_start c) index originalBefore "" true,
        mkChunk index (c_end c) originalAfter "" true)
  else (mkChunk (c_start c) index originalBefore originalBefore false,
        mkChunk index (c_end c) originalAfter originalAfter false).

(** [byStart[index] || byEnd[index]]. *)
Definition has_boundary (index : nat) (cs : list Chunk) : bool :=
  existsb (λ c, (c_start c =? index) || (c_end c =? index)) cs.

(** The search of [_split] for the chunk that contains [index], and
    [_splitChunk] on it: a chunk that was edited to a non-empty content
    cannot be split. *)
Fixpoint split_containing (index : nat) (cs : list Chunk)
  : result (list Chunk) :=
  match cs with
  | [] => Ok []
  | c :: cs' =>
      if contains index c
      then
        if c_edited c && negb (String.eqb (c_content c) "")
        then Throw MagicStringError
        else let '(c1, c2) := split_chunk index c in Ok (c1 :: c2 :: cs')
      else cs'' ← split_containing index cs'; Ok (c :: cs'')
  end.

(** [_split(index)]. *)
Definition split (index : nat) (cs : list Chunk) : result (list Chunk) :=
  if has_boundary index cs then Ok cs else split_containing index cs.

(** The loop of [overwrite] from the chunk after [first] to [last], the
    chunk that ends at [end_]: each is edited to the empty content. *)
Fixpoint blank_to_last (end_ : nat) (cs : list Chunk) : list Chunk :=
  match cs with
  | [] => []
  | c :: cs' =>
      edit "" c :: (if c_end c =? end_ then cs' else blank_to_last end_ cs')
  end.

(** [first], the chunk that starts at [start], receives the content. *)
Fixpoint edit_range (start end_ : nat) (content : string) (cs : list Chunk)
  : list Chunk :=
  match cs with
  | [] => []
  | c :: cs' =>
      if c_start c =? start
      then edit content c
           :: (if c_end c =? end_ then cs' else blank_to_last end_ cs')
      else c :: edit_range start end_ content cs'
  end.

(** [s.overwrite(start, end, content)].  The object is mutated in place,
    so the splits made before an exception remain: the result is the
    state together with the exception, if any.  A range that ends past
    the text, an empty range and (here) a range whose end precedes its
    start are errors. *)
Definition overwrite (start end_ : nat) (content : string) (s : t)
  : t * option Exception :=
  if String.length (original s) <? end_ then (s, Some MagicStringError)
  else if end_ <=? start then (s, Some MagicStringError)
  else
    match split start (chunks s) with
    | Throw e => (s, Some e)
    | Ok cs1 =>
        match split end_ cs1 with
        | Throw e => (mk (original s) cs1, Some e)
        | Ok cs2 =>
            (mk (original s) (edit_range start end_ content cs2), None)
        end
    end.

(** [s.toString()]. *)
Definition toString (s : t) : string :=
  foldr (λ c acc, c_content c +:+ acc) "" (chunks s).

(** [s.hasChanged()]. *)
Definition hasChanged (s : t) : bool :=
  negb (String.eqb (original s) (toString s)).

End MagicString.

(** ** The transform *)

(** What [transform] hands back to the build tool: nothing ([return]), a
    new code with or without a source map, the source itself, or an
    exception of the parser. *)
Inductive TransformResult : Type :=
  | ReturnUndefined
  | ReturnCode (code : string) (map : bool)
  | ReturnSource (source : string)
  | Throws (e : Exception).

(** The [enter] visitor is an [async] function that never awaits: it runs
    to completion inside the walk, and an exception in its body rejects
    the promise it returns, which nobody handles, instead of interrupting
    the walk.  The rejections are collected next to the result. *)
Record Outcome : Type := mkOutcome {
  returned : TransformResult;
  rejected : list Exception
}.

Definition WalkState : Type := MagicString.t * list Exception.

Section Plugin.

(** Number::toString of the host engine. *)
Variable numberToString : float → string.

(** [this.parse(source, { sourceType: 'module', ecmaVersion: 'latest' })]
    of the build tool. *)
Variable parse : string → result Node.

(** [nuxt.options.sourcemap.client || nuxt.options.sourcemap.server]. *)
Variable sourcemap : bool.

(** The body of [enter] on the magic string [s]. *)
Definition enter_body (_node : Node) (s : MagicString.t)
  : MagicString.t * option Exception :=
  match _node with
  | CallExpression _ _ (Identifier _ _ name) arguments =>
      if decide (name = "defineParagraph")
      then
        match arguments with
        | [] => (s, Some TypeError)
        | arg :: _ =>
            if is_ObjectExpression arg
            then
              let definition := estreeToObject arg in
              match
                runtimeDefinition ← buildRuntimeDefinition definition;
                JSON_stringify numberToString (JSObject runtimeDefinition)
              with
              | Ok json =>
                  MagicString.overwrite (node_start arg) (node_end arg)
                    json s
              | Throw e => (s, Some e)
              end
            else (s, None)
        end
      else (s, None)
  | _ => (s, None)
  end.

Definition enter (_node : Node) (st : WalkState) : WalkState :=
  match enter_body _node st.1 with
  | (s, Some e) => (s, st.2 ++ [e])
  | (s, None) => (s, st.2)
  end.

(** [walk(ast, { enter })] of estree-walker: a node, then its child
    nodes in order. *)
Fixpoint walk (node : Node) (st : WalkState) : WalkState :=
  let st := enter node st in
  match node with
  | Literal _ _ _ | Identifier _ _ _ => st
  | ObjectExpression _ _ properties =>
      foldl (λ st child, walk child st) st properties
  | Property _ _ _ key value => walk value (walk key st)
  | SpreadElement _ _ argument => walk argument st
  | ArrayExpression _ _ elements =>
      foldl (λ st child, walk child st) st elements
  | CallExpression _ _ callee arguments =>
      foldl (λ st child, walk child st) (walk callee st) arguments
  | OtherNode _ _ children =>
      foldl (λ st child, walk child st) st children
  end.

Definition transform (source id : string) : Outcome :=
  if negb (fileRegex_test id) then mkOutcome ReturnUndefined []
  else if negb (includes "defineParagraph" source)
  then mkOutcome ReturnUndefined []
  else
    match parse source with
    | Throw e => mkOutcome (Throws e) []
    | Ok ast =>
        let '(s, rejections) := walk ast (MagicString.new source, []) in
        if MagicString.hasChanged s
        then mkOutcome (ReturnCode (MagicString.toString s) sourcemap)
               rejections
        else mkOutcome (ReturnSource source) rejections
    end.

End Plugin.

(** ** The module setup ([index.ts]) *)

(** Since we have to parse JavaScript in order to figure out the arguments,
    only JS-like file extensions are allowed. *)
Definition POSSIBLE_EXTENSIONS : list string := [".js"; ".ts"; ".vue"; ".mjs"].

(** The module options that the functions below read. *)
Record ModuleOptions : Type := mkModuleOptions {
  chunkNames : option (list string);
  fieldListTypes : option (list string)
}.

(** [self.indexOf(value)]. *)
Fixpoint indexOf (value : string) (self : list string) : option nat :=
  match self with
  | [] => None
  | x :: rest =>
      if decide (x = value) then Some 0 else S <$> indexOf value rest
  end.

(** Modelled from the spec: the helper [onlyUnique] of
    [runtime/components/Edit/helpers] is not among the sources.  The lists
    filtered with it are "deduplicated and order-stable (insertion order of
    first appearance)": as a callback of [filter] it keeps a value at the
    position of its first appearance. *)
Definition onlyUnique (value : string) (index : nat) (self : list string)
  : bool :=
  bool_decide (indexOf value self = Some index).

(** [array.filter(callback)], the callback receiving the value, its index
    and the array. *)
Definition array_filter (callback : string → nat → list string → bool)
  (array : list string) : list string :=
  omap (λ iv, if callback iv.2 iv.1 array then Some iv.2 else None)
    (imap (λ i v, (i, v)) array).

(** [array.includes(value)]. *)
Definition array_includes (value : string) (array : list string) : bool :=
  bool_decide (value ∈ array).

Definition getChunkNames (moduleOptions : ModuleOptions) : list string :=
  let chunkNames := default [] (chunkNames moduleOptions) in
  let chunkNames :=
    if negb (array_includes "global" chunkNames)
    then chunkNames ++ ["global"] else chunkNames in
  array_filter onlyUnique chunkNames.

Definition getFieldListTypes (moduleOptions : ModuleOptions) : list string :=
  let types := default [] (fieldListTypes moduleOptions) in
  let types :=
    if negb (array_includes "default" types)
    then types ++ ["default"] else types in
  array_filter onlyUnique types.

(** A template registered with [addTemplate], and the alias set for it. *)
Record Template : Type := mkTemplate {
  filename : string;
  alias : string
}.

(** The chunk templates of [setup]: one for each chunk name but "global". *)
Definition chunk_templates (moduleOptions : ModuleOptions) : list Template :=
  omap
    (λ chunkName,
       if negb (String.eqb chunkName "global")
       then Some (mkTemplate
                    ("paragraphs-builder/chunk-" +:+ chunkName +:+ ".ts")
                    ("#nuxt-paragraphs-builder/chunk-" +:+ chunkName))
       else None)
    (getChunkNames moduleOptions).

(** ** [defineParagraph] at runtime *)

(** The configuration passed to [defineParagraph]: the option definitions
    by option key, and the keys of the global options it uses. *)
Record Config : Type := mkConfig {
  options : option JSObj;
  globalOptions : option (list string)
}.

(** What the paragraph item component provides. *)
Record ParagraphItem : Type := mkParagraphItem {
  uuid : string;
  paragraphsBuilderOptions : option (gmap string JSValue)
}.

(** The values [defineParagraph] injects: the paragraph item, the options
    of a library wrapper, and the mutated options of the edit context by
    uuid. *)
Record Injected : Type := mkInjected {
  paragraphItem : option ParagraphItem;
  fromLibraryOptions : option (gmap string JSValue);
  editContext : option (gmap string (gmap string JSValue))
}.

(** [defaultOptions[key] = v]: the key [__proto__] creates no property. *)
Definition set_default (key : string) (v : JSValue)
  (defaultOptions : gmap string JSValue) : gmap string JSValue :=
  if decide (key = "__proto__") then defaultOptions
  else <[key := v]> defaultOptions.

(** One turn of the first loop:
    [config.options[key] && 'default' in config.options[key]]; the operator
    [in] throws a TypeError on a value that is not an object. *)
Definition option_default (defaultOptions : gmap string JSValue)
  (entry : string * JSValue) : result (gmap string JSValue) :=
  if truthy entry.2
  then
    match entry.2 with
    | JSObject o =>
        match obj_get o "default" with
        | Some d => Ok (set_default entry.1 d defaultOptions)
        | None => Ok defaultOptions
        end
    | JSRegExp _ _ => Ok defaultOptions
    | _ => Throw TypeError
    end
  else Ok defaultOptions.

Fixpoint option_defaults (defaultOptions : gmap string JSValue)
  (entries : list (string * JSValue)) : result (gmap string JSValue) :=
  match entries with
  | [] => Ok defaultOptions
  | entry :: rest =>
      defaultOptions ← option_default defaultOptions entry;
      option_defaults defaultOptions rest
  end.

(** The keys that [for (const key in array)] enumerates: the indices of
    the array, as strings. *)
Definition for_in_array {A : Type} (array : list A) : list string :=
  (λ i : nat, pretty i) <$> seq 0 (length array).

Section Runtime.

(** The generated module [#blokkli/default-global-options]. *)
Variable globalOptionsDefaults : gmap string JSValue.

(** One turn of the second loop. *)
Definition global_default (defaultOptions : gmap string JSValue)
  (key : string) : gmap string JSValue :=
  match globalOptionsDefaults !! key with
  | Some defaultValue => set_default key defaultValue defaultOptions
  | None => defaultOptions
  end.

(** The [defaultOptions] that [defineParagraph] computes. *)
Definition defaultOptions (config : Config)
  : result (gmap string JSValue) :=
  defaultOptions ← option_defaults ∅ (default [] (options config));
  match globalOptions config with
  | Some keys => Ok (foldl global_default defaultOptions (for_in_array keys))
  | None => Ok defaultOptions
  end.

(** The value of the [options] that [defineParagraph] returns. *)
Definition defineParagraph_options (config : Config) (inj : Injected)
  : result (gmap string JSValue) :=
  defaultOptions ← defaultOptions config;
  let itemOptions :=
    default ∅ (paragraphItem inj ≫= paragraphsBuilderOptions) in
  let uuid := default "" (uuid <$> paragraphItem inj) in
  match fromLibraryOptions inj with
  | Some libraryOptions => Ok libraryOptions
  | None =>
      match editContext inj with
      | Some mutatedOptions =>
          if negb (String.eqb uuid "")
          then
            let overrideOptions := default ∅ (mutatedOptions !! uuid) in
            Ok (overrideOptions ∪ (itemOptions ∪ defaultOptions))
          else Ok (itemOptions ∪ defaultOptions)
      | None => Ok (itemOptions ∪ defaultOptions)
      end
  end.

End Runtime.

(** ** Notions used in the statements about extraction *)

(** The value that the last entry with a given key carries. *)
Definition last_entry (key : string) (entries : list (string * JSValue))
  : option JSValue :=
  foldl (λ acc kv, if decide (kv.1 = key) then Some kv.2 else acc) None
    entries.

(** The entry of one member of an object literal. *)
Definition member_entry : Node → option (string * JSValue) :=
  property_entry estreeToObject.

(** The name under which a member is extracted, if its value allows. *)
Definition member_key (member : Node) : option string :=
  match member with
  | Property _ _ _ key _ => node_name key
  | _ => None
  end.

(** The values [estreeToObject] converts. *)
Definition supported_value (value : Node) : bool :=
  match value with
  | Literal _ _ _ | ObjectExpression _ _ _ => true
  | _ => false
  end.

Definition value_of (value : Node) : JSValue :=
  match value with
  | Literal _ _ v => literal_value v
  | _ => JSObject (estreeToObject value)
  end.

(** A member that [estreeToObject] drops for its value: a spread element,
    or a property whose value is neither a literal nor an object literal. *)
Definition unsupported_member (member : Node) : bool :=
  match member with
  | Property _ _ _ _ value => negb (supported_value value)
  | SpreadElement _ _ _ => true
  | _ => false
  end.

(** A member whose key is a string literal. *)
Definition string_keyed (member : Node) : bool :=
  match member with
  | Property _ _ _ (Literal _ _ (LitString _)) _ => true
  | _ => false
  end.

(** ** Notions used in the statements *)

(** The child nodes of a node, in the order the walker visits them. *)
Definition children (node : Node) : list Node :=
  match node with
  | Literal _ _ _ | Identifier _ _ _ => []
  | ObjectExpression _ _ properties => properties
  | Property _ _ _ key value => [key; value]
  | SpreadElement _ _ argument => [argument]
  | ArrayExpression _ _ elements => elements
  | CallExpression _ _ callee arguments => callee :: arguments
  | OtherNode _ _ children => children
  end.

(** The argument that [enter] rewrites at a node: the first argument of a
    call of the plain identifier [defineParagraph], if it is an object
    literal. *)
Definition rewrite_target (node : Node) : option Node :=
  match node with
  | CallExpression _ _ (Identifier _ _ name) (arg :: _) =>
      if decide (name = "defineParagraph")
      then if is_ObjectExpression arg then Some arg else None
      else None
  | _ => None
  end.

(** The arguments to rewrite in a tree, in the order of the walk. *)
Fixpoint rewrite_targets (node : Node) : list Node :=
  option_list (rewrite_target node) ++
  match node with
  | Literal _ _ _ | Identifier _ _ _ => []
  | ObjectExpression _ _ properties => properties ≫= rewrite_targets
  | Property _ _ _ key value => rewrite_targets key ++ rewrite_targets value
  | SpreadElement _ _ argument => rewrite_targets argument
  | ArrayExpression _ _ elements => elements ≫= rewrite_targets
  | CallExpression _ _ callee arguments =>
      rewrite_targets callee ++ (arguments ≫= rewrite_targets)
  | OtherNode _ _ children => children ≫= rewrite_targets
  end.

(** The range [start, end) of a node. *)
Definition node_range (node : Node) : nat * nat :=
  (node_start node, node_end node).

(** The original text and the current text of a sequence of chunks. *)
Definition originals (cs : list MagicString.Chunk) : string :=
  foldr (λ c acc, MagicString.c_original c +:+ acc) "" cs.

Definition contents (cs : list MagicString.Chunk) : string :=
  foldr (λ c acc, MagicString.c_content c +:+ acc) "" cs.

(** Chunks that follow one another from the offset [off]: each one spans
    its original text, which is not empty, and a chunk that was not edited
    still holds its original text. *)
Fixpoint consecutive (off : nat) (cs : list MagicString.Chunk) : Prop :=
  match cs with
  | [] => True
  | c :: cs' =>
      MagicString.c_start c = off
      ∧ MagicString.c_end c = off + String.length (MagicString.c_original c)
      ∧ 0 < String.length (MagicString.c_original c)
      ∧ (MagicString.c_edited c = false →
         MagicString.c_content c = MagicString.c_original c)
      ∧ consecutive (MagicString.c_end c) cs'
  end.

(** The chunk lies within one of the ranges. *)
Definition within (ranges : list (nat * nat)) (c : MagicString.Chunk) : Prop :=
  ∃ r, r ∈ ranges ∧ r.1 ≤ MagicString.c_start c ∧ MagicString.c_end c ≤ r.2.

(** Some chunk starts, or ends, at the index. *)
Definition has_start (index : nat) (cs : list MagicString.Chunk) : Prop :=
  ∃ c, c ∈ cs ∧ MagicString.c_start c = index.

Definition has_end (index : nat) (cs : list MagicString.Chunk) : Prop :=
  ∃ c, c ∈ cs ∧ MagicString.c_end c = index.

(** Every edited chunk lies within one of the ranges. *)
Definition framed (ranges : list (nat * nat)) (cs : list MagicString.Chunk)
  : Prop :=
  Forall (λ c, MagicString.c_edited c = true → within ranges c) cs.

(** A chunk after [overwrite]: untouched, or edited and inside the range. *)
Definition edited_in (start end_ : nat) (c c' : MagicString.Chunk) : Prop :=
  c' = c
  ∨ ∃ content, c' = MagicString.edit content c
      ∧ start ≤ MagicString.c_start c ∧ MagicString.c_end c ≤ end_.

(** The invariant of the magic string during the walk. *)
Definition ms_inv (ranges : list (nat * nat)) (s : MagicString.t) : Prop :=
  consecutive 0 (MagicString.chunks s)
  ∧ originals (MagicString.chunks s) = MagicString.original s
  ∧ framed ranges (MagicString.chunks s).

(** The last code unit of a text. *)
Fixpoint last_char (s : string) : option Ascii.ascii :=
  match s with
  | EmptyString => None
  | String c EmptyString => Some c
  | String _ rest => last_char rest
  end.

(** The values of a list in the order of their first appearance, without
    those already seen. *)
Fixpoint first_appearances (seen l : list string) : list string :=
  match l with
  | [] => []
  | x :: rest =>
      if bool_decide (x ∈ seen) then first_appearances seen rest
      else x :: first_appearances (seen ++ [x]) rest
  end.

(** The callback that [array_filter] maps over the indexed array. *)
Definition keep_if (callback : string → nat → list string → bool)
    (array : list string) (iv : nat * string) : option string :=
  if callback iv.2 iv.1 array then Some iv.2 else None.

(** The template of a chunk. *)
Definition chunk_template (chunkName : string) : Template :=
  mkTemplate ("paragraphs-builder/chunk-" +:+ chunkName +:+ ".ts")
    ("#nuxt-paragraphs-builder/chunk-" +:+ chunkName).

(** ** The edits of a run *)

(** The text written for an argument: the serialized reduced definition,
    unless reducing or serializing throws. *)
Definition replacement (numberToString : float → string) (arg : Node)
  : result string :=
  runtimeDefinition ← buildRuntimeDefinition (estreeToObject arg);
  JSON_stringify numberToString (JSObject runtimeDefinition).

(** The edit of an argument to rewrite: its range and the text for it. *)
Definition edit_of (numberToString : float → string) (arg : Node)
  : option (nat * nat * string) :=
  match replacement numberToString arg with
  | Ok json => Some (node_start arg, node_end arg, json)
  | Throw _ => None
  end.

(** The edits of a tree, in the order of the walk. *)
Definition edits (numberToString : float → string) (ast : Node)
  : list (nat * nat * string) :=
  omap (edit_of numberToString) (rewrite_targets ast).

(** Edits that follow one another from [pos] within a text of length
    [len]: each range is not empty and starts at or after the end of the
    one before. *)
Fixpoint ordered (pos : nat) (es : list (nat * nat * string)) (len : nat)
  : Prop :=
  match es with
  | [] => pos ≤ len
  | (start, end_, _) :: rest =>
      pos ≤ start ∧ start < end_ ∧ ordered end_ rest len
  end.

(** The end of the last edit. *)
Fixpoint last_end (pos : nat) (es : list (nat * nat * string)) : nat :=
  match es with
  | [] => pos
  | (_, end_, _) :: rest => last_end end_ rest
  end.

(** The text from [pos] to the end of the last edit, each range replaced
    by its text. *)
Fixpoint splice_upto (source : string) (pos : nat)
    (es : list (nat * nat * string)) : string :=
  match es with
  | [] => ""
  | (start, end_, text) :: rest =>
      string_take (start - pos) (string_drop pos source)
      +:+ text +:+ splice_upto source end_ rest
  end.

(** The source with each range replaced by its text. *)
Definition splice (source : string) (es : list (nat * nat * string)) : string :=
  splice_upto source 0 es +:+ string_drop (last_end 0 es) source.

(** The untouched chunk of the text between two offsets, if any. *)
Definition gap (from to : nat) (text : string) : list MagicString.Chunk :=
  if from <? to then [MagicString.mkChunk from to text text false] else [].

(** Chunks that end at or before [pos]. *)
Definition before (pos : nat) (cs : list MagicString.Chunk) : Prop :=
  Forall (λ c, MagicString.c_start c < MagicString.c_end c
               ∧ MagicString.c_end c ≤ pos) cs.

(** ** Example files *)

(** The texts of the examples are written here with single quotes where
    they have double quotes: [dq] puts the double quotes back. *)
Fixpoint dq (s : string) : string :=
  match s with
  | EmptyString => EmptyString
  | String c s' =>
      String (if Ascii.eqb c (Ascii.ascii_of_nat 39)
              then Ascii.ascii_of_nat 34 else c) (dq s')
  end.

Module Examples.

(** The call of the specification's example, alone in a file. *)
Definition size_source : string :=
  dq "defineParagraph({ options: { size: { type: 'radios', default: 'medium' } }, globalOptions: ['theme'] })".

Definition size_options : Node :=
  ObjectExpression 27 74
    [ Property 29 72 false (Identifier 29 33 "size")
        (ObjectExpression 35 72
           [ Property 37 51 false (Identifier 37 41 "type")
               (Literal 43 51 (LitString "radios"));
             Property 53 70 false (Identifier 53 60 "default")
               (Literal 62 70 (LitString "medium")) ]) ].

Definition size_globalOptions : Node :=
  Property 76 100 false (Identifier 76 89 "globalOptions")
    (ArrayExpression 91 100 [Literal 92 99 (LitString "theme")]).

Definition size_argument : Node :=
  ObjectExpression 16 102
    [ Property 18 74 false (Identifier 18 25 "options") size_options;
      size_globalOptions ].

(** Program > ExpressionStatement > CallExpression. *)
Definition size_ast : Node :=
  OtherNode 0 103
    [ OtherNode 0 103
        [ CallExpression 0 103 (Identifier 0 15 "defineParagraph")
            [size_argument] ] ].

(** The text the transform produces for it, and its syntax tree: every
    key of the serialized object is a string literal. *)
Definition size_output : string :=
  dq "defineParagraph({'options':{'size':{'default':'medium'}}})".

Definition size_output_argument : Node :=
  ObjectExpression 16 57
    [ Property 17 56 false (Literal 17 26 (LitString "options"))
        (ObjectExpression 27 56
           [ Property 28 55 false (Literal 28 34 (LitString "size"))
               (ObjectExpression 35 55
                  [ Property 36 54 false (Literal 36 45 (LitString "default"))
                      (Literal 46 54 (LitString "medium")) ]) ]) ].

Definition size_output_ast : Node :=
  OtherNode 0 58
    [ OtherNode 0 58
        [ CallExpression 0 58 (Identifier 0 15 "defineParagraph")
            [size_output_argument] ] ].

Definition empty_output : string := "defineParagraph({})".

Definition empty_output_ast : Node :=
  OtherNode 0 19
    [ OtherNode 0 19
        [ CallExpression 0 19 (Identifier 0 15 "defineParagraph")
            [ObjectExpression 16 18 []] ] ].

(** Options whose defaults are the empty string, zero and [false], next
    to one with a truthy default. *)
Definition falsy_source : string :=
  dq "defineParagraph({ options: { title: { type: 'text', default: '' }, columns: { type: 'number', default: 0 }, wide: { type: 'checkbox', default: false }, size: { type: 'radios', default: 'medium' } } })".

Definition falsy_argument : Node :=
  ObjectExpression 16 199
    [ Property 18 197 false (Identifier 18 25 "options")
        (ObjectExpression 27 197
           [ Property 29 65 false (Identifier 29 34 "title")
               (ObjectExpression 36 65
                  [ Property 38 50 false (Identifier 38 42 "type")
                      (Literal 44 50 (LitString "text"));
                    Property 52 63 false (Identifier 52 59 "default")
                      (Literal 61 63 (LitString "")) ]);
             Property 67 106 false (Identifier 67 74 "columns")
               (ObjectExpression 76 106
                  [ Property 78 92 false (Identifier 78 82 "type")
                      (Literal 84 92 (LitString "number"));
                    Property 94 104 false (Identifier 94 101 "default")
                      (Literal 103 104 (LitNumber 0%float)) ]);
             Property 108 150 false (Identifier 108 112 "wide")
               (ObjectExpression 114 150
                  [ Property 116 132 false (Identifier 116 120 "type")
                      (Literal 122 132 (LitString "checkbox"));
                    Property 134 148 false (Identifier 134 141 "default")
                      (Literal 143 148 (LitBoolean false)) ]);
             Property 152 195 false (Identifier 152 156 "size")
               (ObjectExpression 158 195
                  [ Property 160 174 false (Identifier 160 164 "type")
                      (Literal 166 174 (LitString "radios"));
                    Property 176 193 false (Identifier 176 183 "default")
                      (Literal 185 193 (LitString "medium")) ]) ]) ].

Definition falsy_ast : Node :=
  OtherNode 0 200
    [ OtherNode 0 200
        [ CallExpression 0 200 (Identifier 0 15 "defineParagraph")
            [falsy_argument] ] ].

(** A call whose argument is a variable. *)
Definition variable_source : string := "defineParagraph(someVariable)".

Definition variable_ast : Node :=
  OtherNode 0 29
    [ OtherNode 0 29
        [ CallExpression 0 29 (Identifier 0 15 "defineParagraph")
            [Identifier 16 28 "someVariable"] ] ].

(** The parser on the texts above. *)
Definition parse (source : string) : result Node :=
  if String.eqb source size_source then Ok size_ast
  else if String.eqb source size_output then Ok size_output_ast
  else if String.eqb source empty_output then Ok empty_output_ast
  else if String.eqb source falsy_source then Ok falsy_ast
  else if String.eqb source variable_source then Ok variable_ast
  else Throw SyntaxError.

(** Number::toString where the examples need it. *)
Definition numberToString (n : float) : string :=
  if PrimFloat.eqb n 0%float then "0" else "".

(** A paragraph that uses the global option [theme], whose configured
    default is [light]. *)
Definition theme_config : Config :=
  mkConfig
    (Some [("size", JSObject [("default", JSString "medium")])])
    (Some ["theme"]).

Definition theme_defaults : gmap string JSValue :=
  {[ "theme" := JSString "light" ]}.

End Examples.

Import MagicString Examples.

(** ** Statement-level notions for the further properties *)

(** The default that [buildRuntimeDefinition] keeps for the option [key] of
    the [options] object: the member [default] of the option's definition,
    when it is truthy, for any key but [__proto__]. *)
Definition kept_default (options : JSObj) (key : string) : option JSValue :=
  if decide (key = "__proto__") then None
  else
    match obj_get options key with
    | Some (JSObject optionDefinition) =>
        match obj_get optionDefinition "default" with
        | Some d => if truthy d then Some d else None
        | None => None
        end
    | _ => None
    end.

(** The exception that the body of [enter] raises at a node whatever the
    magic string holds: at a call of [defineParagraph] without arguments
    (reading [type] of [undefined]), and at a call whose object literal
    cannot be reduced or serialized. *)
Definition call_error (numberToString : float → string) (node : Node)
  : option Exception :=
  match node with
  | CallExpression _ _ (Identifier _ _ name) arguments =>
      if decide (name = "defineParagraph")
      then
        match arguments with
        | [] => Some TypeError
        | arg :: _ =>
            if is_ObjectExpression arg
            then
              match replacement numberToString arg with
              | Ok _ => None
              | Throw e => Some e
              end
            else None
        end
      else None
  | _ => None
  end.

(** These exceptions over a tree, in the order of the walk. *)
Fixpoint call_errors (numberToString : float → string) (node : Node)
  : list Exception :=
  option_list (call_error numberToString node) ++
  match node with
  | Literal _ _ _ | Identifier _ _ _ => []
  | ObjectExpression _ _ properties =>
      properties ≫= call_errors numberToString
  | Property _ _ _ key value =>
      call_errors numberToString key ++ call_errors numberToString value
  | SpreadElement _ _ argument => call_errors numberToString argument
  | ArrayExpression _ _ elements => elements ≫= call_errors numberToString
  | CallExpression _ _ callee arguments =>
      call_errors numberToString callee
      ++ (arguments ≫= call_errors numberToString)
  | OtherNode _ _ children => children ≫= call_errors numberToString
  end.

(** A file with a call without arguments and a call whose option definition
    is [null]. *)
Definition rejecting_source : string :=
  "defineParagraph();defineParagraph({options:{a:null}})".

Definition rejecting_ast : Node :=
  OtherNode 0 53
    [ OtherNode 0 18
        [ CallExpression 0 17 (Identifier 0 15 "defineParagraph") [] ];
      OtherNode 18 53
        [ CallExpression 18 53 (Identifier 18 33 "defineParagraph")
            [ ObjectExpression 34 52
                [ Property 35 51 false (Identifier 35 42 "options")
                    (ObjectExpression 43 51
                       [ Property 44 50 false (Identifier 44 45 "a")
                           (Literal 46 50 LitNull) ]) ] ] ] ].

(** ** The templates and the watcher of [setup] ([index.ts]) *)

(** A template as [addTemplate] registers it.  Its [options] carry one of
    the two marks that the watcher filters on; a mark that is absent reads
    as [undefined], which the filters take as false. *)
Record Registered : Type := mkRegistered {
  template : Template;
  paragraphsBuilder : bool;
  paragraphsBuilderStyle : bool
}.

Definition templateStyles : Registered :=
  mkRegistered
    (mkTemplate "paragraphs-builder/edit.css"
       "#nuxt-paragraphs-builder/styles")
    false true.

Definition templateDefinitions : Registered :=
  mkRegistered
    (mkTemplate "paragraphs-builder/definitions.ts"
       "#nuxt-paragraphs-builder/definitions")
    true false.

Definition templateGeneratedTypes : Registered :=
  mkRegistered
    (mkTemplate "paragraphs-builder/generated-types.ts"
       "#nuxt-paragraphs-builder/generated-types")
    true false.

Definition templateDefaultGlobalOptions : Registered :=
  mkRegistered
    (mkTemplate "paragraphs-builder/default-global-options.ts"
       "#nuxt-paragraphs-builder/default-global-options")
    true false.

Definition templateImports : Registered :=
  mkRegistered
    (mkTemplate "paragraphs-builder/imports.ts"
       "#nuxt-paragraphs-builder/imports")
    true false.

(** The templates that [setup] registers, in the order of its calls of
    [addTemplate]. *)
Definition setup_templates (moduleOptions : ModuleOptions)
  : list Registered :=
  [templateStyles; templateDefinitions; templateGeneratedTypes;
   templateDefaultGlobalOptions]
  ++ ((λ t, mkRegistered t true false) <$> chunk_templates moduleOptions)
  ++ [templateImports].

(** The keys that [setup] sets in [nuxt.options.alias], in order: one for
    each template, then the one of the runtime types. *)
Definition setup_aliases (moduleOptions : ModuleOptions) : list string :=
  ((λ r, alias (template r)) <$> setup_templates moduleOptions)
  ++ ["#nuxt-paragraphs-builder/types"].

(** What the watcher does to its surroundings. *)
Inductive WatchEffect : Type :=
  | UpdateTemplates (filenames : list string)
  | ReloadModulesOf (filename : string)
  | HandleFile (filePath : string).

(** [updateTemplates({ filter })], as far as the templates of this module
    go: the templates that the filter accepts are generated again. *)
Definition updateTemplates (moduleOptions : ModuleOptions)
    (filter : Registered → bool) : WatchEffect :=
  UpdateTemplates
    ((λ r, filename (template r))
     <$> List.filter filter (setup_templates moduleOptions)).

Definition appliesStyles (path : string) : bool :=
  includes "nuxt-paragraphs-builder/css" path.

Section Watch.

Variable moduleOptions : ModuleOptions.

(** [srcResolver.resolve] and [extname] of the path libraries. *)
Variable resolve : string → string.
Variable extname : string → string.

(** The files that [resolveFiles(srcDir, moduleOptions.pattern)] finds when
    the event is handled. *)
Variable files : list string.

(** [extractor.handleFile] of the extractor at the time of the event:
    whether the file has changed.  (The class [Extractor] is not among the
    sources.) *)
Variable handleFile : string → bool.

(** Checks if the given file path is handled by this module. *)
Definition applies (path : string) : option string :=
  let filePath := resolve path in
  if negb (array_includes (extname filePath) POSSIBLE_EXTENSIONS) then None
  else List.find (λ v, bool_decide (v = filePath)) files.

(** The handler of [builder:watch]. *)
Definition builder_watch (path : string) : list WatchEffect :=
  (if appliesStyles path
   then [updateTemplates moduleOptions paragraphsBuilderStyle;
         ReloadModulesOf (filename (template templateStyles))]
   else [])
  ++
  match applies path with
  | Some filePath =>
      if String.eqb filePath "" then []
      else
        HandleFile filePath ::
        (if handleFile filePath
         then [updateTemplates moduleOptions paragraphsBuilder;
               ReloadModulesOf (filename (template templateDefinitions))]
         else [])
  | None => []
  end.

(** The watcher is installed in dev mode only, when a Vite server is
    created; this is the handler of one server. *)
Definition watch (dev : bool) (path : string) : list WatchEffect :=
  if dev then builder_watch path else [].

End Watch.

(** ** Statement-level notions for [defineParagraph] *)

(** The default that the first loop of [defineParagraph] records for the
    option [key]: the member [default] of the option's definition, whatever
    its value, for any key but [__proto__]. *)
Definition own_default (options : JSObj) (key : string) : option JSValue :=
  if decide (key = "__proto__") then None
  else
    match obj_get options key with
    | Some (JSObject optionDefinition) => obj_get optionDefinition "default"
    | _ => None
    end.

(** An option definition on which the operator [in] throws: a truthy value
    that is not an object. *)
Definition primitive_definition (v : JSValue) : bool :=
  truthy v &&
  match v with
  | JSObject _ | JSRegExp _ _ => false
  | _ => true
  end.

(** The value stored with the paragraph item for an option. *)
Definition stored_option (inj : Injected) (key : string) : option JSValue :=
  match paragraphItem inj with
  | Some item =>
      match paragraphsBuilderOptions item with
      | Some stored => stored !! key
      | None => None
      end
  | None => None
  end.

(** The value that the edit context holds for an option of the paragraph:
    there is none without an edit context or without a uuid. *)
Definition mutated_option (inj : Injected) (key : string) : option JSValue :=
  match editContext inj, paragraphItem inj with
  | Some mutatedOptions, Some item =>
      if String.eqb (uuid item) "" then None
      else
        match mutatedOptions !! uuid item with
        | Some overrideOptions => overrideOptions !! key
        | None => None
        end
  | _, _ => None
  end.

(** ** The delayed intersection observer
    ([useDelayedIntersectionObserver.ts]) *)

Module DelayedObserver.

Section Elements.

(** The elements, compared by identity. *)
Context {El : Type} `{EqDecision El}.

(** An [IntersectionObserver], as far as the composable can tell: the
    targets it observes, in the order in which they were added.
    [observe] adds a target unless it is there, [unobserve] removes it. *)
Definition io_observe (el : El) (targets : list El) : list El :=
  if bool_decide (el ∈ targets) then targets else targets ++ [el].

Definition io_unobserve (el : El) (targets : list El) : list El :=
  filter (λ target, target ≠ el) targets.

(** The variables of the closure: the observer, if [init] has run, and the
    elements collected until then.  An observer that a later [init]
    replaced was never disconnected; it is kept in [replaced]. *)
Record State : Type := mkState {
  observer : option (list El);
  collected : list El;
  replaced : list (list El)
}.

Definition initial : State := mkState None [] [].

Definition init (st : State) : State :=
  mkState
    (Some (foldl (λ targets el, io_observe el targets) [] (collected st)))
    []
    (replaced st ++ option_list (observer st)).

Definition observe (el : El) (st : State) : State :=
  match observer st with
  | Some targets =>
      mkState (Some (io_observe el targets)) (collected st) (replaced st)
  | None => mkState None (collected st ++ [el]) (replaced st)
  end.

Definition unobserve (el : El) (st : State) : State :=
  match observer st with
  | Some targets =>
      mkState (Some (io_unobserve el targets)) (collected st) (replaced st)
  | None => st
  end.

(** The calls that the users of the composable make. *)
Inductive Call : Type :=
  | Observe (el : El)
  | Unobserve (el : El).

Definition call (st : State) (c : Call) : State :=
  match c with
  | Observe el => observe el st
  | Unobserve el => unobserve el st
  end.

Definition calls (cs : list Call) (st : State) : State := foldl call st cs.

End Elements.

Arguments State : clear implicits.
Arguments Call : clear implicits.

End DelayedObserver.

(** ** The animation loop ([animationProvider.ts]) *)

Module AnimationProvider.

(** The variables of the closure. *)
Record State : Type := mkState {
  mouseX : float;
  mouseY : float;
  iterator : Z
}.

Definition initial : State := mkState 0%float 0%float 120.

(** What the provider emits on the event bus ([fieldAreas] is always the
    empty array and is left out, as is the drawing context). *)
Inductive Emitted : Type :=
  | AnimationFrameBefore
  | AnimationFrame (mouseX mouseY : float).

Definition onPointerMove (clientX clientY : float) (st : State) : State :=
  mkState clientX clientY 120.

Definition requestDraw (st : State) : State :=
  mkState (mouseX st) (mouseY st) 120.

(** The callback of [useAnimationFrame].  [ctx] tells whether the element
    [bk-animation-canvas] is a canvas with a 2d context, [wrapperEl]
    whether [.bk-main-canvas] is an HTML element. *)
Definition frame (ctx wrapperEl : bool) (st : State) : State * list Emitted :=
  if (iterator st <? 1)%Z then (st, [])
  else
    let st := mkState (mouseX st) (mouseY st) (iterator st - 1) in
    (st,
     AnimationFrameBefore ::
     (if ctx
      then if wrapperEl then [AnimationFrame (mouseX st) (mouseY st)] else []
      else [])).

(** What happens to the provider, in time. *)
Inductive Input : Type :=
  | PointerMove (clientX clientY : float)
  | RequestDraw
  | Frame (ctx wrapperEl : bool).

Definition step (st : State) (input : Input) : State * list Emitted :=
  match input with
  | PointerMove x y => (onPointerMove x y st, [])
  | RequestDraw => (requestDraw st, [])
  | Frame ctx wrapperEl => frame ctx wrapperEl st
  end.

Fixpoint run (inputs : list Input) (st : State) : State * list Emitted :=
  match inputs with
  | [] => (st, [])
  | input :: rest =>
      let '(st, emitted) := step st input in
      let '(st, emitted') := run rest st in
      (st, emitted ++ emitted')
  end.

(** The number of frames that were drawn. *)
Definition drawn (emitted : list Emitted) : nat :=
  length (List.filter
            (λ e, match e with AnimationFrameBefore => true | _ => false end)
            emitted).

(** The position of the last pointer move among the inputs, from [pos]. *)
Definition pointer (pos : float * float) (inputs : list Input)
  : float * float :=
  foldl (λ pos input,
           match input with
           | PointerMove x y => (x, y)
           | _ => pos
           end) pos inputs.

End AnimationProvider.

(** ** The cached elements of the UI provider ([uiProvider.ts]) *)

Module UiProvider.

(** What calling one of the functions gives: a value, or an [Error] with
    its message. *)
Inductive Completion (A : Type) : Type :=
  | Return (a : A)
  | ThrowError (message : string).

Arguments Return {A} a.
Arguments ThrowError {A} message.

Section Elements.

Variable El : Type.

Record State : Type := mkState {
  cachedRootElement : option El;
  cachedArtboardElement : option El;
  menuIsOpen : bool
}.

Definition initial : State := mkState None None false.

(** [artboardElement()], where [found] is the element that
    [document.querySelector('.pb-main-canvas')] gives at the time of the
    call, if there is one and it is an HTML element. *)
Definition artboardElement (found : option El) (st : State)
  : State * Completion El :=
  match cachedArtboardElement st with
  | Some el => (st, Return el)
  | None =>
      match found with
      | None => (st, ThrowError "Failed to locate artboard element.")
      | Some el =>
          (mkState (cachedRootElement st) (Some el) (menuIsOpen st),
           Return el)
      end
  end.

(** [rootElement()], with the element that
    [document.querySelector('#nuxt-root')] gives. *)
Definition rootElement (found : option El) (st : State)
  : State * Completion El :=
  match cachedRootElement st with
  | Some el => (st, Return el)
  | None =>
      match found with
      | None => (st, ThrowError "Failed to locate root Nuxt element.")
      | Some el =>
          (mkState (Some el) (cachedArtboardElement st) (menuIsOpen st),
           Return el)
      end
  end.

(** The calls of the two functions, each with what the document holds at
    the time of the call. *)
Inductive Call : Type :=
  | ArtboardElement (found : option El)
  | RootElement (found : option El).

Definition call (c : Call) (st : State) : State * Completion El :=
  match c with
  | ArtboardElement found => artboardElement found st
  | RootElement found => rootElement found st
  end.

Fixpoint calls (cs : list Call) (st : State) : list (Completion El) :=
  match cs with
  | [] => []
  | c :: rest => let '(st, r) := call c st in r :: calls rest st
  end.

(** The first element that the calls of [artboardElement] (of
    [rootElement]) found in the document. *)
Definition first_artboard (cs : list Call) : option El :=
  head (omap (λ c, match c with ArtboardElement found => found | _ => None end)
          cs).

Definition first_root (cs : list Call) : option El :=
  head (omap (λ c, match c with RootElement found => found | _ => None end)
          cs).

End Elements.

Arguments ArtboardElement {El} found.
Arguments RootElement {El} found.

End UiProvider.

(** ** The edit state ([stateProvider.ts]) *)

Module StateProvider.

Section Provider.

(** The payloads that the provider stores without looking into them, and
    the state as the adapter loads it. *)
Context {MutatedField MutationItem Validation MutatedOptions : Type}.
Context {Translation Language AdapterState : Type}.

(** [{}] as the value of [mutatedOptions]. *)
Variable noMutatedOptions : MutatedOptions.

(** The helper [falsy] of [#blokkli/helpers], which is not among the
    sources, as the callback of [filter]. *)
Variable helpers_falsy : option Translation → bool.

(** [context.entity] of a mapped state. *)
Record MappedEntity : Type := mkMappedEntity {
  e_id : option JSValue;
  e_changed : option JSValue;
  e_label : option JSValue;
  e_status : option JSValue;
  e_bundleLabel : option JSValue;
  e_editUrl : option JSValue
}.

Record MappedMutatedState : Type := mkMappedMutatedState {
  ms_mutatedOptions : option MutatedOptions;
  ms_violations : option (list Validation);
  ms_fields : option (list MutatedField)
}.

Record MappedTranslationState : Type := mkMappedTranslationState {
  ts_isTranslatable : option JSValue;
  ts_translations : option (list (option Translation));
  ts_sourceLanguage : option string;
  ts_availableLanguages : option (list Language)
}.

(** What [adapter.mapState] returns; [None] is [undefined]. *)
Record MappedState : Type := mkMappedState {
  c_mutatedState : option MappedMutatedState;
  c_mutations : option (list MutationItem);
  c_currentIndex : option Z;
  c_ownerName : option string;
  c_currentUserIsOwner : option JSValue;
  c_entity : option MappedEntity;
  c_translationState : option MappedTranslationState
}.

Variable mapState : AdapterState → MappedState.

Record BlokkliOwner : Type := mkOwner {
  name : option string;
  currentUserIsOwner : bool
}.

Record EditEntity : Type := mkEditEntity {
  id : option JSValue;
  changed : option JSValue;
  status : option JSValue;
  label : option JSValue;
  bundleLabel : option JSValue;
  editUrl : option JSValue
}.

Record TranslationState : Type := mkTranslationState {
  isTranslatable : bool;
  sourceLanguage : string;
  availableLanguages : list Language;
  translations : list (option Translation)
}.

(** What the provider does to its surroundings. *)
Inductive Effect : Type :=
  | RemoveDroppedElements
  | EmitUpdateMutatedFields (fields : list MutatedField)
  | EmitStateReloaded
  | EmitMessage (message : string) (error : bool).

(** The refs of the provider, the class [bk-body-loading] of the body, and
    the effects so far. *)
Record State : Type := mkState {
  owner : option BlokkliOwner;
  refreshKey : string;
  mutatedFields : list MutatedField;
  mutations : list MutationItem;
  violations : list Validation;
  currentMutationIndex : Z;
  isLoading : bool;
  entity : EditEntity;
  mutatedOptions : MutatedOptions;
  translation : TranslationState;
  bodyLoading : bool;
  effects : list Effect
}.

Definition initial : State :=
  mkState None "" [] [] [] (-1) false
    (mkEditEntity None None (Some (JSBoolean false)) None None None)
    noMutatedOptions
    (mkTranslationState false "" [] [])
    false [].

(** [!!v] and [v || d] on a value that may be [undefined]. *)
Definition to_boolean (v : option JSValue) : bool :=
  match v with
  | Some v => truthy v
  | None => false
  end.

Definition or_default (v : option JSValue) (d : JSValue) : JSValue :=
  match v with
  | Some v => if truthy v then v else d
  | None => d
  end.

Definition or_string (v : option string) (d : string) : string :=
  match v with
  | Some v => if String.eqb v "" then d else v
  | None => d
  end.

(** [setContext] up to the assignment of [entity.value.bundleLabel]. *)
Definition setContext_first (context : option MappedState) (st : State)
  : State :=
  let mutatedState := context ≫= c_mutatedState in
  let contextEntity := context ≫= c_entity in
  mkState
    (Some (mkOwner (context ≫= c_ownerName)
             (to_boolean (context ≫= c_currentUserIsOwner))))
    (refreshKey st)
    (mutatedFields st)
    (default [] (context ≫= c_mutations))
    (default [] (mutatedState ≫= ms_violations))
    (default (-1)%Z (context ≫= c_currentIndex))
    (isLoading st)
    (mkEditEntity
       (contextEntity ≫= e_id)
       (contextEntity ≫= e_changed)
       (contextEntity ≫= e_status)
       (contextEntity ≫= e_label)
       (Some (or_default (contextEntity ≫= e_bundleLabel) (JSString "")))
       (editUrl (entity st)))
    (default noMutatedOptions (mutatedState ≫= ms_mutatedOptions))
    (translation st)
    (bodyLoading st)
    (effects st ++ [RemoveDroppedElements]).

(** [setContext] from the assignment of [entity.value.editUrl], whose
    value is given, to the end; [now] is [Date.now().toString()]. *)
Definition setContext_rest (context : option MappedState)
    (newEditUrl : option JSValue) (now : string) (st : State) : State :=
  let translationState := context ≫= c_translationState in
  let newMutatedFields :=
    default [] ((context ≫= c_mutatedState) ≫= ms_fields) in
  mkState
    (owner st)
    now
    newMutatedFields
    (mutations st)
    (violations st)
    (currentMutationIndex st)
    (isLoading st)
    (mkEditEntity (id (entity st)) (changed (entity st)) (status (entity st))
       (label (entity st)) (bundleLabel (entity st)) newEditUrl)
    (mutatedOptions st)
    (mkTranslationState
       (to_boolean (translationState ≫= ts_isTranslatable))
       (or_string (translationState ≫= ts_sourceLanguage) "")
       (default [] (translationState ≫= ts_availableLanguages))
       (default []
          (List.filter helpers_falsy <$>
             (translationState ≫= ts_translations))))
    (bodyLoading st)
    (effects st ++ [EmitUpdateMutatedFields newMutatedFields;
                    EmitStateReloaded]).

(** [setContext(context)].  [context?.entity.editUrl] reads [editUrl] of
    [undefined] when there is a context without an entity. *)
Definition setContext (context : option MappedState) (now : string)
    (st : State) : State * option Exception :=
  let st := setContext_first context st in
  match context with
  | None => (setContext_rest context None now st, None)
  | Some c =>
      match c_entity c with
      | None => (st, Some TypeError)
      | Some contextEntity =>
          (setContext_rest context (e_editUrl contextEntity) now st, None)
      end
  end.

Definition lockBody (st : State) : State :=
  mkState (owner st) (refreshKey st) (mutatedFields st) (mutations st)
    (violations st) (currentMutationIndex st) true (entity st)
    (mutatedOptions st) (translation st) true (effects st).

Definition unlockBody (st : State) : State :=
  mkState (owner st) (refreshKey st) (mutatedFields st) (mutations st)
    (violations st) (currentMutationIndex st) false (entity st)
    (mutatedOptions st) (translation st) false (effects st).

Definition emitMessage (message : string) (error : bool) (st : State)
  : State :=
  mkState (owner st) (refreshKey st) (mutatedFields st) (mutations st)
    (violations st) (currentMutationIndex st) (isLoading st) (entity st)
    (mutatedOptions st) (translation st) (bodyLoading st)
    (effects st ++ [EmitMessage message error]).

(** How the awaited promise settles.  A result is read at
    [result.data.state?.action]: its [state], if truthy, and whether its
    [success] is truthy. *)
Inductive Settled : Type :=
  | Rejected
  | Resolved (state : option AdapterState) (success : bool).

(** [mutateWithLoadingState(promise, errorMessage, successMessage)]: the
    state after it and the value its promise resolves to. *)
Definition mutateWithLoadingState (promise : option Settled)
    (errorMessage successMessage : option string) (now : string)
    (st : State) : State * bool :=
  match promise with
  | None => (st, true)
  | Some settled =>
      let st := lockBody st in
      let failed (st : State) : State * bool :=
        let st :=
          emitMessage
            (or_string errorMessage
               "Es ist ein unerwarteter Fehler aufgetreten.")
            true st in
        (unlockBody st, false) in
      let succeeded (st : State) : State * bool :=
        match successMessage with
        | Some message =>
            if String.eqb message "" then (st, true)
            else (emitMessage message false st, true)
        | None => (st, true)
        end in
      match settled with
      | Rejected => failed st
      | Resolved state success =>
          let st := unlockBody st in
          match state with
          | Some state =>
              match setContext (Some (mapState state)) now st with
              | (st, None) => succeeded st
              | (st, Some _) => failed st
              end
          | None => if success then succeeded st else failed st
          end
      end
  end.

(** [canEdit], [isTranslation] and [editMode], where [language] is
    [context.value.language] of the adapter context. *)
Definition canEdit (st : State) : bool :=
  match owner st with
  | Some o => currentUserIsOwner o
  | None => false
  end.

Definition isTranslation (language : string) (st : State) : bool :=
  negb (String.eqb language (sourceLanguage (translation st))).

Definition editMode (language : string) (st : State) : string :=
  if negb (canEdit st) then "readonly"
  else if isTranslation language st then "translating"
  else "editing".

(** Whether a settled promise makes [mutateWithLoadingState] fail: it was
    rejected, or it carries a state whose mapped form has no entity, or it
    carries no state and no success. *)
Definition fails (settled : Settled) : bool :=
  match settled with
  | Rejected => true
  | Resolved (Some state) _ =>
      match c_entity (mapState state) with
      | Some _ => false
      | None => true
      end
  | Resolved None success => negb success
  end.

(** An error message among effects. *)
Definition is_error (effect : Effect) : bool :=
  match effect with
  | EmitMessage _ true => true
  | _ => false
  end.

End Provider.

End StateProvider.

(** ** Properties of objects *)

Lemma obj_get_replace (o : JSObj) (key key' : string) (v : JSValue) :
  obj_get (obj_replace o key v) key' =
  if decide (key = key') then (λ _, v) <$> obj_get o key else obj_get o key'.
Proof.
  induction o as [|[k w] o IH]; simpl.
  - by case_decide.
  - destruct (decide (k = key)) as [->|Hk]; simpl;
      destruct (decide (key = key')) as [->|Hkk]; simpl; try done;
      destruct (decide (k = key')) as [->|Hk']; simpl; try done.
    all: by rewrite ?decide_True, ?decide_False in IH by done.
Qed.

Lemma obj_get_insert_index (o : JSObj) (n : N) (key key' : string)
    (v : JSValue) :
  obj_get o key = None →
  obj_get (obj_insert_index o n key v) key' =
  if decide (key = key') then Some v else obj_get o key'.
Proof.
  induction o as [|[k w] o IH]; simpl; intros Hfresh; [done|].
  destruct (decide (k = key)) as [->|Hk]; [done|].
  destruct (array_index k) as [m|]; [destruct (m <? n)%N|]; simpl; try done.
  destruct (decide (k = key')) as [->|Hk'].
  - by rewrite decide_False.
  - by apply IH.
Qed.

Lemma obj_get_app (o o' : JSObj) (key : string) :
  obj_get (o ++ o') key =
  match obj_get o key with Some v => Some v | None => obj_get o' key end.
Proof.
  induction o as [|[k w] o IH]; simpl; [done|]. by case_decide.
Qed.

Lemma obj_get_define (o : JSObj) (key key' : string) (v : JSValue) :
  obj_get (obj_define o key v) key' =
  if decide (key = key') then Some v else obj_get o key'.
Proof.
  unfold obj_define. destruct (obj_get o key) as [w|] eqn:Hget.
  - rewrite obj_get_replace, Hget. by case_decide.
  - destruct (array_index key) as [n|].
    + by apply obj_get_insert_index.
    + rewrite obj_get_app. simpl.
      case_decide; simplify_eq; [by rewrite Hget|].
      by destruct (obj_get o key').
Qed.

Lemma obj_get_foldl_define (o : JSObj) (entries : list (string * JSValue))
    (key : string) :
  obj_get (foldl (λ o kv, obj_define o kv.1 kv.2) o entries) key =
  foldl (λ acc kv, if decide (kv.1 = key) then Some kv.2 else acc)
    (obj_get o key) entries.
Proof.
  revert o. induction entries as [|[k v] entries IH]; intros o; simpl; [done|].
  by rewrite IH, obj_get_define.
Qed.

Lemma obj_get_fromEntries (entries : list (string * JSValue)) (key : string) :
  obj_get (fromEntries entries) key = last_entry key entries.
Proof. unfold fromEntries. by rewrite obj_get_foldl_define. Qed.

Lemma last_entry_app (key : string) (es es' : list (string * JSValue)) :
  last_entry key (es ++ es') =
  match last_entry key es' with
  | Some v => Some v
  | None => last_entry key es
  end.
Proof.
  unfold last_entry. rewrite foldl_app. generalize (foldl
    (λ acc kv, if decide (kv.1 = key) then Some kv.2 else acc) None es).
  induction es' as [|[k v] es' IH] using rev_ind; intros acc; simpl.
  - done.
  - rewrite !foldl_app. simpl. case_decide; [done|]. apply IH.
Qed.

Lemma last_entry_Some (key : string) (es : list (string * JSValue))
    (v : JSValue) :
  last_entry key es = Some v → (key, v) ∈ es.
Proof.
  induction es as [|[k w] es IH] using rev_ind; [done|].
  rewrite last_entry_app. unfold last_entry at 1. simpl.
  case_decide; simplify_eq/=.
  - intros [= ->]. set_solver.
  - intros ?. set_solver.
Qed.

Lemma last_entry_None (key : string) (es : list (string * JSValue)) :
  (∀ kv, kv ∈ es → kv.1 ≠ key) → last_entry key es = None.
Proof.
  induction es as [|[k w] es IH] using rev_ind; [done|].
  intros Hne. rewrite last_entry_app. unfold last_entry at 1. simpl.
  rewrite decide_False by (apply (Hne (k, w)); set_solver).
  apply IH. intros kv ?. apply Hne. set_solver.
Qed.

(** ** Extraction, member by member *)

Lemma non_null_fmap {A B : Type} (f : A → option B) (l : list A) :
  non_null (f <$> l) = omap f l.
Proof.
  unfold non_null. induction l as [|x l IH]; [done|].
  rewrite fmap_cons. cbn [List.filter omap list_omap].
  destruct (f x) as [y|] eqn:Hx; cbn [falsy omap list_omap id].
  - by rewrite <-IH.
  - done.
Qed.

Lemma estreeToObject_members (s e : nat) (members : list Node) :
  estreeToObject (ObjectExpression s e members) =
  fromEntries (omap member_entry members).
Proof. cbn [estreeToObject]. by rewrite non_null_fmap. Qed.

Lemma member_entry_key (member : Node) (kv : string * JSValue) :
  member_entry member = Some kv → member_key member = Some kv.1.
Proof.
  destruct member as [| | |ps pe c key value| | | |]; try done. simpl.
  unfold member_entry. simpl. destruct (node_name key); [|done].
  destruct value; naive_solver.
Qed.

Lemma member_entry_Property (ps pe : nat) (c : bool) (key value : Node)
    (name : string) :
  node_name key = Some name → supported_value value = true →
  member_entry (Property ps pe c key value) = Some (name, value_of value).
Proof.
  unfold member_entry. simpl. intros -> ?. by destruct value.
Qed.

Lemma member_entry_inv (member : Node) (name : string) (v : JSValue) :
  member_entry member = Some (name, v) →
  ∃ ps pe c ks ke value,
    member = Property ps pe c (Identifier ks ke name) value ∧
    supported_value value = true ∧ v = value_of value.
Proof.
  destruct member as [| | |ps pe c key value| | | |]; try done.
  unfold member_entry. simpl.
  destruct key as [|ks ke n| | | | | |]; try done. simpl.
  destruct value; try done; intros [= <- <-]; by eexists _, _, _, _, _, _.
Qed.

Lemma member_entry_unsupported (member : Node) :
  unsupported_member member = true → member_entry member = None.
Proof.
  destruct member as [| | |ps pe c key value| | | |]; try done.
  unfold member_entry. simpl. destruct (node_name key); [|done].
  by destruct value.
Qed.

Lemma omap_app_drop {A B : Type} (f : A → option B) (l1 l2 : list A) (x : A) :
  f x = None → omap f (l1 ++ x :: l2) = omap f (l1 ++ l2).
Proof. intros Hx. rewrite !omap_app. simpl. by rewrite Hx. Qed.

(** C7. A member of an object literal whose value is an array literal or
    any other expression that is neither a literal nor an object literal
    (an identifier, a call, a template string), as well as a spread member,
    is dropped from the extracted mapping: the mapping is the one extracted
    from the remaining members.  The conversion itself is total, so no such
    member raises an error or aborts it. *)
Theorem estreeToObject_drops_unsupported
    (s e : nat) (before after : list Node) (member : Node) :
  unsupported_member member = true →
  estreeToObject (ObjectExpression s e (before ++ member :: after)) =
  estreeToObject (ObjectExpression s e (before ++ after)).
Proof.
  intros Hm. rewrite !estreeToObject_members.
  by rewrite (omap_app_drop _ _ _ _ (member_entry_unsupported _ Hm)).
Qed.

Lemma last_entry_cons (key : string) (kv : string * JSValue)
    (es : list (string * JSValue)) :
  last_entry key (kv :: es) =
  match last_entry key es with
  | Some v => Some v
  | None => if decide (kv.1 = key) then Some kv.2 else None
  end.
Proof. exact (last_entry_app key [kv] es). Qed.

Lemma last_entry_is_Some (key : string) (v : JSValue)
    (es : list (string * JSValue)) :
  (key, v) ∈ es → is_Some (last_entry key es).
Proof.
  induction es as [|kv es IH]; [by intros ?%elem_of_nil|].
  rewrite last_entry_cons. intros [<-|Hin]%elem_of_cons.
  - destruct (last_entry key es); [done|]. simpl. by rewrite decide_True.
  - destruct (IH Hin) as [w ->]. done.
Qed.

Lemma after_keys_differ (name : string) (after : list Node) :
  (∀ m, m ∈ after → member_key m ≠ Some name) →
  ∀ kv, kv ∈ omap member_entry after → kv.1 ≠ name.
Proof.
  intros Hafter kv (m & Hm & Hkv)%list_elem_of_omap <-.
  by apply (Hafter m Hm), member_entry_key.
Qed.

Lemma member_entry_string_keyed (member : Node) :
  string_keyed member = true → member_entry member = None.
Proof.
  destruct member as [| | |ps pe c key value| | | |]; try done.
  by destruct key.
Qed.

Lemma omap_cons_Some {A B : Type} (f : A → option B) (l : list A) (x : A)
    (y : B) :
  f x = Some y → omap f (x :: l) = y :: omap f l.
Proof. intros Hx. simpl. by rewrite Hx. Qed.

Lemma omap_all_None {A B : Type} (f : A → option B) (l : list A) :
  Forall (λ x, f x = None) l → omap f l = [].
Proof. induction 1 as [|x l Hx _ IH]; simpl; [done|]. by rewrite Hx. Qed.

Lemma estreeToObject_string_keyed (s e : nat) (members : list Node) :
  forallb string_keyed members = true →
  estreeToObject (ObjectExpression s e members) = [].
Proof.
  intros Hall. rewrite estreeToObject_members, omap_all_None; [done|].
  apply Forall_forall. intros m Hm. apply member_entry_string_keyed.
  rewrite forallb_forall in Hall. by apply Hall, list_elem_of_In.
Qed.

(** C4, as amended.  The mapping extracted from an object literal has an
    entry for each property whose key is an identifier and whose value is a
    literal or an object literal; the entry of a name holds the value of
    the last such property of that name, a literal as its own value and an
    object literal converted recursively; every entry of the mapping comes
    from such a property; a property whose key is a string literal is
    skipped. *)
Theorem estreeToObject_identifier_keys (s e : nat) (members : list Node) :
  (∀ ps pe ks ke name value,
     Property ps pe false (Identifier ks ke name) value ∈ members →
     supported_value value = true →
     is_Some (obj_get (estreeToObject (ObjectExpression s e members)) name))
  ∧ (∀ before after ps pe ks ke name value,
       members =
         before ++ Property ps pe false (Identifier ks ke name) value :: after →
       supported_value value = true →
       (∀ m, m ∈ after → member_key m ≠ Some name) →
       obj_get (estreeToObject (ObjectExpression s e members)) name =
       Some (value_of value))
  ∧ (∀ name v,
       obj_get (estreeToObject (ObjectExpression s e members)) name = Some v →
       ∃ ps pe c ks ke value,
         Property ps pe c (Identifier ks ke name) value ∈ members ∧
         supported_value value = true ∧ v = value_of value)
  ∧ (∀ before after ps pe c ks ke key value,
       members =
         before ++ Property ps pe c (Literal ks ke (LitString key)) value
                :: after →
       estreeToObject (ObjectExpression s e members) =
       estreeToObject (ObjectExpression s e (before ++ after))).
Proof.
  rewrite estreeToObject_members. repeat split.
  - intros ps pe ks ke name value Hin Hv. rewrite obj_get_fromEntries.
    apply (last_entry_is_Some _ (value_of value)), list_elem_of_omap.
    eexists. split; [exact Hin|]. by apply member_entry_Property.
  - intros before after ps pe ks ke name value -> Hv Hafter.
    rewrite obj_get_fromEntries, omap_app, last_entry_app.
    rewrite (omap_cons_Some _ _ _ _
               (member_entry_Property ps pe false (Identifier ks ke name) _ name
                  eq_refl Hv)).
    rewrite last_entry_cons, last_entry_None by by apply after_keys_differ.
    simpl. by rewrite decide_True.
  - intros name v Hget. rewrite obj_get_fromEntries in Hget.
    apply last_entry_Some, list_elem_of_omap in Hget as (m & Hm & Hentry).
    apply member_entry_inv in Hentry
      as (ps & pe & c & ks & ke & value & -> & Hv & ->).
    by eexists ps, pe, c, ks, ke, value.
  - intros before after ps pe c ks ke key value ->.
    rewrite estreeToObject_members. by rewrite omap_app_drop.
Qed.

Lemma estreeToObject_identifier_keys_witness :
  obj_get (estreeToObject size_argument) "options" =
  Some (value_of size_options).
Proof.
  apply (proj1 (proj2 (estreeToObject_identifier_keys 16 102 _))
           [] [size_globalOptions] 18 74 18 25 "options" size_options);
    [reflexivity|reflexivity|].
  intros m Hm. apply list_elem_of_singleton in Hm as ->. discriminate.
Defined.

(** C4, as stated, fails: the keys of this object literal are string
    literals, and the mapping extracted from it has no entry. *)
Lemma string_literal_key_not_extracted :
  estreeToObject size_output_argument = []
  ∧ obj_get (estreeToObject size_output_argument) "options" = None.
Proof. by vm_compute. Qed.

(** ** Strings *)

Lemma append_cons (c : Ascii.ascii) (s1 s2 : string) :
  String c s1 +:+ s2 = String c (s1 +:+ s2).
Proof. done. Qed.

Lemma append_nil_r (s : string) : s +:+ "" = s.
Proof.
  induction s as [|c s IH]; [done|]. by rewrite append_cons, IH.
Qed.

Lemma append_assoc (s1 s2 s3 : string) :
  (s1 +:+ s2) +:+ s3 = s1 +:+ (s2 +:+ s3).
Proof.
  induction s1 as [|c s1 IH]; [done|]. by rewrite !append_cons, IH.
Qed.

Lemma length_append (s1 s2 : string) :
  String.length (s1 +:+ s2) = String.length s1 + String.length s2.
Proof.
  induction s1 as [|c s1 IH]; [done|]. rewrite append_cons. simpl.
  by rewrite IH.
Qed.

Lemma string_take_drop (n : nat) (s : string) :
  string_take n s +:+ string_drop n s = s.
Proof.
  revert s. induction n as [|n IH]; intros [|c s]; try done.
  simpl. by rewrite append_cons, IH.
Qed.

Lemma length_string_take (n : nat) (s : string) :
  n ≤ String.length s → String.length (string_take n s) = n.
Proof.
  revert s. induction n as [|n IH]; intros [|c s]; simpl; try done; try lia.
  intros ?. rewrite IH; lia.
Qed.

Lemma length_string_drop (n : nat) (s : string) :
  String.length (string_drop n s) = String.length s - n.
Proof.
  revert s. induction n as [|n IH]; intros [|c s]; simpl; try done.
Qed.

(** ** Induction on syntax trees *)

Lemma Node_children_ind (P : Node → Prop) :
  (∀ node, Forall P (children node) → P node) → ∀ node, P node.
Proof.
  intros step. fix IH 1. intros node. apply step.
  destruct node as [| |s e l|s e c k v|s e a|s e l|s e f l|s e l]; simpl.
  - constructor.
  - constructor.
  - induction l; constructor; [apply IH|assumption].
  - repeat constructor; apply IH.
  - repeat constructor; apply IH.
  - induction l; constructor; [apply IH|assumption].
  - constructor; [apply IH|]. induction l; constructor; [apply IH|assumption].
  - induction l; constructor; [apply IH|assumption].
Qed.

Section Walk.

Variable numberToString : float → string.

Lemma walk_children (node : Node) (st : WalkState) :
  walk numberToString node st =
  foldl (λ st child, walk numberToString child st)
    (enter numberToString node st) (children node).
Proof. by destruct node. Qed.

Lemma rewrite_targets_children (node : Node) :
  rewrite_targets node =
  option_list (rewrite_target node) ++ (children node ≫= rewrite_targets).
Proof.
  destruct node; try done; cbn [rewrite_targets children]; f_equal; simpl;
    by rewrite ?app_nil_r.
Qed.

(** [enter] either leaves the magic string alone or overwrites the range
    of the argument to rewrite. *)
Lemma enter_body_cases (node : Node) (s : t) :
  (enter_body numberToString node s).1 = s
  ∨ ∃ arg json,
      rewrite_target node = Some arg ∧
      enter_body numberToString node s =
      overwrite (node_start arg) (node_end arg) json s.
Proof.
  destruct node as [| | | | | |cs ce callee arguments|]; try by left.
  destruct callee as [|ks ke name| | | | | |]; try by left.
  simpl. case_decide; [|by left].
  destruct arguments as [|arg rest]; [by left|].
  destruct (is_ObjectExpression arg) eqn:Harg; [|by left].
  destruct (_ ≫= _) as [json|err]; [|by left].
  right. by eexists arg, json.
Qed.

End Walk.

(** ** The chunks of a magic string *)

Lemma originals_cons (c : Chunk) (cs : list Chunk) :
  originals (c :: cs) = c_original c +:+ originals cs.
Proof. done. Qed.

Lemma contents_cons (c : Chunk) (cs : list Chunk) :
  contents (c :: cs) = c_content c +:+ contents cs.
Proof. done. Qed.

Lemma consecutive_bounds (off : nat) (cs : list Chunk) :
  consecutive off cs →
  ∀ c, c ∈ cs → off ≤ c_start c ∧ off < c_end c.
Proof.
  revert off. induction cs as [|c cs IH]; intros off Hcs c' Hin.
  - by apply elem_of_nil in Hin.
  - destruct Hcs as (Hs & He & Hlen & _ & Hcs).
    apply elem_of_cons in Hin as [->|Hin]; [lia|].
    destruct (IH _ Hcs _ Hin). lia.
Qed.

Lemma consecutive_first (off : nat) (cs : list Chunk) :
  consecutive off cs → cs ≠ [] → has_start off cs.
Proof.
  destruct cs as [|c cs]; [done|]. intros (Hs & _) _.
  exists c. split; [left|done].
Qed.

Lemma consecutive_last (off : nat) (cs : list Chunk) :
  consecutive off cs → cs ≠ [] →
  has_end (off + String.length (originals cs)) cs.
Proof.
  revert off. induction cs as [|c cs IH]; [done|].
  intros off (Hs & He & Hlen & _ & Hcs) _.
  rewrite originals_cons, length_append. destruct cs as [|c' cs].
  - exists c. split; [left|]. simpl. lia.
  - destruct (IH _ Hcs) as (c'' & Hin & Hc''); [done|].
    exists c''. split; [by right|]. lia.
Qed.

Lemma originals_nil_length (off : nat) (cs : list Chunk) :
  consecutive off cs → String.length (originals cs) = 0 → cs = [].
Proof.
  destruct cs as [|c cs]; [done|]. intros (_ & _ & Hlen & _).
  rewrite originals_cons, length_append. lia.
Qed.

Lemma has_boundary_true (index : nat) (cs : list Chunk) :
  has_boundary index cs = true ↔ has_start index cs ∨ has_end index cs.
Proof.
  unfold has_boundary, has_start, has_end. rewrite existsb_exists. split.
  - intros (c & Hin%list_elem_of_In & [?%Nat.eqb_eq|?%Nat.eqb_eq]%orb_true_iff);
      eauto.
  - intros [(c & Hin%list_elem_of_In & <-)|(c & Hin%list_elem_of_In & <-)];
      exists c; rewrite Nat.eqb_refl; split; auto using orb_true_r.
Qed.

Lemma has_start_cons (index : nat) (c : Chunk) (cs : list Chunk) :
  has_start index (c :: cs) ↔ c_start c = index ∨ has_start index cs.
Proof.
  unfold has_start. split.
  - intros (c' & [->|Hin]%elem_of_cons & Hc); [by left|right; eauto].
  - intros [Hc|(c' & Hin & Hc)];
      [exists c; split; [left|done]|exists c'; split; [by right|done]].
Qed.

Lemma has_end_cons (index : nat) (c : Chunk) (cs : list Chunk) :
  has_end index (c :: cs) ↔ c_end c = index ∨ has_end index cs.
Proof.
  unfold has_end. split.
  - intros (c' & [->|Hin]%elem_of_cons & Hc); [by left|right; eauto].
  - intros [Hc|(c' & Hin & Hc)];
      [exists c; split; [left|done]|exists c'; split; [by right|done]].
Qed.

Lemma framed_cons (ranges : list (nat * nat)) (c : Chunk)
    (cs : list Chunk) :
  framed ranges (c :: cs) ↔
  (c_edited c = true → within ranges c) ∧ framed ranges cs.
Proof. apply Forall_cons. Qed.

(** An interior boundary is both the end of a chunk and the start of the
    next one. *)
Lemma interior_boundary (off index : nat) (cs : list Chunk) :
  consecutive off cs →
  off < index → index < off + String.length (originals cs) →
  has_start index cs ∨ has_end index cs →
  has_start index cs ∧ has_end index cs.
Proof.
  revert off. induction cs as [|c cs IH]; intros off Hcs Hlo Hhi Hb.
  { destruct Hb as [(? & []%elem_of_nil & _)|(? & []%elem_of_nil & _)]. }
  pose proof (consecutive_bounds _ _ Hcs) as Hbounds.
  destruct Hcs as (Hs & He & Hlen & _ & Hcs).
  rewrite originals_cons, length_append in Hhi.
  rewrite has_start_cons, has_end_cons in *.
  destruct (decide (c_end c = index)) as [Heq|Hne].
  - split; [right|by left].
    rewrite <-Heq. apply consecutive_first; [done|].
    intros ->. simpl in Hhi. lia.
  - assert (has_start index cs ∨ has_end index cs) as Hb'.
    { destruct Hb as [[?|?]|[?|?]]; [lia|by left|done|by right]. }
    destruct (decide (c_end c < index)).
    + destruct (IH _ Hcs) as [??]; [lia|lia|done|]. by split; right.
    + pose proof (consecutive_bounds _ _ Hcs) as Hb2.
      destruct Hb' as [(c' & Hin & ?)|(c' & Hin & ?)];
        destruct (Hb2 _ Hin); lia.
Qed.

Lemma split_chunk_spec (index : nat) (c c1 c2 : Chunk) :
  contains index c = true →
  c_end c = c_start c + String.length (c_original c) →
  split_chunk index c = (c1, c2) →
  c_start c1 = c_start c ∧ c_end c1 = index
  ∧ c_start c2 = index ∧ c_end c2 = c_end c
  ∧ c_original c1 +:+ c_original c2 = c_original c
  ∧ String.length (c_original c1) = index - c_start c
  ∧ c_edited c1 = c_edited c ∧ c_edited c2 = c_edited c
  ∧ (c_edited c = false →
     c_content c1 = c_original c1 ∧ c_content c2 = c_original c2)
  ∧ (c_edited c = true → c_content c1 = "" ∧ c_content c2 = "").
Proof.
  unfold contains, split_chunk.
  intros [Hlo%Nat.ltb_lt Hhi%Nat.ltb_lt]%andb_true_iff Hend.
  destruct (c_edited c); intros [= <- <-]; simpl;
    rewrite string_take_drop, length_string_take by lia; naive_solver.
Qed.

Lemma split_containing_spec (off index : nat) (cs cs' : list Chunk) :
  consecutive off cs →
  split_containing index cs = Ok cs' →
  consecutive off cs'
  ∧ originals cs' = originals cs
  ∧ contents cs' = contents cs
  ∧ (∀ ranges, framed ranges cs → framed ranges cs')
  ∧ (∀ i, has_start i cs → has_start i cs')
  ∧ (∀ i, has_end i cs → has_end i cs').
Proof.
  revert off cs'. induction cs as [|c cs IH]; intros off cs' Hcs Hsplit.
  { by injection Hsplit as <-. }
  simpl in Hsplit. destruct Hcs as (Hs & He & Hlen & Hun & Hcs).
  destruct (contains index c) eqn:Hcontains.
  - destruct (c_edited c && negb (String.eqb (c_content c) ""))
      eqn:Hedited; [done|].
    destruct (split_chunk index c) as [c1 c2] eqn:Hsc.
    injection Hsplit as <-.
    pose proof Hcontains as
      [Hlo%Nat.ltb_lt Hhi%Nat.ltb_lt]%andb_true_iff.
    destruct (split_chunk_spec _ _ _ _ Hcontains ltac:(lia) Hsc)
      as (Hs1 & He1 & Hs2 & He2 & Horig & Hlen1 & Hed1 & Hed2 & Hunch & Hch).
    assert (String.length (c_original c2)
            = String.length (c_original c) - (index - c_start c))
      as Hlen2.
    { rewrite <-Horig, length_append. lia. }
    split; [|split; [|split; [|split; [|split]]]].
    + simpl. rewrite Hed1, Hed2, He2.
      repeat split; try done; try lia; intros Hf; by apply Hunch.
    + rewrite !originals_cons. by rewrite <-append_assoc, Horig.
    + rewrite !contents_cons. rewrite <-append_assoc. f_equal.
      destruct (c_edited c) eqn:Hed.
      * destruct (Hch eq_refl) as [-> ->].
        simpl in Hedited. apply negb_false_iff, String.eqb_eq in Hedited.
        by rewrite Hedited.
      * destruct (Hunch eq_refl) as [-> ->]. by rewrite Horig, Hun.
    + intros ranges [Hc Hrest]%framed_cons.
      apply framed_cons. split; [|apply framed_cons; split; [|done]].
      * rewrite Hed1. intros (r & ? & ? & ?)%Hc.
        exists r. repeat split; [done|lia..].
      * rewrite Hed2. intros (r & ? & ? & ?)%Hc.
        exists r. repeat split; [done|lia..].
    + intros i. rewrite !has_start_cons. intros [?|?]; [left; lia|auto].
    + intros i. rewrite !has_end_cons. intros [?|?]; [right; left; lia|auto].
  - destruct (split_containing index cs) as [cs''|] eqn:Hrec; [|done].
    injection Hsplit as <-.
    destruct (IH _ _ Hcs eq_refl) as (Hcs'' & Ho & Hc & Hf & Hst & Hen).
    split; [|split; [|split; [|split; [|split]]]].
    + done.
    + rewrite !originals_cons. by rewrite Ho.
    + rewrite !contents_cons. by rewrite Hc.
    + intros ranges [? ?]%framed_cons. apply framed_cons. auto.
    + intros i. rewrite !has_start_cons. intros [?|?]; auto.
    + intros i. rewrite !has_end_cons. intros [?|?]; auto.
Qed.

Lemma split_spec (off index : nat) (cs cs' : list Chunk) :
  consecutive off cs →
  split index cs = Ok cs' →
  consecutive off cs'
  ∧ originals cs' = originals cs
  ∧ contents cs' = contents cs
  ∧ (∀ ranges, framed ranges cs → framed ranges cs')
  ∧ (∀ i, has_start i cs → has_start i cs')
  ∧ (∀ i, has_end i cs → has_end i cs').
Proof.
  unfold split. destruct (has_boundary index cs).
  - by intros ? [= <-].
  - apply split_containing_spec.
Qed.

Lemma split_containing_boundary (off index : nat) (cs cs' : list Chunk) :
  consecutive off cs →
  off < index → index < off + String.length (originals cs) →
  has_boundary index cs = false →
  split_containing index cs = Ok cs' →
  has_start index cs' ∧ has_end index cs'.
Proof.
  revert off cs'. induction cs as [|c cs IH]; intros off cs' Hcs Hlo Hhi Hnb.
  { simpl in Hhi. lia. }
  destruct Hcs as (Hs & He & Hlen & Hun & Hcs).
  rewrite originals_cons, length_append in Hhi.
  simpl in Hnb. apply orb_false_iff in Hnb as [Hnc Hnb].
  apply orb_false_iff in Hnc as [Hns%Nat.eqb_neq Hne%Nat.eqb_neq].
  simpl. destruct (contains index c) eqn:Hcontains.
  - destruct (_ && _); [done|].
    destruct (split_chunk index c) as [c1 c2] eqn:Hsc. intros [= <-].
    destruct (split_chunk_spec _ _ _ _ Hcontains ltac:(lia) Hsc)
      as (Hs1 & He1 & Hs2 & He2 & _).
    split; [exists c2|exists c1]; (split; [|done]).
    + right. left.
    + left.
  - destruct (split_containing index cs) as [cs''|] eqn:Hrec; [|done].
    intros [= <-].
    apply andb_false_iff in Hcontains as [?%Nat.ltb_ge|?%Nat.ltb_ge]; [lia|].
    destruct (IH (c_end c) cs'' Hcs) as [??]; try done; try lia.
    rewrite has_start_cons, has_end_cons. auto.
Qed.

(** After a successful split there is a boundary at the index. *)
Lemma split_boundary (off index : nat) (cs cs' : list Chunk) :
  consecutive off cs →
  off < index → index < off + String.length (originals cs) →
  split index cs = Ok cs' →
  has_start index cs' ∧ has_end index cs'.
Proof.
  intros Hcs Hlo Hhi. unfold split.
  destruct (has_boundary index cs) eqn:Hb.
  - intros [= <-]. apply (interior_boundary off); try done.
    by apply has_boundary_true.
  - by apply (split_containing_boundary off).
Qed.

Lemma edited_in_refl (start end_ : nat) (cs : list Chunk) :
  Forall2 (edited_in start end_) cs cs.
Proof. induction cs; constructor; [by left|done]. Qed.

Lemma blank_to_last_spec (off start end_ : nat) (cs : list Chunk) :
  consecutive off cs → start ≤ off → has_end end_ cs →
  Forall2 (edited_in start end_) cs (blank_to_last end_ cs).
Proof.
  revert off. induction cs as [|c cs IH]; intros off Hcs Hoff Hend.
  { constructor. }
  pose proof Hcs as (Hs & He & Hlen & _ & Hcs').
  pose proof (consecutive_bounds _ _ Hcs') as Hbounds.
  apply has_end_cons in Hend. simpl. constructor.
  - right. exists "". split; [done|]. split; [lia|].
    destruct Hend as [?|(c' & Hin & ?)]; [lia|].
    destruct (Hbounds _ Hin). lia.
  - destruct (Nat.eqb_spec (c_end c) end_) as [Heq|Hne].
    + apply edited_in_refl.
    + apply (IH (c_end c)); [done|lia|]. by destruct Hend.
Qed.

Lemma edit_range_spec (off start end_ : nat) (content : string)
    (cs : list Chunk) :
  consecutive off cs → has_start start cs → has_end end_ cs → start < end_ →
  Forall2 (edited_in start end_) cs (edit_range start end_ content cs).
Proof.
  revert off. induction cs as [|c cs IH]; intros off Hcs Hstart Hend Hlt.
  { constructor. }
  pose proof Hcs as (Hs & He & Hlen & _ & Hcs').
  pose proof (consecutive_bounds _ _ Hcs') as Hbounds.
  apply has_start_cons in Hstart. apply has_end_cons in Hend. simpl.
  destruct (Nat.eqb_spec (c_start c) start) as [Heq|Hne].
  - constructor.
    + right. exists content. split; [done|]. split; [lia|].
      destruct Hend as [?|(c' & Hin & ?)]; [lia|].
      destruct (Hbounds _ Hin). lia.
    + destruct (Nat.eqb_spec (c_end c) end_) as [Heq'|Hne'].
      * apply edited_in_refl.
      * apply (blank_to_last_spec (c_end c)); [done|lia|].
        by destruct Hend.
  - constructor; [by left|].
    destruct Hstart as [?|Hstart]; [done|].
    apply (IH (c_end c)); try done.
    destruct Hend as [Heq|?]; [|done].
    destruct Hstart as (c' & Hin & ?). destruct (Hbounds _ Hin). lia.
Qed.

Lemma edited_in_consecutive (off start end_ : nat) (cs cs' : list Chunk) :
  Forall2 (edited_in start end_) cs cs' → consecutive off cs →
  consecutive off cs' ∧ originals cs' = originals cs.
Proof.
  intros H. revert off. induction H as [|c c' cs cs' Hc _ IH]; intros off.
  { done. }
  intros (Hs & He & Hlen & Hun & Hcs).
  assert (c_start c' = c_start c ∧ c_end c' = c_end c
          ∧ c_original c' = c_original c
          ∧ (c_edited c' = false → c_content c' = c_original c'))
    as (Hs' & He' & Ho' & Hun').
  { destruct Hc as [->|(content & -> & _)]; [done|]. by simpl. }
  destruct (IH _ Hcs) as [Hcs' Ho].
  split.
  - simpl. rewrite Hs', He', Ho'. by rewrite Ho' in Hun'.
  - by rewrite !originals_cons, Ho', Ho.
Qed.

Lemma edited_in_framed (ranges : list (nat * nat)) (start end_ : nat)
    (cs cs' : list Chunk) :
  (start, end_) ∈ ranges →
  Forall2 (edited_in start end_) cs cs' → framed ranges cs →
  framed ranges cs'.
Proof.
  intros Hr H. induction H as [|c c' cs cs' Hc _ IH]; [done|].
  intros [Hframed Hrest]%framed_cons. apply framed_cons. split; [|auto].
  destruct Hc as [->|(content & -> & ? & ?)]; [done|].
  intros _. by exists (start, end_).
Qed.

Lemma framed_nil_contents (off : nat) (cs : list Chunk) :
  consecutive off cs → framed [] cs → contents cs = originals cs.
Proof.
  revert off. induction cs as [|c cs IH]; intros off; [done|].
  intros (_ & _ & _ & Hun & Hcs) [Hc Hrest]%framed_cons.
  rewrite contents_cons, originals_cons, (IH _ Hcs Hrest). f_equal.
  apply Hun. destruct (c_edited c); [|done].
  destruct (Hc eq_refl) as (r & []%elem_of_nil & _).
Qed.

Lemma ms_inv_new (ranges : list (nat * nat)) (source : string) :
  0 < String.length source → ms_inv ranges (new source).
Proof.
  intros Hlen. split; [|split].
  - simpl. repeat split; done.
  - apply append_nil_r.
  - apply framed_cons. split; [done|]. constructor.
Qed.

(** [overwrite] keeps the invariant, whether it succeeds or throws. *)
Lemma overwrite_inv (ranges : list (nat * nat)) (start end_ : nat)
    (content : string) (s : t) :
  (start, end_) ∈ ranges → ms_inv ranges s →
  ms_inv ranges (overwrite start end_ content s).1
  ∧ original (overwrite start end_ content s).1 = original s.
Proof.
  intros Hr (Hcs & Ho & Hf). unfold overwrite.
  destruct (Nat.ltb_spec (String.length (original s)) end_) as [|Hend];
    [done|].
  destruct (Nat.leb_spec end_ start) as [|Hlt]; [done|].
  destruct (split start (chunks s)) as [cs1|] eqn:Hsplit1; [|done].
  destruct (split_spec _ _ _ _ Hcs Hsplit1)
    as (Hcs1 & Ho1 & _ & Hf1 & Hst1 & _).
  destruct (split end_ cs1) as [cs2|] eqn:Hsplit2.
  2:{ simpl. split; [|done]. repeat split; simpl; [done|congruence|auto]. }
  destruct (split_spec _ _ _ _ Hcs1 Hsplit2)
    as (Hcs2 & Ho2 & _ & Hf2 & Hst2 & Hen2).
  assert (has_start start cs2) as Hstart.
  { apply Hst2. destruct (decide (start = 0)) as [->|].
    - apply Hst1, consecutive_first; [done|].
      intros Hnil. rewrite Hnil in Ho. simpl in Ho. rewrite <-Ho in Hend.
      simpl in Hend. lia.
    - apply (split_boundary 0 _ _ _ Hcs); [lia| |done].
      rewrite Ho. lia. }
  assert (has_end end_ cs2) as Hendb.
  { destruct (decide (end_ = String.length (original s))) as [Heq|].
    - apply Hen2. rewrite Heq, <-Ho, <-Ho1.
      apply (consecutive_last 0); [done|].
      intros Hnil. rewrite Hnil in Ho1. rewrite <-Ho, <-Ho1 in Hend.
      simpl in Hend. lia.
    - apply (split_boundary 0 _ _ _ Hcs1); [lia| |done].
      rewrite Ho1, Ho. lia. }
  pose proof (edit_range_spec 0 _ _ content _ Hcs2 Hstart Hendb Hlt) as Hedit.
  destruct (edited_in_consecutive 0 _ _ _ _ Hedit Hcs2) as [Hcs3 Ho3].
  simpl. split; [|done]. repeat split; simpl.
  - done.
  - congruence.
  - eapply edited_in_framed; eauto.
Qed.

Section WalkInvariant.

Variable numberToString : float → string.

Lemma enter_fst (node : Node) (st : WalkState) :
  (enter numberToString node st).1 = (enter_body numberToString node st.1).1.
Proof.
  unfold enter. by destruct (enter_body _ _ _) as [s [e|]].
Qed.

Lemma enter_inv (ranges : list (nat * nat)) (node : Node) (st : WalkState) :
  (∀ arg, rewrite_target node = Some arg → node_range arg ∈ ranges) →
  ms_inv ranges st.1 →
  ms_inv ranges (enter numberToString node st).1
  ∧ original (enter numberToString node st).1 = original st.1.
Proof.
  intros Hr Hinv. rewrite enter_fst.
  destruct (enter_body_cases numberToString node st.1)
    as [->|(arg & json & Harg & ->)]; [done|].
  apply overwrite_inv; [|done]. by apply Hr.
Qed.

Lemma walk_inv (ranges : list (nat * nat)) (node : Node) :
  ∀ st,
    (∀ arg, arg ∈ rewrite_targets node → node_range arg ∈ ranges) →
    ms_inv ranges st.1 →
    ms_inv ranges (walk numberToString node st).1
    ∧ original (walk numberToString node st).1 = original st.1.
Proof.
  induction node as [node IH] using Node_children_ind.
  intros st Hr Hinv. rewrite walk_children.
  rewrite rewrite_targets_children in Hr.
  destruct (enter_inv ranges node st) as [Hinv' Ho']; [|done|].
  { intros arg Harg. apply Hr. rewrite Harg. set_solver. }
  assert (∀ child arg, child ∈ children node →
            arg ∈ rewrite_targets child → node_range arg ∈ ranges)
    as Hchildren.
  { intros child arg Hchild Harg. apply Hr, elem_of_app. right.
    apply list_elem_of_bind. eauto. }
  rewrite <-Ho'. clear Hr Ho'.
  generalize dependent (enter numberToString node st). clear st Hinv.
  induction IH as [|child rest Hchild _ IHrest]; intros st Hinv; simpl.
  { done. }
  destruct (Hchild st) as [Hinv1 Ho1]; [|done|].
  { intros arg. apply Hchildren. left. }
  rewrite <-Ho1. apply IHrest; [|done].
  intros child' arg ?. apply Hchildren. by right.
Qed.

End WalkInvariant.

Lemma consecutive_unedited (off : nat) (cs : list Chunk) :
  consecutive off cs →
  ∀ c, c ∈ cs → c_edited c = false → c_content c = c_original c.
Proof.
  revert off. induction cs as [|c cs IH]; intros off Hcs c' Hin.
  - by apply elem_of_nil in Hin.
  - destruct Hcs as (_ & _ & _ & Hun & Hcs).
    apply elem_of_cons in Hin as [->|Hin]; [done|]. by eapply IH.
Qed.

Lemma includes_nonempty (needle : string) (c : Ascii.ascii) (source : string) :
  includes (String c needle) source = true → 0 < String.length source.
Proof. destruct source; [done|simpl; lia]. Qed.

(** The state of the magic string at the end of the walk. *)
Lemma transform_walk_inv (numberToString : float → string) (source : string)
    (ast : Node) (ranges : list (nat * nat)) :
  includes "defineParagraph" source = true →
  (∀ arg, arg ∈ rewrite_targets ast → node_range arg ∈ ranges) →
  let s := (walk numberToString ast (new source, [])).1 in
  consecutive 0 (chunks s)
  ∧ originals (chunks s) = source
  ∧ framed ranges (chunks s)
  ∧ original s = source.
Proof.
  intros Hinc Hr s.
  destruct (walk_inv numberToString ranges ast (new source, []))
    as [(Hcs & Ho & Hf) Horig]; [done| |].
  { apply ms_inv_new. by eapply includes_nonempty. }
  fold s in Ho, Horig. repeat split; [done| |done|done]. by rewrite Ho, Horig.
Qed.

(** C6. When the source does not contain the marker name, or when its
    syntax tree has no [defineParagraph] call whose first argument is an
    object literal, the transform returns nothing or the source itself:
    the file is not modified. *)
Theorem transform_unmodified (numberToString : float → string)
    (parse : string → result Node) (sourcemap : bool) (source id : string) :
  includes "defineParagraph" source = false
  ∨ (∃ ast, parse source = Ok ast ∧ rewrite_targets ast = []) →
  returned (transform numberToString parse sourcemap source id)
  = ReturnUndefined
  ∨ returned (transform numberToString parse sourcemap source id)
    = ReturnSource source.
Proof.
  intros Hno. unfold transform.
  destruct (fileRegex_test id); [|by left]. simpl.
  destruct (includes "defineParagraph" source) eqn:Hinc; [|by left]. simpl.
  destruct Hno as [?|(ast & -> & Hnone)]; [done|].
  assert (∀ arg, arg ∈ rewrite_targets ast → node_range arg ∈ []) as Hr.
  { intros arg. rewrite Hnone. by intros ?%elem_of_nil. }
  pose proof (transform_walk_inv numberToString source ast [] Hinc Hr) as Hinv.
  destruct (walk numberToString ast (new source, [])) as [s rejections].
  simpl in Hinv. destruct Hinv as (Hcs & Ho & Hf & Horig).
  right. unfold hasChanged.
  change (toString s) with (contents (chunks s)).
  by rewrite (framed_nil_contents 0), Ho, Horig, String.eqb_refl.
Qed.

Lemma string_drop_drop (n m : nat) (s : string) :
  string_drop m (string_drop n s) = string_drop (n + m) s.
Proof.
  revert s. induction n as [|n IH]; intros s; [done|].
  destruct s as [|c s]; [by destruct m|]. apply IH.
Qed.

Lemma string_drop_length (s : string) : string_drop (String.length s) s = "".
Proof. induction s as [|c s IH]; [done|]. apply IH. Qed.

Lemma string_take_length (s : string) : string_take (String.length s) s = s.
Proof. induction s as [|c s IH]; [done|]. simpl. by rewrite IH. Qed.

(** The first overwrite of a magic string replaces exactly the range
    [start, end): the text before [start] and the text from [end] on are
    those of the source. *)
Lemma overwrite_fresh (source content : string) (start end_ : nat) :
  start < end_ → end_ ≤ String.length source →
  ∃ s, overwrite start end_ content (new source)
       = (s, None)
     ∧ toString s
       = string_take start source +:+ content +:+ string_drop end_ source.
Proof.
  intros Hlt Hle. unfold overwrite, new, split, has_boundary.
  repeat (unfold contains, split_chunk;
          cbn [original chunks existsb c_start c_end c_edited
                 c_original c_content split_containing contains
                 split_chunk edit_range blank_to_last andb orb
                 negb mbind result_bind];
          try match goal with
            | |- context [?a =? ?b] =>
                destruct (Nat.eqb_spec a b); try lia
            | |- context [?a <? ?b] =>
                destruct (Nat.ltb_spec a b); try lia
            | |- context [?a <=? ?b] =>
                destruct (Nat.leb_spec a b); try lia
            end).
  all: eexists; (split; [reflexivity|]).
  all: unfold toString; cbn; subst;
    rewrite ?Nat.sub_0_r, ?string_drop_drop, ?string_drop_length,
      ?append_nil_r; try done.
  by replace (start + (end_ - start)) with end_ by lia.
Qed.

(** ** Edits in order: the code is the splice of the source *)

Lemma has_boundary_app (index : nat) (cs1 cs2 : list Chunk) :
  has_boundary index (cs1 ++ cs2)
  = has_boundary index cs1 || has_boundary index cs2.
Proof. apply existsb_app. Qed.

Lemma before_no_boundary (pos index : nat) (cs : list Chunk) :
  before pos cs → pos < index → has_boundary index cs = false.
Proof.
  induction 1 as [|c cs [Hc1 Hc2] _ IH]; intros Hlt; [done|]. simpl.
  rewrite IH by done.
  rewrite (proj2 (Nat.eqb_neq _ _)), (proj2 (Nat.eqb_neq _ _)) by lia. done.
Qed.

Lemma split_containing_before (pos index : nat)
    (cs tail : list Chunk) :
  before pos cs → pos ≤ index →
  split_containing index (cs ++ tail)
  = tail' ← split_containing index tail; Ok (cs ++ tail').
Proof.
  induction 1 as [|c cs [Hc1 Hc2] _ IH]; intros Hle; simpl.
  { by destruct (split_containing index tail). }
  unfold contains at 1.
  rewrite (proj2 (Nat.ltb_ge index _)) by lia. rewrite andb_false_r.
  rewrite IH by done.
  by destruct (split_containing index tail).
Qed.

Lemma split_before (pos index : nat) (cs tail : list Chunk) :
  before pos cs → pos ≤ index →
  (index = pos → has_boundary index tail = true) →
  split index (cs ++ tail)
  = tail' ← split index tail; Ok (cs ++ tail').
Proof.
  intros Hcs Hle Hpos. unfold split. rewrite has_boundary_app.
  destruct (decide (index = pos)) as [Heq|Hne].
  - rewrite (Hpos Heq), orb_true_r. done.
  - rewrite (before_no_boundary pos) by (done || lia). simpl.
    destruct (has_boundary index tail); [done|].
    by apply (split_containing_before pos).
Qed.

Lemma edit_range_before (pos start end_ : nat) (content : string)
    (cs tail : list Chunk) :
  before pos cs → pos ≤ start →
  edit_range start end_ content (cs ++ tail)
  = cs ++ edit_range start end_ content tail.
Proof.
  induction 1 as [|c cs [Hc1 Hc2] _ IH]; intros Hle; [done|]. simpl.
  rewrite (proj2 (Nat.eqb_neq _ _)) by lia. by rewrite IH.
Qed.

Lemma string_take_all (n : nat) (s : string) :
  String.length s ≤ n → string_take n s = s.
Proof.
  revert n. induction s as [|c s IH]; intros [|n]; simpl; try done; try lia.
  intros ?. rewrite IH; [done|lia].
Qed.

Ltac crunch_chunks :=
  unfold split, has_boundary, gap;
  repeat (unfold contains, split_chunk;
          cbn [existsb c_start c_end
                 c_edited c_original
                 c_content split_containing
                 edit_range blank_to_last andb orb
                 negb mbind result_bind app];
          try match goal with
            | |- context [?a =? ?b] =>
                destruct (Nat.eqb_spec a b); try lia
            | |- context [?a <? ?b] =>
                destruct (Nat.ltb_spec a b); try lia
            end).

(** [overwrite] on the untouched rest of the text. *)
Lemma overwrite_rest (pos len start end_ : nat) (text content : string) :
  pos ≤ start → start < end_ → end_ ≤ len →
  len = pos + String.length text →
  ∃ cs1 cs2,
    split start [mkChunk pos len text text false]
    = Ok cs1
    ∧ split end_ cs1 = Ok cs2
    ∧ (start = pos → has_boundary start cs1 = true)
    ∧ edit_range start end_ content cs2
      = gap pos start (string_take (start - pos) text)
        ++ [mkChunk start end_
              (string_take (end_ - start) (string_drop (start - pos) text))
              content true]
        ++ gap end_ len (string_drop (end_ - pos) text).
Proof.
  intros Hlo Hlt Hhi Hlen.
  destruct (decide (start = pos)) as [->|Hstart];
    destruct (decide (end_ = len)) as [->|Hend].
  all: eexists _, _.
  all: split; [crunch_chunks; reflexivity|].
  all: split; [crunch_chunks; reflexivity|].
  all: split; [intros; crunch_chunks; done|].
  all: crunch_chunks; unfold edit;
    cbn [c_start c_end c_original];
    rewrite ?Nat.sub_diag, ?string_drop_drop; cbn [string_drop];
    repeat match goal with
      | |- context [string_drop (?a - ?b + (?c - ?a))] =>
          replace (a - b + (c - a)) with (c - b) by lia
      end;
    try done.
  all: repeat f_equal; symmetry; apply string_take_all;
    rewrite ?length_string_drop; lia.
Qed.

Lemma before_app (pos : nat) (cs1 cs2 : list Chunk) :
  before pos (cs1 ++ cs2) ↔ before pos cs1 ∧ before pos cs2.
Proof. apply Forall_app. Qed.

Lemma before_mono (pos pos' : nat) (cs : list Chunk) :
  before pos cs → pos ≤ pos' → before pos' cs.
Proof.
  intros Hcs Hle. eapply Forall_impl; [exact Hcs|].
  intros c [??]. split; [done|lia].
Qed.

Lemma contents_app (cs1 cs2 : list Chunk) :
  contents (cs1 ++ cs2) = contents cs1 +:+ contents cs2.
Proof.
  induction cs1 as [|c cs1 IH]; [done|].
  by rewrite <-app_comm_cons, !contents_cons, IH, append_assoc.
Qed.

(** An overwrite after every earlier edit: the chunks before [pos] stay,
    and the untouched rest of the source is cut at both ends of the
    range. *)
Lemma overwrite_ordered (source content : string) (pos start end_ : nat)
    (cs : list Chunk) :
  before pos cs → pos ≤ start → start < end_ → end_ ≤ String.length source →
  ∃ cs',
    overwrite start end_ content
      (mk source
         (cs ++ gap pos (String.length source) (string_drop pos source)))
    = (mk source
         (cs' ++ gap end_ (String.length source) (string_drop end_ source)),
       None)
    ∧ before end_ cs'
    ∧ contents cs'
      = contents cs
        +:+ string_take (start - pos) (string_drop pos source) +:+ content.
Proof.
  intros Hcs Hlo Hlt Hhi.
  destruct (overwrite_rest pos (String.length source) start end_
              (string_drop pos source) content)
    as (cs1 & cs2 & Hs1 & Hs2 & Hb & Hedit); try done.
  { rewrite length_string_drop. lia. }
  unfold overwrite. cbn [original chunks].
  rewrite (proj2 (Nat.ltb_ge _ _)), (proj2 (Nat.leb_gt _ _)) by lia.
  unfold gap at 1. rewrite (proj2 (Nat.ltb_lt pos _)) by lia.
  rewrite (split_before pos), Hs1; [|done|done|].
  2:{ intros ->. simpl. by rewrite Nat.eqb_refl. }
  cbn [mbind result_bind].
  rewrite (split_before pos), Hs2; [|done|lia|lia].
  cbn [mbind result_bind].
  rewrite (edit_range_before pos), Hedit by done.
  rewrite !string_drop_drop.
  replace (pos + (end_ - pos)) with end_ by lia.
  eexists (cs ++ gap pos start _ ++ [_]).
  split; [by rewrite <-!(assoc_L (++))|]. split.
  - apply before_app. split; [apply (before_mono pos); [done|lia]|].
    apply before_app. split.
    + unfold gap. destruct (Nat.ltb_spec pos start); [|constructor].
      repeat constructor; simpl; lia.
    + repeat constructor; simpl; lia.
  - rewrite !contents_app. f_equal. unfold gap.
    destruct (Nat.ltb_spec pos start) as [|Hge].
    + cbn. by rewrite !append_nil_r.
    + replace (start - pos) with 0 by lia. cbn. by rewrite !append_nil_r.
Qed.

Lemma ordered_le (pos : nat) (es : list (nat * nat * string)) (len : nat) :
  ordered pos es len → pos ≤ last_end pos es ∧ last_end pos es ≤ len.
Proof.
  revert pos. induction es as [|[[s e] t] es IH]; intros pos; simpl; [lia|].
  intros (? & ? & Hrest). destruct (IH _ Hrest). lia.
Qed.

Lemma ordered_app (pos : nat) (es1 es2 : list (nat * nat * string))
    (len : nat) :
  ordered pos (es1 ++ es2) len →
  ordered pos es1 len ∧ ordered (last_end pos es1) es2 len.
Proof.
  revert pos. induction es1 as [|[[s e] t] es1 IH]; intros pos; simpl.
  - intros H. split; [|done]. destruct (ordered_le _ _ _ H). lia.
  - intros (? & ? & Hrest). destruct (IH _ Hrest). auto.
Qed.

Lemma last_end_app (pos : nat) (es1 es2 : list (nat * nat * string)) :
  last_end pos (es1 ++ es2) = last_end (last_end pos es1) es2.
Proof.
  revert pos. induction es1 as [|[[s e] t] es1 IH]; intros pos; simpl; auto.
Qed.

Lemma splice_upto_app (source : string) (pos : nat)
    (es1 es2 : list (nat * nat * string)) :
  splice_upto source pos (es1 ++ es2)
  = splice_upto source pos es1
    +:+ splice_upto source (last_end pos es1) es2.
Proof.
  revert pos. induction es1 as [|[[s e] t] es1 IH]; intros pos; simpl.
  - done.
  - by rewrite IH, !append_assoc.
Qed.

Lemma omap_bind {A B C : Type} (f : B → option C) (g : A → list B)
    (l : list A) :
  omap f (l ≫= g) = l ≫= (λ x, omap f (g x)).
Proof.
  induction l as [|x l IH]; [done|].
  rewrite !bind_cons, omap_app. by rewrite IH.
Qed.

Section Ordered.

Variable numberToString : float → string.

Lemma enter_body_target (node arg : Node) (s : t) :
rewrite_target node = Some arg →
enter_body numberToString node s =
match replacement numberToString arg with
| Ok json =>
    overwrite (node_start arg) (node_end arg) json s
| Throw e => (s, Some e)
end.
Proof.
destruct node as [| | | | | |cs ce callee arguments|]; try done.
destruct callee as [|ks ke name| | | | | |]; try done.
destruct arguments as [|first rest]; [done|].
simpl. case_decide; [|done].
destruct (is_ObjectExpression first); [|done]. by intros [= ->].
Qed.

Lemma enter_body_no_target (node : Node) (s : t) :
rewrite_target node = None → (enter_body numberToString node s).1 = s.
Proof.
intros Hnone.
destruct (enter_body_cases numberToString node s)
  as [?|(arg & json & Harg & _)]; [done|congruence].
Qed.

Lemma edits_children (node : Node) :
edits numberToString node
= omap (edit_of numberToString) (option_list (rewrite_target node))
  ++ (children node ≫= edits numberToString).
Proof.
unfold edits. by rewrite rewrite_targets_children, omap_app, omap_bind.
Qed.

(** The walk over a tree whose edits follow one another. *)
Lemma walk_ordered (source : string) (node : Node) :
∀ (st : WalkState) (pos : nat) (cs : list Chunk),
  st.1 = mk source
           (cs ++ gap pos (String.length source) (string_drop pos source)) →
  before pos cs →
  ordered pos (edits numberToString node) (String.length source) →
  ∃ cs',
    (walk numberToString node st).1
    = mk source
        (cs' ++ gap (last_end pos (edits numberToString node))
                  (String.length source)
                  (string_drop (last_end pos (edits numberToString node))
                     source))
    ∧ before (last_end pos (edits numberToString node)) cs'
    ∧ contents cs'
      = contents cs +:+ splice_upto source pos (edits numberToString node).
Proof.
induction node as [node IH] using Node_children_ind.
intros st pos cs Hst Hcs. rewrite walk_children, edits_children.
intros [Hown Hrest]%ordered_app.
rewrite last_end_app, splice_upto_app.
set (own := omap (edit_of numberToString)
              (option_list (rewrite_target node))) in *.
assert (∃ cs1,
          (enter numberToString node st).1
          = mk source
              (cs1 ++ gap (last_end pos own) (String.length source)
                        (string_drop (last_end pos own) source))
          ∧ before (last_end pos own) cs1
          ∧ contents cs1 = contents cs +:+ splice_upto source pos own)
  as (cs1 & Hst1 & Hcs1 & Hcontents1).
{ rewrite enter_fst, Hst. subst own.
  destruct (rewrite_target node) as [arg|] eqn:Htarget.
  - rewrite (enter_body_target _ arg) by done. simpl in *.
    unfold edit_of in *.
    destruct (replacement numberToString arg) as [json|err].
    + simpl in *. destruct Hown as (Hlo & Hlt & Hhi).
      destruct (overwrite_ordered source json pos (node_start arg)
                  (node_end arg) cs) as (cs1 & Hov & Hb1 & Hc1); try done.
      exists cs1. rewrite Hov, Hc1, append_nil_r. done.
    + simpl. exists cs. by rewrite append_nil_r.
  - rewrite enter_body_no_target by done. simpl.
    exists cs. by rewrite append_nil_r. }
rewrite <-append_assoc, <-Hcontents1.
remember (enter numberToString node st) as st1 eqn:Est1.
remember (last_end pos own) as pos1 eqn:Epos1.
clear Est1 Epos1 Hst Hcs Hown Hcontents1 st own pos cs.
revert st1 pos1 cs1 Hst1 Hcs1 Hrest.
induction IH as [|child rest Hchild _ IHrest];
  intros st1 pos1 cs1 Hst1 Hcs1 Hrest.
{ simpl. exists cs1. by rewrite append_nil_r. }
rewrite bind_cons in Hrest. apply ordered_app in Hrest as [Hhead Htail].
rewrite bind_cons, last_end_app, splice_upto_app. cbn [foldl].
destruct (Hchild st1 pos1 cs1 Hst1 Hcs1 Hhead) as (cs2 & Hst2 & Hcs2 & Hc2).
destruct (IHrest _ _ cs2 Hst2 Hcs2 Htail) as (cs3 & Hst3 & Hcs3 & Hc3).
exists cs3. split; [done|]. split; [done|].
by rewrite Hc3, Hc2, append_assoc.
Qed.

End Ordered.

Lemma contents_gap (pos : nat) (source : string) :
  pos ≤ String.length source →
  contents (gap pos (String.length source) (string_drop pos source))
  = string_drop pos source.
Proof.
  intros Hle. unfold gap. destruct (Nat.ltb_spec pos (String.length source)).
  - apply append_nil_r.
  - replace pos with (String.length source) by lia.
    by rewrite string_drop_length.
Qed.

(** The code after a walk whose edits follow one another. *)
Lemma walk_splice (numberToString : float → string) (source : string)
    (ast : Node) :
  0 < String.length source →
  ordered 0 (edits numberToString ast) (String.length source) →
  toString (walk numberToString ast (new source, [])).1
  = splice source (edits numberToString ast).
Proof.
  intros Hlen Hordered.
  destruct (walk_ordered numberToString source ast
              (new source, []) 0 [])
    as (cs & -> & _ & Hcontents); [|constructor|done|].
  { unfold new, gap. by rewrite (proj2 (Nat.ltb_lt _ _)). }
  change (toString ?s) with (contents (chunks s)).
  cbn [chunks]. rewrite contents_app, Hcontents.
  rewrite contents_gap by (by apply ordered_le).
  done.
Qed.

(** C8. When the transform returns a new code, the source and the code
    decompose into the same consecutive pieces (chunks): a piece of the
    code is either the very text of the source at that place, or it stands
    for a part of the source that lies within the range [start, end) of the
    first argument of a [defineParagraph] call whose first argument is an
    object literal.  Every code unit outside these argument ranges is
    unchanged.  Moreover, when the ranges of the rewritten arguments follow
    one another in the order of the walk, the code is the source with
    exactly the range [start, end) of each rewritten argument replaced by
    the text serialized for it. *)
Theorem transform_frame (numberToString : float → string)
    (parse : string → result Node) (sourcemap : bool)
    (source id code : string) (map : bool) :
  returned (transform numberToString parse sourcemap source id)
  = ReturnCode code map →
  ∃ ast cs,
    parse source = Ok ast
    ∧ consecutive 0 cs
    ∧ originals cs = source
    ∧ contents cs = code
    ∧ (∀ c, c ∈ cs →
         c_content c = c_original c
         ∨ within (node_range <$> rewrite_targets ast) c)
    ∧ (ordered 0 (edits numberToString ast) (String.length source) →
       code = splice source (edits numberToString ast)).
Proof.
  unfold transform. destruct (fileRegex_test id); [|done]. simpl.
  destruct (includes "defineParagraph" source) eqn:Hinc; [|done]. simpl.
  destruct (parse source) as [ast|] eqn:Hparse; [|done].
  assert (∀ arg, arg ∈ rewrite_targets ast →
            node_range arg ∈ node_range <$> rewrite_targets ast) as Hr.
  { intros arg Harg. by apply list_elem_of_fmap_2. }
  pose proof (transform_walk_inv numberToString source ast _ Hinc Hr) as Hinv.
  pose proof (walk_splice numberToString source ast
                (includes_nonempty _ _ _ Hinc)) as Hsplice.
  destruct (walk numberToString ast (new source, []))
    as [s rejections].
  simpl in Hinv, Hsplice. destruct Hinv as (Hcs & Ho & Hf & _).
  destruct (hasChanged s); [|done]. simpl. intros [= <- <-].
  exists ast, (chunks s).
  split; [done|]. split; [done|]. split; [done|]. split; [done|].
  split; [|done].
  intros c Hc. destruct (c_edited c) eqn:Hedited.
  - right. unfold framed in Hf. rewrite Forall_forall in Hf. by apply Hf.
  - left. by eapply consecutive_unedited.
Qed.

(** ** The file filter *)

Lemma fileRegex_test_append (p : string) : fileRegex_test (p +:+ ".vue") = true.
Proof.
  induction p as [|c p IH]; [done|].
  rewrite append_cons. cbn [fileRegex_test]. rewrite IH. apply orb_true_r.
Qed.

Lemma fileRegex_test_spec (id : string) :
  fileRegex_test id = true ↔ ∃ p, id = p +:+ ".vue".
Proof.
  split; [|intros [p ->]; apply fileRegex_test_append].
  induction id as [|c id IH]; [done|].
  cbn [fileRegex_test]. intros [Heq|Hrest]%orb_true_iff.
  - exists "". by apply String.eqb_eq in Heq.
  - destruct (IH Hrest) as [p ->]. by exists (String c p).
Qed.

Lemma last_char_append (s1 s2 : string) :
  s2 ≠ "" → last_char (s1 +:+ s2) = last_char s2.
Proof.
  intros Hne. induction s1 as [|c s1 IH]; [done|].
  rewrite append_cons. cbn [last_char]. rewrite IH.
  destruct (s1 +:+ s2) eqn:Heq; [|done].
  destruct s1; [done|discriminate].
Qed.

(** C10. On a file whose path does not end in [.vue] the transform
    returns at once, without a result and without looking at the source,
    whatever the source contains; this holds in particular for the paths
    with the other extensions that the extraction side accepts ([.js],
    [.ts] and [.mjs] of [POSSIBLE_EXTENSIONS]). *)
Theorem transform_only_vue (numberToString : float → string)
    (parse : string → result Node) (sourcemap : bool) (source id : string) :
  (∀ p, id ≠ p +:+ ".vue") →
  transform numberToString parse sourcemap source id
  = mkOutcome ReturnUndefined []
  ∧ ∀ stem ext,
      ext ∈ POSSIBLE_EXTENSIONS → ext ≠ ".vue" →
      transform numberToString parse sourcemap source (stem +:+ ext)
      = mkOutcome ReturnUndefined [].
Proof.
  assert (∀ id', (∀ p, id' ≠ p +:+ ".vue") →
            transform numberToString parse sourcemap source id'
            = mkOutcome ReturnUndefined []) as Hskip.
  { intros id' Hid. unfold transform.
    destruct (fileRegex_test id') eqn:Htest; [|done].
    apply fileRegex_test_spec in Htest as [p ->]. by destruct (Hid p). }
  intros Hid. split; [by apply Hskip|].
  intros stem ext Hext Hvue. apply Hskip. intros p Heq.
  apply (f_equal last_char) in Heq.
  rewrite (last_char_append p ".vue") in Heq by done.
  unfold POSSIBLE_EXTENSIONS in Hext.
  repeat (apply elem_of_cons in Hext as [->|Hext];
          [try done; by rewrite last_char_append in Heq|]).
  by apply elem_of_nil in Hext.
Qed.

Lemma transform_only_vue_witness :
  transform numberToString parse false size_source "Teaser.ts"
  = mkOutcome ReturnUndefined []
  ∧ ∀ stem ext,
      ext ∈ POSSIBLE_EXTENSIONS → ext ≠ ".vue" →
      transform numberToString parse false size_source (stem +:+ ext)
      = mkOutcome ReturnUndefined [].
Proof.
  apply transform_only_vue. intros p Heq.
  assert (fileRegex_test "Teaser.ts" = true) as Htest
    by (apply fileRegex_test_spec; by exists p).
  discriminate Htest.
Defined.

Lemma transform_unmodified_witness :
  returned (transform numberToString parse true variable_source "Teaser.vue")
  = ReturnUndefined
  ∨ returned (transform numberToString parse true variable_source "Teaser.vue")
    = ReturnSource variable_source.
Proof.
  apply transform_unmodified. right. exists variable_ast. by split.
Defined.

Lemma transform_frame_witness :
  ∃ ast cs,
    parse size_source = Ok ast
    ∧ consecutive 0 cs
    ∧ originals cs = size_source
    ∧ contents cs = size_output
    ∧ (∀ c, c ∈ cs →
         c_content c = c_original c
         ∨ within (node_range <$> rewrite_targets ast) c)
    ∧ (ordered 0 (edits numberToString ast)
         (String.length size_source) →
       size_output
       = splice size_source (edits numberToString ast)).
Proof.
  apply (transform_frame numberToString parse false
           size_source "Teaser.vue" size_output false).
  reflexivity.
Defined.

(** On the example the only edit is that of the argument, and the splice
    is the text the transform returns. *)
Lemma size_example_splice :
  edits numberToString size_ast
  = [(16, 102, dq "{'options':{'size':{'default':'medium'}}}")]
  ∧ ordered 0 (edits numberToString size_ast)
      (String.length size_source)
  ∧ splice size_source
      (edits numberToString size_ast)
    = size_output.
Proof.
  split; [by vm_compute|]. split; [|by vm_compute].
  vm_compute. lia.
Qed.

Lemma estreeToObject_drops_unsupported_witness :
  estreeToObject size_argument =
  estreeToObject
    (ObjectExpression 16 102
       [Property 18 74 false (Identifier 18 25 "options") size_options]).
Proof.
  apply (estreeToObject_drops_unsupported 16 102
           [Property 18 74 false (Identifier 18 25 "options") size_options]
           [] size_globalOptions).
  reflexivity.
Defined.

(** ** Running the transform again *)

Section Rerun.

Variable numberToString : float → string.

(** C2, as amended.  An argument written by the transform is an object
    literal all of whose keys are string literals.  On such an argument
    extraction yields the empty mapping, so that a second run neither
    fails to extract, reduce or serialize it nor leaves it alone: it
    overwrites the range of the argument with the text of the empty
    object. *)
Theorem rerun_overwrites_with_empty_object
    (cs ce ks ke s e : nat) (members rest : list Node)
    (ms : t) :
  forallb string_keyed members = true →
  estreeToObject (ObjectExpression s e members) = []
  ∧ buildRuntimeDefinition (estreeToObject (ObjectExpression s e members))
    = Ok []
  ∧ JSON_stringify numberToString (JSObject []) = Ok "{}"
  ∧ enter_body numberToString
      (CallExpression cs ce (Identifier ks ke "defineParagraph")
         (ObjectExpression s e members :: rest)) ms
    = overwrite s e "{}" ms.
Proof.
  intros Hkeys. pose proof (estreeToObject_string_keyed s e _ Hkeys) as Hempty.
  split; [done|]. split; [by rewrite Hempty|]. split; [done|].
  cbn [enter_body]. rewrite decide_True by done.
  cbn [is_ObjectExpression]. by rewrite Hempty.
Qed.

End Rerun.

Lemma rerun_overwrites_with_empty_object_witness :
  estreeToObject size_output_argument = []
  ∧ buildRuntimeDefinition (estreeToObject size_output_argument) = Ok []
  ∧ JSON_stringify numberToString (JSObject []) = Ok "{}"
  ∧ enter_body numberToString
      (CallExpression 0 58 (Identifier 0 15 "defineParagraph")
         [size_output_argument]) (new size_output)
    = overwrite 16 57 "{}" (new size_output).
Proof.
  apply (rerun_overwrites_with_empty_object numberToString 0 58 0 15 16 57).
  reflexivity.
Defined.

(** C2, as stated, fails: the transform turns [size_source] into
    [size_output], and a second run on [size_output] does not leave it
    unchanged but returns another code, in which the argument is the empty
    object; only the third run returns its input. *)
Lemma rerun_changes_transformed_output :
  transform numberToString parse false size_source "Teaser.vue"
  = mkOutcome (ReturnCode size_output false) []
  ∧ transform numberToString parse false size_output "Teaser.vue"
    = mkOutcome (ReturnCode empty_output false) []
  ∧ size_output ≠ empty_output
  ∧ transform numberToString parse false empty_output "Teaser.vue"
    = mkOutcome (ReturnSource empty_output) [].
Proof. repeat split; try (by vm_compute). Qed.

(** ** The reduced definition on the examples *)

(** C1 at the example of the specification: the array literal of
    [globalOptions] is not extracted, so that the reduced value and the
    text written for it hold the option default only; the list of global
    options is lost. *)
Theorem size_example_loses_globalOptions :
  obj_get (estreeToObject size_argument) "globalOptions" = None
  ∧ buildRuntimeDefinition (estreeToObject size_argument)
    = Ok [("options",
           JSObject [("size", JSObject [("default", JSString "medium")])])]
  ∧ transform numberToString parse false size_source "Teaser.vue"
    = mkOutcome
        (ReturnCode
           (dq "defineParagraph({'options':{'size':{'default':'medium'}}})")
           false) [].
Proof. repeat split; by vm_compute. Qed.

(** C3 at options whose defaults are the empty string, zero and [false]:
    the reduced definition keeps only the option with the truthy default
    and drops [title], [columns] and [wide] although each carries a literal
    default. *)
Theorem falsy_defaults_are_dropped :
  obj_get (estreeToObject falsy_argument) "options"
  = Some (JSObject
            [("title", JSObject [("type", JSString "text");
                                 ("default", JSString "")]);
             ("columns", JSObject [("type", JSString "number");
                                   ("default", JSNumber 0%float)]);
             ("wide", JSObject [("type", JSString "checkbox");
                                ("default", JSBoolean false)]);
             ("size", JSObject [("type", JSString "radios");
                                ("default", JSString "medium")])])
  ∧ buildRuntimeDefinition (estreeToObject falsy_argument)
    = Ok [("options",
           JSObject [("size", JSObject [("default", JSString "medium")])])]
  ∧ transform numberToString parse false falsy_source "Teaser.vue"
    = mkOutcome
        (ReturnCode
           (dq "defineParagraph({'options':{'size':{'default':'medium'}}})")
           false) [].
Proof. repeat split; by vm_compute. Qed.

(** ** Chunk names and field list types *)

Lemma indexOf_first (value : string) (pre rest : list string) :
  indexOf value (pre ++ value :: rest) = Some (length pre) ↔ value ∉ pre.
Proof.
  induction pre as [|y pre IH]; simpl.
  - rewrite decide_True by done. split; [intros _ []%elem_of_nil|done].
  - rewrite not_elem_of_cons. destruct (decide (y = value)) as [->|Hne].
    + split; [done|]. by intros [? _].
    + destruct (indexOf value (pre ++ value :: rest)) as [n|]; simpl.
      * rewrite <-IH. split; [intros [= ->]; auto|].
        intros [_ [= ->]]. done.
      * rewrite <-IH. split; [done|]. by intros [_ ?].
Qed.

Lemma first_appearances_seen (seen seen' l : list string) :
  (∀ x, x ∈ seen ↔ x ∈ seen') →
  first_appearances seen l = first_appearances seen' l.
Proof.
  revert seen seen'. induction l as [|x l IH]; intros seen seen' Hseen; [done|].
  simpl. rewrite (bool_decide_ext _ _ (Hseen x)).
  destruct (bool_decide (x ∈ seen')).
  - by apply IH.
  - f_equal. apply IH. intros y. rewrite !elem_of_app, Hseen. done.
Qed.

Lemma keep_if_first (pre rest : list string) (x : string) :
  keep_if onlyUnique (pre ++ x :: rest) (length pre + 0, x)
  = if bool_decide (x ∈ pre) then None else Some x.
Proof.
  unfold keep_if, onlyUnique. cbn [fst snd]. rewrite Nat.add_0_r.
  rewrite (bool_decide_ext _ _ (indexOf_first x pre rest)).
  destruct (decide (x ∈ pre)).
  - rewrite bool_decide_eq_false_2 by tauto.
    by rewrite bool_decide_eq_true_2.
  - rewrite bool_decide_eq_true_2 by done.
    by rewrite bool_decide_eq_false_2.
Qed.

Lemma omap_cons_match {A B : Type} (f : A → option B) (x : A) (l : list A) :
  omap f (x :: l)
  = match f x with Some y => y :: omap f l | None => omap f l end.
Proof. done. Qed.

Lemma array_filter_onlyUnique_from (pre l : list string) :
  omap (keep_if onlyUnique (pre ++ l)) (imap (λ i v, (length pre + i, v)) l)
  = first_appearances pre l.
Proof.
  revert pre. induction l as [|x l IH]; intros pre; [done|].
  assert (omap (keep_if onlyUnique (pre ++ x :: l))
            (imap ((λ i v, (length pre + i, v)) ∘ S) l)
          = first_appearances (pre ++ [x]) l) as Htail.
  { rewrite <-IH, <-(assoc_L (++)). simpl. f_equal.
    apply imap_ext. intros i v _. simpl. rewrite length_app. simpl.
    f_equal. lia. }
  cbn [imap]. rewrite omap_cons_match, keep_if_first, Htail.
  cbn [first_appearances]. case_bool_decide; [|done].
  apply first_appearances_seen. intros y. rewrite elem_of_app.
  rewrite list_elem_of_singleton. split; [|by left]. by intros [?| ->].
Qed.

Lemma array_filter_onlyUnique (l : list string) :
  array_filter onlyUnique l = first_appearances [] l.
Proof. apply (array_filter_onlyUnique_from [] l). Qed.

Lemma first_appearances_elem (seen l : list string) (x : string) :
  x ∈ first_appearances seen l ↔ x ∈ l ∧ x ∉ seen.
Proof.
  revert seen. induction l as [|y l IH]; intros seen; simpl.
  - split; [by intros ?%elem_of_nil|by intros [?%elem_of_nil _]].
  - case_bool_decide as Hy.
    + rewrite IH, elem_of_cons. intuition (subst; try done; auto).
    + rewrite !elem_of_cons, IH, not_elem_of_app, list_elem_of_singleton.
      destruct (decide (x = y)); intuition (subst; try done; auto).
Qed.

Lemma first_appearances_NoDup (seen l : list string) :
  NoDup (first_appearances seen l).
Proof.
  revert seen. induction l as [|y l IH]; intros seen; simpl.
  - constructor.
  - case_bool_decide; [done|]. constructor; [|done].
    rewrite first_appearances_elem, not_elem_of_app, list_elem_of_singleton.
    intuition (subst; try done; auto).
Qed.

Lemma first_appearances_snoc (seen l : list string) (x : string) :
  first_appearances seen (l ++ [x]) =
  first_appearances seen l ++
  (if bool_decide (x ∈ seen ∨ x ∈ l) then [] else [x]).
Proof.
  revert seen. induction l as [|y l IH]; intros seen; simpl.
  - case_bool_decide as Hx.
    + rewrite bool_decide_eq_true_2 by auto. done.
    + rewrite bool_decide_eq_false_2; [done|].
      intros [?|?%elem_of_nil]; done.
  - rewrite !IH. case_bool_decide as Hy.
    + f_equal.
      assert (x ∈ seen ∨ x ∈ l ↔ x ∈ seen ∨ x ∈ y :: l) as Hiff.
      { rewrite elem_of_cons. intuition (subst; auto). }
      by rewrite (bool_decide_ext _ _ Hiff).
    + rewrite <-app_comm_cons. f_equal. f_equal.
      assert (x ∈ seen ++ [y] ∨ x ∈ l ↔ x ∈ seen ∨ x ∈ y :: l) as Hiff.
      { rewrite elem_of_app, !elem_of_cons, elem_of_nil. tauto. }
      by rewrite (bool_decide_ext _ _ Hiff).
Qed.

(** The common shape of [getChunkNames] and [getFieldListTypes]. *)
Lemma include_then_unique (name : string) (configured : list string) :
  array_filter onlyUnique
    (if negb (array_includes name configured)
     then configured ++ [name] else configured)
  = first_appearances [] (configured ++ [name]).
Proof.
  rewrite array_filter_onlyUnique, first_appearances_snoc.
  unfold array_includes. case_bool_decide; simpl.
  - rewrite bool_decide_eq_true_2 by auto. by rewrite app_nil_r.
  - rewrite first_appearances_snoc. done.
Qed.

Lemma omap_if_filter {A B : Type} (P : A → bool) (f : A → B) (l : list A) :
  omap (λ x, if P x then Some (f x) else None) l
  = f <$> filter (λ x, P x = true) l.
Proof.
  induction l as [|x l IH]; [done|].
  rewrite omap_cons_match, filter_cons, IH. destruct (P x) eqn:HP.
  - by rewrite decide_True.
  - by rewrite decide_False.
Qed.

(** C9. The effective chunk names are the configured chunk names followed
    by "global", each name kept at its first appearance only (so "global"
    is appended exactly when it is not configured); they have no
    duplicates and are the configured names and "global".  The same holds
    for the field list types with "default".  A chunk template is
    registered for each effective chunk name other than "global", in that
    order. *)
Theorem effective_names (moduleOptions : ModuleOptions) :
  let configuredChunks := default [] (chunkNames moduleOptions) in
  let configuredTypes := default [] (fieldListTypes moduleOptions) in
  getChunkNames moduleOptions
  = first_appearances [] (configuredChunks ++ ["global"])
  ∧ NoDup (getChunkNames moduleOptions)
  ∧ (∀ x, x ∈ getChunkNames moduleOptions
          ↔ x ∈ configuredChunks ∨ x = "global")
  ∧ getFieldListTypes moduleOptions
    = first_appearances [] (configuredTypes ++ ["default"])
  ∧ NoDup (getFieldListTypes moduleOptions)
  ∧ (∀ x, x ∈ getFieldListTypes moduleOptions
          ↔ x ∈ configuredTypes ∨ x = "default")
  ∧ chunk_templates moduleOptions
    = chunk_template
        <$> filter (λ chunkName, chunkName ≠ "global")
              (getChunkNames moduleOptions).
Proof.
  intros configuredChunks configuredTypes.
  assert (getChunkNames moduleOptions
          = first_appearances [] (configuredChunks ++ ["global"])) as Hc
    by apply include_then_unique.
  assert (getFieldListTypes moduleOptions
          = first_appearances [] (configuredTypes ++ ["default"])) as Ht
    by apply include_then_unique.
  split; [done|]. split; [rewrite Hc; apply first_appearances_NoDup|].
  split.
  { intros x. rewrite Hc, first_appearances_elem, elem_of_app,
      list_elem_of_singleton. split; [tauto|]. intros ?.
    split; [done|]. by intros ?%elem_of_nil. }
  split; [done|]. split; [rewrite Ht; apply first_appearances_NoDup|].
  split.
  { intros x. rewrite Ht, first_appearances_elem, elem_of_app,
      list_elem_of_singleton. split; [tauto|]. intros ?.
    split; [done|]. by intros ?%elem_of_nil. }
  unfold chunk_templates.
  rewrite (omap_if_filter (λ c, negb (String.eqb c "global")) chunk_template).
  f_equal. apply list_filter_iff. intros c.
  rewrite negb_true_iff. apply String.eqb_neq.
Qed.

(** ** Default options at runtime *)

Lemma pretty_N_go_not_underscore (x : N) (s s' : string) :
  s ≠ "_" +:+ s' → pretty_N_go x s ≠ "_" +:+ s'.
Proof.
  revert s. induction (N.lt_wf_0 x) as [x _ IH]. intros s Hs.
  destruct (decide (x = 0)%N) as [->|Hx].
  - by rewrite pretty_N_go_0.
  - rewrite pretty_N_go_step by lia. apply IH; [apply N.div_lt; lia|].
    unfold pretty_N_char. by repeat case_match.
Qed.

Lemma pretty_nat_not_proto (i : nat) : pretty i ≠ "__proto__".
Proof.
  unfold pretty, pretty_nat, pretty, pretty_N. case_decide; [done|].
  by apply (pretty_N_go_not_underscore _ "" "_proto__").
Qed.

Lemma for_in_array_elem {A : Type} (array : list A) (key : string) :
  key ∈ for_in_array array ↔ ∃ i, i < length array ∧ key = pretty i.
Proof.
  unfold for_in_array. rewrite list_elem_of_fmap. split.
  - intros (i & -> & Hi%elem_of_seq). exists i. split; [lia|done].
  - intros (i & Hi & ->). exists i. split; [done|]. apply elem_of_seq. lia.
Qed.

Section RuntimeDefaults.

Variable globalOptionsDefaults : gmap string JSValue.

Lemma global_default_lookup (m : gmap string JSValue) (key k : string) :
  key ≠ "__proto__" →
  global_default globalOptionsDefaults m key !! k =
  if decide (key = k)
  then match globalOptionsDefaults !! k with
       | Some v => Some v
       | None => m !! k
       end
  else m !! k.
Proof.
  intros Hkey. unfold global_default, set_default.
  destruct (decide (key = k)) as [<-|Hk].
  - destruct (globalOptionsDefaults !! key) as [v|]; [|done].
    rewrite decide_False by done. apply lookup_insert_eq.
  - destruct (globalOptionsDefaults !! key) as [v|]; [|done].
    rewrite decide_False by done. by apply lookup_insert_ne.
Qed.

Lemma global_defaults_lookup (keys : list string) (m : gmap string JSValue)
    (k : string) :
  Forall (λ key, key ≠ "__proto__") keys →
  foldl (global_default globalOptionsDefaults) m keys !! k =
  if decide (k ∈ keys)
  then match globalOptionsDefaults !! k with
       | Some v => Some v
       | None => m !! k
       end
  else m !! k.
Proof.
  intros Hkeys. revert m.
  induction Hkeys as [|key keys Hkey _ IH]; intros m; simpl.
  { done. }
  rewrite IH, global_default_lookup by done.
  destruct (decide (key = k)) as [->|Hne].
  - rewrite (decide_True (P := k ∈ k :: keys)) by left.
    destruct (globalOptionsDefaults !! k); by case_decide.
  - destruct (decide (k ∈ keys)) as [Hin|Hnin].
    + by rewrite decide_True by by right.
    + rewrite decide_False; [done|].
      intros [?|?]%elem_of_cons; [congruence|done].
Qed.

(** C5. The second loop of [defineParagraph] runs over the keys that
    [for ... in] enumerates on the array [globalOptions], the index
    strings "0", "1", ...: a default of [globalOptionsDefaults] stored
    under such an index is copied into the default options, and the
    value under any other key, the names of the global options included,
    is the one the paragraph's own options gave.  When
    [globalOptionsDefaults] has no entry under an index of the array, the
    default options are the paragraph's own, and the options returned are
    those computed without any global default. *)
Theorem global_defaults_looked_up_by_index
    (config : Config) (keys : list string) (own : gmap string JSValue) :
  globalOptions config = Some keys →
  option_defaults ∅ (default [] (options config)) = Ok own →
  ∃ result,
    defaultOptions globalOptionsDefaults config = Ok result
    ∧ (∀ i v, i < length keys →
         globalOptionsDefaults !! pretty i = Some v →
         result !! pretty i = Some v)
    ∧ (∀ name, (∀ i, i < length keys → name ≠ pretty i) →
         result !! name = own !! name)
    ∧ ((∀ i, i < length keys → globalOptionsDefaults !! pretty i = None) →
       result = own
       ∧ ∀ inj, defineParagraph_options globalOptionsDefaults config inj
                = defineParagraph_options ∅ config inj).
Proof.
  intros Hkeys Hown.
  assert (Forall (λ key, key ≠ "__proto__") (for_in_array keys)) as Hproto.
  { apply Forall_forall. intros key (i & _ & ->)%for_in_array_elem.
    apply pretty_nat_not_proto. }
  assert (∀ d, defaultOptions d config
               = Ok (foldl (global_default d) own (for_in_array keys)))
    as Hdefaults.
  { intros d. unfold defaultOptions. rewrite Hown, Hkeys. done. }
  eexists. split; [apply Hdefaults|]. split; [|split].
  - intros i v Hi Hv. rewrite global_defaults_lookup by done.
    rewrite decide_True by (apply for_in_array_elem; eauto).
    by rewrite Hv.
  - intros name Hname. rewrite global_defaults_lookup by done.
    rewrite decide_False; [done|].
    intros (i & Hi & ->)%for_in_array_elem. by apply (Hname i).
  - intros Hnone.
    assert (foldl (global_default globalOptionsDefaults) own
              (for_in_array keys) = own) as Hsame.
    { apply map_eq. intros k. rewrite global_defaults_lookup by done.
      case_decide as Hk; [|done].
      apply for_in_array_elem in Hk as (i & Hi & ->).
      by rewrite Hnone. }
    assert (foldl (global_default ∅) own (for_in_array keys) = own)
      as Hempty.
    { clear. induction (for_in_array keys) as [|key l IH]; [done|].
      simpl. unfold global_default at 2. by rewrite lookup_empty. }
    split; [done|]. intros inj. unfold defineParagraph_options.
    by rewrite !Hdefaults, Hsame, Hempty.
Qed.

End RuntimeDefaults.

Lemma global_defaults_looked_up_by_index_witness :
  ∃ result,
    defaultOptions theme_defaults theme_config = Ok result
    ∧ (∀ i v, i < length ["theme"] →
         theme_defaults !! pretty i = Some v →
         result !! pretty i = Some v)
    ∧ (∀ name, (∀ i, i < length ["theme"] → name ≠ pretty i) →
         result !! name = ({[ "size" := JSString "medium" ]} : gmap _ _) !! name)
    ∧ ((∀ i, i < length ["theme"] → theme_defaults !! pretty i = None) →
       result = {[ "size" := JSString "medium" ]}
       ∧ ∀ inj, defineParagraph_options theme_defaults theme_config inj
                = defineParagraph_options ∅ theme_config inj).
Proof.
  apply (global_defaults_looked_up_by_index theme_defaults theme_config
           ["theme"] {[ "size" := JSString "medium" ]}); reflexivity.
Defined.

(** ** The reduced definition in general *)

(** An option definition whose default is truthy is kept as its default
    alone. *)
Lemma runtime_option_truthy (acc : JSObj) (key : string) (o : JSObj)
    (d : JSValue) :
  obj_get o "default" = Some d → truthy d = true →
  runtime_option acc (key, JSObject o)
  = Ok (obj_assign acc key (JSObject [("default", d)])).
Proof. intros Hd Ht. unfold runtime_option. simpl. by rewrite Hd, Ht. Qed.

(** An option definition whose default is falsy (the empty string, zero,
    [false], [null]) is dropped like one without a default. *)
Lemma runtime_option_falsy (acc : JSObj) (key : string) (o : JSObj)
    (d : JSValue) :
  obj_get o "default" = Some d → truthy d = false →
  runtime_option acc (key, JSObject o) = Ok acc.
Proof. intros Hd Ht. unfold runtime_option. simpl. by rewrite Hd, Ht. Qed.

Lemma runtime_option_no_default (acc : JSObj) (key : string) (o : JSObj) :
  obj_get o "default" = None →
  runtime_option acc (key, JSObject o) = Ok acc.
Proof. intros Hd. unfold runtime_option. simpl. by rewrite Hd. Qed.

(** When [globalOptions] is only ever given by values that extraction
    drops, an array literal in particular, the reduced definition has no
    [globalOptions]. *)
Lemma globalOptions_array_not_kept (s e : nat) (members : list Node)
    (runtimeDefinition : JSObj) :
  (∀ m, m ∈ members → member_key m = Some "globalOptions" →
        unsupported_member m = true) →
  buildRuntimeDefinition (estreeToObject (ObjectExpression s e members))
  = Ok runtimeDefinition →
  obj_get runtimeDefinition "globalOptions" = None.
Proof.
  intros Hmembers. rewrite estreeToObject_members.
  unfold buildRuntimeDefinition.
  assert (obj_get (fromEntries (omap member_entry members)) "globalOptions"
          = None) as ->.
  { rewrite obj_get_fromEntries. apply last_entry_None.
    intros kv (m & Hm & Hentry)%list_elem_of_omap Hkey.
    apply member_entry_key in Hentry as Hk. rewrite Hkey in Hk.
    by rewrite (member_entry_unsupported m (Hmembers m Hm Hk)) in Hentry. }
  destruct (obj_get _ "options") as [options|]; [|by intros [= <-]].
  destruct (truthy options); [|by intros [= <-]].
  destruct (runtime_options [] (entries_of options)) as [o|]; [|done].
  by intros [= <-].
Qed.

(** The edit of an argument whose keys are all string literals, such as
    one written by an earlier run, puts the empty object in its place. *)
Lemma edit_of_string_keyed (numberToString : float → string) (s e : nat)
    (members : list Node) :
  forallb string_keyed members = true →
  edit_of numberToString (ObjectExpression s e members) = Some (s, e, "{}").
Proof.
  intros Hkeys. unfold edit_of, replacement.
  by rewrite (estreeToObject_string_keyed s e members Hkeys).
Qed.

(** ** Further examples *)

(** A computed key that is an identifier, as in [{ [size]: "medium" }], is
    read like a plain one: the entry is filed under the identifier's
    name. *)
Lemma computed_identifier_key_example :
  estreeToObject
    (ObjectExpression 0 20
       [Property 2 18 true (Identifier 3 7 "size")
          (Literal 10 18 (LitString "medium"))])
  = [("size", JSString "medium")].
Proof. by vm_compute. Qed.

(** The global option [theme] has the configured default [light], and the
    paragraph lists it in [globalOptions]; its default options hold the
    local option only. *)
Lemma theme_default_not_applied :
  defaultOptions theme_defaults theme_config
  = Ok {[ "size" := JSString "medium" ]}
  ∧ defaultOptions {[ "0" := JSString "light" ]} theme_config
    = Ok {[ "size" := JSString "medium"; "0" := JSString "light" ]}.
Proof. split; by vm_compute. Qed.

Lemma chunk_names_example :
  getChunkNames (mkModuleOptions (Some ["rare"; "global"; "rare"; "teaser"])
                   None)
  = ["rare"; "global"; "teaser"]
  ∧ getChunkNames (mkModuleOptions None None) = ["global"]
  ∧ getFieldListTypes (mkModuleOptions None (Some ["header"; "header"]))
    = ["header"; "default"]
  ∧ filename
      <$> chunk_templates
            (mkModuleOptions (Some ["rare"; "global"; "rare"; "teaser"]) None)
    = ["paragraphs-builder/chunk-rare.ts";
       "paragraphs-builder/chunk-teaser.ts"].
Proof. repeat split; by vm_compute. Qed.

(** ** [buildRuntimeDefinition]: shape, kept options, exceptions *)

Lemma elem_of_obj_replace (o : JSObj) (key : string) (v : JSValue)
    (kv : string * JSValue) :
  kv ∈ obj_replace o key v → kv = (key, v) ∨ kv ∈ o.
Proof.
  induction o as [|[k w] o IH]; simpl; [by right|].
  case_decide as Hk.
  - subst k. rewrite !elem_of_cons. intros [->|?]; auto.
  - rewrite !elem_of_cons. intros [->|?%IH]; [auto|]. intuition.
Qed.

Lemma elem_of_obj_insert_index (o : JSObj) (n : N) (key : string)
    (v : JSValue) (kv : string * JSValue) :
  kv ∈ obj_insert_index o n key v → kv = (key, v) ∨ kv ∈ o.
Proof.
  induction o as [|[k w] o IH]; simpl.
  - rewrite list_elem_of_singleton. auto.
  - destruct (array_index k) as [m|]; [destruct (m <? n)%N|];
      rewrite !elem_of_cons; intuition.
Qed.

Lemma elem_of_obj_assign (o : JSObj) (key : string) (v : JSValue)
    (kv : string * JSValue) :
  kv ∈ obj_assign o key v → kv = (key, v) ∨ kv ∈ o.
Proof.
  unfold obj_assign, obj_define. case_decide; [by right|].
  destruct (obj_get o key); [apply elem_of_obj_replace|].
  destruct (array_index key); [apply elem_of_obj_insert_index|].
  rewrite elem_of_app, list_elem_of_singleton. tauto.
Qed.

Lemma obj_get_elem_of (o : JSObj) (key : string) (v : JSValue) :
  obj_get o key = Some v → (key, v) ∈ o.
Proof.
  induction o as [|[k w] o IH]; simpl; [done|].
  case_decide; [intros [= ->]; subst; left|right; auto].
Qed.

Lemma obj_get_assign (o : JSObj) (key key' : string) (v : JSValue) :
  obj_get (obj_assign o key v) key' =
  if decide (key = key' ∧ key ≠ "__proto__") then Some v else obj_get o key'.
Proof.
  unfold obj_assign. destruct (decide (key = "__proto__")) as [Hp|Hp].
  - rewrite decide_False; [done|]. tauto.
  - rewrite obj_get_define. destruct (decide (key = key')).
    + by rewrite decide_True.
    + rewrite decide_False; [done|]. tauto.
Qed.

(** Every entry that the [forEach] loop adds is a [{ default }] with a
    truthy default. *)
Lemma runtime_options_entries (entries : list (string * JSValue))
    (acc o : JSObj) :
  runtime_options acc entries = Ok o →
  ∀ kv, kv ∈ o →
    kv ∈ acc ∨ ∃ d, kv.2 = JSObject [("default", d)] ∧ truthy d = true.
Proof.
  revert acc. induction entries as [|entry entries IH]; intros acc; simpl.
  { intros [= <-] kv ?. by left. }
  unfold runtime_option at 1.
  destruct (get_default entry.2) as [[d|]|] eqn:Hd; simpl; [|by apply IH|done].
  destruct (truthy d) eqn:Ht; [|by apply IH].
  intros Hrest kv Hkv. destruct (IH _ Hrest kv Hkv) as [Hacc|?]; [|by right].
  apply elem_of_obj_assign in Hacc as [->|?]; [|by left].
  right. by exists d.
Qed.

(** X1. Whatever the definition, a runtime definition that
    [buildRuntimeDefinition] returns has no other keys than [options] and
    [globalOptions]; its [options] is an object whose every entry is
    exactly [{ default }] with a truthy default; its [globalOptions] is the
    truthy [globalOptions] of the definition, unchanged. *)
Theorem buildRuntimeDefinition_shape (definition runtimeDefinition : JSObj) :
  buildRuntimeDefinition definition = Ok runtimeDefinition →
  (∀ kv, kv ∈ runtimeDefinition →
     kv.1 = "options" ∨ kv.1 = "globalOptions")
  ∧ (∀ options, ("options", options) ∈ runtimeDefinition →
       ∃ o, options = JSObject o
            ∧ ∀ kv, kv ∈ o →
                ∃ d, kv.2 = JSObject [("default", d)] ∧ truthy d = true)
  ∧ (∀ globalOptions, ("globalOptions", globalOptions) ∈ runtimeDefinition →
       obj_get definition "globalOptions" = Some globalOptions
       ∧ truthy globalOptions = true).
Proof.
  unfold buildRuntimeDefinition. intros Hbuild.
  assert (∃ first,
            (first = []
             ∨ ∃ o, first = [("options", JSObject o)]
                    ∧ ∀ kv, kv ∈ o →
                        ∃ d, kv.2 = JSObject [("default", d)]
                             ∧ truthy d = true)
            ∧ (runtimeDefinition = first
               ∨ ∃ g, obj_get definition "globalOptions" = Some g
                      ∧ truthy g = true
                      ∧ runtimeDefinition = first ++ [("globalOptions", g)]))
    as (first & Hfirst & Hrd).
  { destruct (obj_get definition "options") as [options|];
      [destruct (truthy options);
       [destruct (runtime_options [] (entries_of options)) as [o|] eqn:Ho;
        [|done]|]|];
      simpl in Hbuild.
    1: exists [("options", JSObject o)].
    2-3: exists [].
    all: split;
      [first [by left
             |right; exists o; split; [done|]; intros kv Hkv;
              destruct (runtime_options_entries _ _ _ Ho kv Hkv)
                as [[]%elem_of_nil|?]; done]|].
    all: destruct (obj_get definition "globalOptions") as [g|];
      [destruct (truthy g) eqn:Hg|]; injection Hbuild as <-;
      first [by left|right; by exists g]. }
  split; [|split].
  - intros kv Hkv.
    destruct Hrd as [->|(g & _ & _ & ->)];
      [|apply elem_of_app in Hkv as [Hkv| ->%list_elem_of_singleton];
        [|by right]];
      (destruct Hfirst as [->|(o & -> & _)];
       [by apply elem_of_nil in Hkv
       |apply list_elem_of_singleton in Hkv as ->; by left]).
  - intros options Hin.
    assert (("options", options) ∈ first) as Hin'.
    { destruct Hrd as [->|(g & _ & _ & ->)]; [done|].
      apply elem_of_app in Hin as [?|[=]%list_elem_of_singleton]. done. }
    destruct Hfirst as [->|(o & -> & Ho)]; [by apply elem_of_nil in Hin'|].
    apply list_elem_of_singleton in Hin' as [= ->]. by exists o.
  - intros globalOptions Hin.
    destruct Hrd as [->|(g & Hg & Ht & ->)].
    + destruct Hfirst as [->|(o & -> & _)]; [by apply elem_of_nil in Hin|].
      by apply list_elem_of_singleton in Hin as [=].
    + apply elem_of_app in Hin as [Hin|[= ->]%list_elem_of_singleton];
        [|done].
      destruct Hfirst as [->|(o & -> & _)]; [by apply elem_of_nil in Hin|].
      by apply list_elem_of_singleton in Hin as [=].
Qed.

Lemma buildRuntimeDefinition_shape_witness :
  (∀ kv,
     kv ∈ [("options",
            JSObject [("size", JSObject [("default", JSString "medium")])])] →
     kv.1 = "options" ∨ kv.1 = "globalOptions")
  ∧ (∀ options,
       ("options", options)
       ∈ [("options",
           JSObject [("size", JSObject [("default", JSString "medium")])])] →
       ∃ o, options = JSObject o
            ∧ ∀ kv, kv ∈ o →
                ∃ d, kv.2 = JSObject [("default", d)] ∧ truthy d = true)
  ∧ (∀ globalOptions,
       ("globalOptions", globalOptions)
       ∈ [("options",
           JSObject [("size", JSObject [("default", JSString "medium")])])] →
       obj_get (estreeToObject falsy_argument) "globalOptions"
       = Some globalOptions
       ∧ truthy globalOptions = true).
Proof.
  apply (buildRuntimeDefinition_shape (estreeToObject falsy_argument)).
  reflexivity.
Defined.

Lemma obj_get_not_elem (o : JSObj) (key : string) :
  key ∉ o.*1 → obj_get o key = None.
Proof.
  induction o as [|[k w] o IH]; simpl; [done|].
  rewrite not_elem_of_cons. intros [? ?]. rewrite decide_False by done. auto.
Qed.

Lemma runtime_options_lookup (entries : list (string * JSValue))
    (acc o : JSObj) (key : string) :
  NoDup entries.*1 →
  runtime_options acc entries = Ok o →
  obj_get o key =
  match kept_default entries key with
  | Some d => Some (JSObject [("default", d)])
  | None => obj_get acc key
  end.
Proof.
  revert acc. induction entries as [|[k od] entries IH]; intros acc Hnd.
  { simpl. intros [= <-]. unfold kept_default. by case_decide. }
  rewrite fmap_cons in Hnd. apply NoDup_cons in Hnd as [Hk Hnd]. simpl.
  destruct (runtime_option acc (k, od)) as [acc'|] eqn:Hstep; [|done]. simpl.
  intros Hrest. rewrite (IH _ Hnd Hrest).
  unfold kept_default. simpl.
  destruct (decide (key = "__proto__")) as [Hp|Hp].
  { unfold runtime_option in Hstep. simpl in Hstep.
    destruct (get_default od) as [[d|]|]; simpl in Hstep; [|by simplify_eq..].
    destruct (truthy d); [|by simplify_eq].
    injection Hstep as <-. rewrite obj_get_assign.
    case_decide as Hc; [|done]. destruct Hc; congruence. }
  destruct (decide (k = key)) as [->|Hne].
  - rewrite (obj_get_not_elem entries key Hk).
    unfold runtime_option in Hstep. simpl in Hstep.
    destruct od as [| | | | | |o']; simpl in Hstep; simplify_eq; try done.
    destruct (obj_get o' "default") as [d|]; [|by simplify_eq].
    destruct (truthy d); [|by simplify_eq].
    injection Hstep as <-. rewrite obj_get_assign. by rewrite decide_True.
  - assert (obj_get acc' key = obj_get acc key) as ->; [|done].
    unfold runtime_option in Hstep. simpl in Hstep.
    destruct (get_default od) as [[d|]|]; simpl in Hstep; [|by simplify_eq..].
    destruct (truthy d); [|by simplify_eq].
    injection Hstep as <-. rewrite obj_get_assign.
    rewrite decide_False; [done|]. tauto.
Qed.

Lemma obj_define_keys (o : JSObj) (key : string) (v : JSValue) :
  NoDup o.*1 → NoDup (obj_define o key v).*1.
Proof.
  unfold obj_define. destruct (obj_get o key) as [w|] eqn:Hget.
  - assert ((obj_replace o key v).*1 = o.*1) as ->; [|done].
    clear. induction o as [|[k w] o IH]; simpl; [done|].
    case_decide; simplify_eq/=; [done|]. by rewrite IH.
  - assert (key ∉ o.*1) as Hkey.
    { clear -Hget. induction o as [|[k w] o IH]; simpl in *; [set_solver|].
      case_decide; [done|]. rewrite not_elem_of_cons. auto. }
    intros Hnd. destruct (array_index key) as [n|].
    + clear Hget. induction o as [|[k w] o IH]; simpl.
      { apply NoDup_singleton. }
      rewrite fmap_cons in Hnd, Hkey. simpl in Hnd, Hkey.
      apply NoDup_cons in Hnd as [Hk Hnd].
      apply not_elem_of_cons in Hkey as [Hne Hkey].
      assert (NoDup (key :: k :: o.*1)) as Hall.
      { apply NoDup_cons. split; [|by apply NoDup_cons].
        rewrite not_elem_of_cons. done. }
      destruct (array_index k) as [m|]; [destruct (m <? n)%N|]; simpl;
        try done.
      apply NoDup_cons. split; [|by apply IH].
      intros ((k' & w') & Heq & [[= -> ->]|Hin]%elem_of_obj_insert_index)
        %list_elem_of_fmap; simpl in *; [done|].
      apply Hk. subst k. by apply (list_elem_of_fmap_2 fst) in Hin.
    + rewrite fmap_app. simpl. apply NoDup_app. split; [done|].
      split; [|apply NoDup_singleton].
      intros k Hk ->%list_elem_of_singleton. done.
Qed.

Lemma fromEntries_keys (entries : list (string * JSValue)) :
  NoDup (fromEntries entries).*1.
Proof.
  unfold fromEntries. generalize (NoDup_nil_2 (A:=string)).
  change (@nil string) with (([] : JSObj).*1).
  generalize ([] : JSObj).
  induction entries as [|kv entries IH]; intros o Ho; simpl; [done|].
  by apply IH, obj_define_keys.
Qed.

(** An object that [estreeToObject] returns has each key once. *)
Lemma estreeToObject_keys (expression : Node) :
  NoDup (estreeToObject expression).*1.
Proof.
  destruct expression; try apply NoDup_nil_2.
  rewrite estreeToObject_members. apply fromEntries_keys.
Qed.

(** An object within an extracted object is itself an extracted object. *)
Lemma estreeToObject_nested (expression : Node) (key : string) (o : JSObj) :
  obj_get (estreeToObject expression) key = Some (JSObject o) →
  ∃ value, o = estreeToObject value.
Proof.
  destruct expression as [| |s e members| | | | |]; try done.
  rewrite estreeToObject_members, obj_get_fromEntries.
  intros Hin%last_entry_Some.
  apply list_elem_of_omap in Hin as (member & _ & Hentry).
  apply member_entry_inv in Hentry
    as (? & ? & ? & ? & ? & value & _ & Hs & Hv).
  destruct value as [? ? lit| |start end_ ps| | | | |]; try done.
  - by destruct lit.
  - exists (ObjectExpression start end_ ps). by injection Hv.
Qed.

(** X2. The options that survive the reduction of an extracted definition:
    when the [options] of the definition read from the call's argument is
    an object and [buildRuntimeDefinition] returns, the returned definition
    has an [options] object that holds, for every key, [{ default }] with
    the truthy default of that key's option definition and nothing for any
    other key: not for an option without a default, not for one whose
    default is falsy, not for [__proto__]. *)
Theorem buildRuntimeDefinition_kept_options (argument : Node)
    (options runtimeDefinition : JSObj) :
  obj_get (estreeToObject argument) "options" = Some (JSObject options) →
  buildRuntimeDefinition (estreeToObject argument) = Ok runtimeDefinition →
  ∃ runtimeOptions,
    obj_get runtimeDefinition "options" = Some (JSObject runtimeOptions)
    ∧ ∀ key,
        obj_get runtimeOptions key =
        (λ d, JSObject [("default", d)]) <$> kept_default options key.
Proof.
  intros Hoptions. unfold buildRuntimeDefinition. rewrite Hoptions. simpl.
  destruct (runtime_options [] options) as [ro|] eqn:Hro; [|done]. simpl.
  intros Hrd. exists ro. split.
  - destruct (obj_get (estreeToObject argument) "globalOptions") as [g|];
      [destruct (truthy g)|]; injection Hrd as <-; done.
  - intros key.
    destruct (estreeToObject_nested _ _ _ Hoptions) as [value ->].
    rewrite (runtime_options_lookup _ _ _ key (estreeToObject_keys value) Hro).
    by destruct (kept_default (estreeToObject value) key).
Qed.

Lemma buildRuntimeDefinition_kept_options_witness :
  ∃ runtimeOptions,
    obj_get
      [("options",
        JSObject [("size", JSObject [("default", JSString "medium")])])]
      "options"
    = Some (JSObject runtimeOptions)
    ∧ ∀ key,
        obj_get runtimeOptions key =
        (λ d, JSObject [("default", d)])
        <$> kept_default
              [("title", JSObject [("type", JSString "text");
                                   ("default", JSString "")]);
               ("columns", JSObject [("type", JSString "number");
                                     ("default", JSNumber 0%float)]);
               ("wide", JSObject [("type", JSString "checkbox");
                                  ("default", JSBoolean false)]);
               ("size", JSObject [("type", JSString "radios");
                                  ("default", JSString "medium")])]
              key.
Proof.
  apply (buildRuntimeDefinition_kept_options falsy_argument); reflexivity.
Defined.

Lemma runtime_options_throws (entries : list (string * JSValue)) (acc : JSObj)
    (e : Exception) :
  runtime_options acc entries = Throw e ↔
  e = TypeError ∧ ∃ key, (key, JSNull) ∈ entries.
Proof.
  revert acc. induction entries as [|[k od] entries IH]; intros acc; simpl.
  { split; [done|]. intros [_ [key []%elem_of_nil]]. }
  unfold runtime_option at 1. simpl.
  assert (od ≠ JSNull →
          ∀ acc', runtime_options acc' entries = Throw e ↔
                  e = TypeError ∧ ∃ key, (key, JSNull) ∈ (k, od) :: entries)
    as Hrest.
  { intros Hod acc'. rewrite IH.
    split; intros [-> [key Hin]]; (split; [done|]); exists key.
    - by right.
    - apply elem_of_cons in Hin as [[= ? ?]|?]; [congruence|done]. }
  destruct od as [| | | | | |o]; simpl; try by apply Hrest.
  - split; [|by intros [-> _]]. intros [= <-]. split; [done|].
    exists k. by left.
  - destruct (obj_get o "default") as [d|]; simpl; [|by apply Hrest].
    destruct (truthy d); by apply Hrest.
Qed.

(** X3. [buildRuntimeDefinition] throws exactly when the [options] of the
    definition is an object one of whose option definitions is [null], and
    what it throws then is a TypeError (from reading [default] of [null]).
    On every other definition it returns. *)
Theorem buildRuntimeDefinition_throws (definition : JSObj) (e : Exception) :
  buildRuntimeDefinition definition = Throw e ↔
  e = TypeError
  ∧ ∃ options key,
      obj_get definition "options" = Some (JSObject options)
      ∧ (key, JSNull) ∈ options.
Proof.
  unfold buildRuntimeDefinition.
  assert (∀ (r : JSObj),
            match obj_get definition "globalOptions" with
            | Some globalOptions =>
                if truthy globalOptions
                then Ok (obj_assign r "globalOptions" globalOptions)
                else Ok r
            | None => Ok r
            end ≠ Throw e) as Hglobal.
  { intros r. destruct (obj_get definition "globalOptions") as [g|];
      [destruct (truthy g)|]; done. }
  destruct (obj_get definition "options") as [options|] eqn:Hoptions; simpl.
  2: { split; [by intros ?%Hglobal|]. by intros (_ & ? & ? & ? & _). }
  destruct (truthy options) eqn:Ht; simpl.
  2: { split; [by intros ?%Hglobal|].
       intros (_ & ? & ? & [= ->] & _). done. }
  destruct (runtime_options [] (entries_of options)) as [o|e'] eqn:Ho; simpl.
  - split; [by intros ?%Hglobal|].
    intros (-> & o' & key & [= ->] & Hin).
    assert (runtime_options [] o' = Throw TypeError) as Hthrow.
    { apply runtime_options_throws. eauto. }
    simpl in Ho. congruence.
  - apply runtime_options_throws in Ho as [-> [key Hin]].
    split.
    + intros [= <-]. split; [done|].
      destruct options as [|s| | | | |o']; simpl in Hin;
        try by apply elem_of_nil in Hin.
      * apply list_elem_of_lookup in Hin as [i Hi].
        rewrite list_lookup_imap in Hi.
        destruct (string_chars s !! i); done.
      * by exists o', key.
    + by intros [-> _].
Qed.

Lemma buildRuntimeDefinition_throws_witness :
  buildRuntimeDefinition
    [("options", JSObject [("size", JSNull)])] = Throw TypeError.
Proof.
  apply buildRuntimeDefinition_throws. split; [done|].
  exists [("size", JSNull)], "size". split; [done|]. by left.
Defined.

(** ** The transform: exceptions and rejections *)

(** X4. The transform throws only what the parser throws: it throws [e]
    exactly when the file name ends in [.vue], the source contains
    [defineParagraph] and parsing the source throws [e].  An exception
    inside the visitor never makes the transform throw. *)
Theorem transform_throws (numberToString : float → string)
    (parse : string → result Node) (sourcemap : bool) (source id : string)
    (e : Exception) :
  returned (transform numberToString parse sourcemap source id) = Throws e ↔
  fileRegex_test id = true
  ∧ includes "defineParagraph" source = true
  ∧ parse source = Throw e.
Proof.
  unfold transform.
  destruct (fileRegex_test id); simpl; [|by split; [|intros (? & _)]].
  destruct (includes "defineParagraph" source); simpl;
    [|by split; [|intros (_ & ? & _)]].
  destruct (parse source) as [ast|e']; simpl.
  - destruct (walk _ _ _) as [s rejections].
    destruct (hasChanged s); simpl; by split; [|intros (_ & _ & ?)].
  - split; [by intros [= ->]|by intros (_ & _ & [= ->])].
Qed.

Lemma transform_throws_witness :
  returned
    (transform numberToString (λ _, Throw SyntaxError) false
       "defineParagraph({" "Teaser.vue")
  = Throws SyntaxError.
Proof. apply transform_throws. by vm_compute. Defined.

Lemma JSON_stringify_TypeError (numberToString : float → string) :
  ∀ (v : JSValue) (e : Exception),
    JSON_stringify numberToString v = Throw e → e = TypeError.
Proof.
  fix IH 1. intros [s|n|b| |p f|z|entries] e; simpl; try done.
  - by intros [= <-].
  - match goal with |- context [?f entries] => set (members := f) end.
    assert (∀ es, Forall (λ kv, ∀ e, JSON_stringify numberToString kv.2
                                      = Throw e → e = TypeError) es →
              ∀ e, members es = Throw e → e = TypeError) as Hmembers.
    { clear. induction 1 as [|[k w] es Hw _ IHes]; intros e; simpl; [done|].
      destruct (JSON_stringify numberToString w) as [m|e1] eqn:Hm; simpl.
      - destruct (members es) as [ms|e2] eqn:Hms; simpl; [done|].
        intros [= <-]. by apply IHes.
      - intros [= <-]. by apply Hw. }
    destruct (members entries) as [ms|e'] eqn:Hms; simpl; [done|].
    intros [= <-]. apply (Hmembers entries); [|done].
    clear -IH. induction entries as [|[k w] entries IHentries];
      constructor; [apply IH|apply IHentries].
Qed.

Lemma buildRuntimeDefinition_TypeError (definition : JSObj) (e : Exception) :
  buildRuntimeDefinition definition = Throw e → e = TypeError.
Proof.
  unfold buildRuntimeDefinition.
  destruct (obj_get definition "options") as [options|]; simpl.
  - destruct (truthy options); simpl.
    + destruct (runtime_options [] (entries_of options)) as [o|e'] eqn:Ho;
        simpl.
      * destruct (obj_get definition "globalOptions") as [g|];
          [destruct (truthy g)|]; done.
      * apply runtime_options_throws in Ho as [-> _]. by intros [= <-].
    + destruct (obj_get definition "globalOptions") as [g|];
        [destruct (truthy g)|]; done.
  - destruct (obj_get definition "globalOptions") as [g|];
      [destruct (truthy g)|]; done.
Qed.

Lemma replacement_TypeError (numberToString : float → string) (arg : Node)
    (e : Exception) :
  replacement numberToString arg = Throw e → e = TypeError.
Proof.
  unfold replacement.
  destruct (buildRuntimeDefinition (estreeToObject arg)) as [rd|e'] eqn:Hrd.
  - apply JSON_stringify_TypeError.
  - intros [= <-]. by apply buildRuntimeDefinition_TypeError in Hrd.
Qed.

Lemma call_error_TypeError (numberToString : float → string) (node : Node)
    (e : Exception) :
  call_error numberToString node = Some e → e = TypeError.
Proof.
  destruct node as [| | | | | |cs ce callee arguments|]; try done.
  destruct callee as [|ks ke name| | | | | |]; try done.
  simpl. case_decide; [|done].
  destruct arguments as [|arg rest]; [by intros [= <-]|].
  destruct (is_ObjectExpression arg); [|done].
  destruct (replacement numberToString arg) as [json|e'] eqn:Hr; [done|].
  intros [= <-]. by apply replacement_TypeError in Hr.
Qed.

Lemma call_errors_children (numberToString : float → string) (node : Node) :
  call_errors numberToString node =
  option_list (call_error numberToString node)
  ++ (children node ≫= call_errors numberToString).
Proof.
  destruct node; try done; cbn [call_errors children]; f_equal; simpl;
    by rewrite ?app_nil_r.
Qed.

Lemma call_errors_TypeError (numberToString : float → string) (node : Node) :
  Forall (λ e, e = TypeError) (call_errors numberToString node).
Proof.
  induction node as [node IH] using Node_children_ind.
  rewrite call_errors_children. apply Forall_app. split.
  - destruct (call_error numberToString node) as [e|] eqn:He; simpl;
      [|constructor].
    constructor; [|constructor]. by apply call_error_TypeError in He.
  - induction IH as [|child rest Hchild _ IHrest]; [constructor|].
    rewrite bind_cons. apply Forall_app. done.
Qed.

(** What the body of [enter] raises, by the argument to rewrite. *)
Lemma enter_body_snd (numberToString : float → string) (node : Node)
    (s : t) :
  (enter_body numberToString node s).2 =
  match rewrite_target node with
  | Some arg =>
      match replacement numberToString arg with
      | Ok json => (overwrite (node_start arg) (node_end arg) json s).2
      | Throw e => Some e
      end
  | None => call_error numberToString node
  end.
Proof.
  destruct node as [| | | | | |cs ce callee arguments|]; try done.
  destruct callee as [|ks ke name| | | | | |]; try done.
  destruct arguments as [|arg rest]; simpl; (case_decide; [|done]); [done|].
  destruct (is_ObjectExpression arg); [|done].
  unfold replacement. by destruct (_ ≫= _).
Qed.

Lemma call_error_target (numberToString : float → string) (node arg : Node) :
  rewrite_target node = Some arg →
  call_error numberToString node =
  match replacement numberToString arg with
  | Ok _ => None
  | Throw e => Some e
  end.
Proof.
  destruct node as [| | | | | |cs ce callee arguments|]; try done.
  destruct callee as [|ks ke name| | | | | |]; try done.
  destruct arguments as [|first rest]; [done|].
  simpl. case_decide; [|done].
  destruct (is_ObjectExpression first); [|done]. by intros [= ->].
Qed.

Lemma enter_snd (numberToString : float → string) (node : Node)
    (st : WalkState) :
  (enter numberToString node st).2 =
  st.2 ++ option_list (enter_body numberToString node st.1).2.
Proof.
  unfold enter. destruct (enter_body _ _ _) as [s [e|]]; simpl; [done|].
  by rewrite app_nil_r.
Qed.

(** The rejections of a walk whose edits follow one another: no
    [overwrite] fails, and what is left are the exceptions of the calls. *)
Lemma walk_rejections (numberToString : float → string) (source : string)
    (node : Node) :
  ∀ (st : WalkState) (pos : nat) (cs : list Chunk),
    st.1 = mk source
             (cs ++ gap pos (String.length source) (string_drop pos source)) →
    before pos cs →
    ordered pos (edits numberToString node) (String.length source) →
    (walk numberToString node st).2
    = st.2 ++ call_errors numberToString node.
Proof.
  induction node as [node IH] using Node_children_ind.
  intros st pos cs Hst Hcs.
  rewrite walk_children, edits_children, call_errors_children.
  intros [Hown Hrest]%ordered_app.
  set (own := omap (edit_of numberToString)
                (option_list (rewrite_target node))) in *.
  assert (∃ cs1,
            (enter numberToString node st).1
            = mk source
                (cs1 ++ gap (last_end pos own) (String.length source)
                          (string_drop (last_end pos own) source))
            ∧ before (last_end pos own) cs1
            ∧ (enter numberToString node st).2
              = st.2 ++ option_list (call_error numberToString node))
    as (cs1 & Hst1 & Hcs1 & Hrej1).
  { rewrite enter_fst, enter_snd, enter_body_snd, Hst. subst own.
    destruct (rewrite_target node) as [arg|] eqn:Htarget.
    - rewrite (enter_body_target _ _ arg) by done.
      rewrite (call_error_target _ _ arg) by done. simpl in *.
      unfold edit_of in *.
      destruct (replacement numberToString arg) as [json|err].
      + simpl in *. destruct Hown as (Hlo & Hlt & Hhi).
        destruct (overwrite_ordered source json pos (node_start arg)
                    (node_end arg) cs) as (cs1 & Hov & Hb1 & Hc1); try done.
        exists cs1. by rewrite Hov.
      + simpl. by exists cs.
    - rewrite enter_body_no_target by done. simpl. by exists cs. }
  rewrite (assoc_L (++)), <-Hrej1.
  remember (enter numberToString node st) as st1 eqn:Est1.
  remember (last_end pos own) as pos1 eqn:Epos1.
  clear Est1 Epos1 Hst Hcs Hown Hrej1 st own pos cs.
  revert st1 pos1 cs1 Hst1 Hcs1 Hrest.
  induction IH as [|child rest Hchild _ IHrest];
    intros st1 pos1 cs1 Hst1 Hcs1 Hrest.
  { simpl. by rewrite app_nil_r. }
  rewrite bind_cons in Hrest. apply ordered_app in Hrest as [Hhead Htail].
  rewrite bind_cons. cbn [foldl].
  destruct (walk_ordered numberToString source child st1 pos1 cs1
              Hst1 Hcs1 Hhead) as (cs2 & Hst2 & Hcs2 & _).
  rewrite (IHrest _ _ cs2 Hst2 Hcs2 Htail).
  rewrite (Hchild st1 pos1 cs1 Hst1 Hcs1 Hhead).
  by rewrite (assoc_L (++)).
Qed.

(** X5. The unhandled rejections of a transform.  On a [.vue] file that
    contains [defineParagraph] and parses, when the ranges of the arguments
    to rewrite follow one another, the visitor's rejected promises are
    exactly, in the order of the walk, one TypeError for every call
    [defineParagraph()] without arguments and one for every object literal
    argument that cannot be reduced (an option definition that is [null])
    or serialized; no [overwrite] fails. *)
Theorem transform_rejections (numberToString : float → string)
    (parse : string → result Node) (sourcemap : bool) (source id : string)
    (ast : Node) :
  fileRegex_test id = true →
  includes "defineParagraph" source = true →
  parse source = Ok ast →
  ordered 0 (edits numberToString ast) (String.length source) →
  rejected (transform numberToString parse sourcemap source id)
  = call_errors numberToString ast
  ∧ Forall (λ e, e = TypeError) (call_errors numberToString ast).
Proof.
  intros Hid Hinc Hparse Hordered. split; [|apply call_errors_TypeError].
  unfold transform. rewrite Hid, Hinc, Hparse. simpl.
  pose proof (walk_rejections numberToString source ast (new source, []) 0 [])
    as Hrej.
  destruct (walk numberToString ast (new source, [])) as [s rejections].
  simpl in Hrej. destruct (hasChanged s); simpl; apply Hrej; try done.
  all: try constructor.
  all: unfold new, gap;
    by rewrite (proj2 (Nat.ltb_lt _ _)) by (by eapply includes_nonempty).
Qed.

Lemma transform_rejections_witness :
  rejected
    (transform numberToString (λ _, Ok rejecting_ast) false rejecting_source
       "Teaser.vue")
  = [TypeError; TypeError]
  ∧ Forall (λ e, e = TypeError) [TypeError; TypeError].
Proof.
  apply (transform_rejections numberToString (λ _, Ok rejecting_ast) false
           rejecting_source "Teaser.vue" rejecting_ast);
    try reflexivity.
  vm_compute. lia.
Defined.

(** ** The templates of [setup] *)

Lemma append_inj_r (s1 s2 t : string) : s1 +:+ t = s2 +:+ t → s1 = s2.
Proof.
  revert s2. induction s1 as [|c s1 IH]; intros [|c2 s2] Heq; [done|..].
  - apply (f_equal String.length) in Heq.
    rewrite !length_append in Heq. simpl in Heq. lia.
  - apply (f_equal String.length) in Heq.
    rewrite !length_append in Heq. simpl in Heq. lia.
  - rewrite !append_cons in Heq. injection Heq as -> Heq.
    f_equal. by apply IH.
Qed.

Lemma chunk_template_filename_inj (c1 c2 : string) :
  filename (chunk_template c1) = filename (chunk_template c2) → c1 = c2.
Proof.
  unfold chunk_template. cbn [filename].
  intros Heq%(inj (String.app _)). by apply append_inj_r in Heq.
Qed.

Lemma chunk_template_alias_inj (c1 c2 : string) :
  alias (chunk_template c1) = alias (chunk_template c2) → c1 = c2.
Proof. unfold chunk_template. cbn [alias]. apply (inj (String.app _)). Qed.

Lemma chunk_templates_filter (moduleOptions : ModuleOptions) :
  chunk_templates moduleOptions
  = chunk_template
      <$> filter (λ chunkName, chunkName ≠ "global")
            (getChunkNames moduleOptions).
Proof.
  unfold chunk_templates.
  rewrite (omap_if_filter (λ c, negb (String.eqb c "global")) chunk_template).
  f_equal. apply list_filter_iff. intros c.
  rewrite negb_true_iff. apply String.eqb_neq.
Qed.

Lemma getChunkNames_NoDup (moduleOptions : ModuleOptions) :
  NoDup (getChunkNames moduleOptions).
Proof.
  unfold getChunkNames. rewrite include_then_unique.
  apply first_appearances_NoDup.
Qed.

Lemma chunk_templates_NoDup (moduleOptions : ModuleOptions)
    (f : Template → string) :
  (∀ c1 c2, f (chunk_template c1) = f (chunk_template c2) → c1 = c2) →
  NoDup (f <$> chunk_templates moduleOptions).
Proof.
  intros Hinj. rewrite chunk_templates_filter, <-list_fmap_compose.
  apply NoDup_fmap_2_strong.
  - intros c1 c2 _ _. apply Hinj.
  - apply NoDup_filter, getChunkNames_NoDup.
Qed.

Lemma setup_templates_fmap (moduleOptions : ModuleOptions)
    (f : Template → string) :
  (λ r, f (template r)) <$> setup_templates moduleOptions
  = [f (template templateStyles); f (template templateDefinitions);
     f (template templateGeneratedTypes);
     f (template templateDefaultGlobalOptions)]
    ++ (f <$> chunk_templates moduleOptions)
    ++ [f (template templateImports)].
Proof.
  unfold setup_templates. rewrite !fmap_app, <-list_fmap_compose. done.
Qed.

Lemma NoDup_around (fixed lasts l : list string) :
  NoDup (fixed ++ lasts) →
  (∀ x, x ∈ l → x ∉ fixed ++ lasts) →
  NoDup l →
  NoDup (fixed ++ l ++ lasts).
Proof.
  rewrite !NoDup_app. intros (Hfixed & Hsep & Hlast) Hl Hnd.
  split; [done|]. split.
  - intros x Hx [Hin|Hin]%elem_of_app.
    + apply (Hl x Hin). apply elem_of_app. by left.
    + by apply (Hsep x Hx).
  - split; [done|]. split; [|done].
    intros x Hx Hin. apply (Hl x Hx). apply elem_of_app. by right.
Qed.

(** X6. Whatever chunk names are configured, no two templates that [setup]
    registers have the same file name, and no two of the aliases that it
    sets have the same key: no chunk template takes the place of another
    or of one of the fixed templates. *)
Theorem setup_templates_distinct (moduleOptions : ModuleOptions) :
  NoDup ((λ r, filename (template r)) <$> setup_templates moduleOptions)
  ∧ NoDup (setup_aliases moduleOptions).
Proof.
  split.
  - rewrite (setup_templates_fmap _ filename).
    apply NoDup_around.
    + by apply (bool_decide_unpack _); vm_compute.
    + intros name (t & -> & Ht)%list_elem_of_fmap.
      rewrite chunk_templates_filter in Ht.
      apply list_elem_of_fmap in Ht as (c & -> & _).
      rewrite !elem_of_app, !elem_of_cons, !elem_of_nil.
      unfold chunk_template. intros Hin.
      repeat match type of Hin with _ ∨ _ => destruct Hin as [Hin|Hin] end;
        first [done|cbv in Hin; discriminate Hin].
    + by apply chunk_templates_NoDup, chunk_template_filename_inj.
  - unfold setup_aliases. rewrite (setup_templates_fmap _ alias).
    rewrite <-!(assoc_L (++)).
    apply NoDup_around.
    + by apply (bool_decide_unpack _); vm_compute.
    + intros name (t & -> & Ht)%list_elem_of_fmap.
      rewrite chunk_templates_filter in Ht.
      apply list_elem_of_fmap in Ht as (c & -> & _).
      rewrite !elem_of_app, !elem_of_cons, !elem_of_nil.
      unfold chunk_template. intros Hin.
      repeat match type of Hin with _ ∨ _ => destruct Hin as [Hin|Hin] end;
        first [done|cbv in Hin; discriminate Hin].
    + by apply chunk_templates_NoDup, chunk_template_alias_inj.
Qed.

(** ** Chunk names as a normal form, and the watcher *)

Lemma first_appearances_NoDup_id (seen l : list string) :
  NoDup l → (∀ x, x ∈ l → x ∉ seen) → first_appearances seen l = l.
Proof.
  intros Hnd. revert seen.
  induction Hnd as [|x l Hx Hnd IH]; intros seen Hseen; simpl; [done|].
  rewrite bool_decide_eq_false_2 by (apply Hseen; by left).
  f_equal. apply IH. intros y Hy.
  rewrite not_elem_of_app, list_elem_of_singleton. split.
  - apply Hseen. by right.
  - intros ->. done.
Qed.

Lemma include_then_unique_fixed (name : string) (l : list string) :
  NoDup l → name ∈ l → first_appearances [] (l ++ [name]) = l.
Proof.
  intros Hnd Hin. rewrite first_appearances_snoc.
  rewrite bool_decide_eq_true_2 by auto. rewrite app_nil_r.
  apply first_appearances_NoDup_id; [done|]. intros x _. apply not_elem_of_nil.
Qed.

(** X7. The effective names are a normal form: configuring the module with
    the chunk names (the field list types) that it computed gives the same
    names again, in the same order. *)
Theorem effective_names_idempotent (moduleOptions : ModuleOptions) :
  getChunkNames
    (mkModuleOptions (Some (getChunkNames moduleOptions))
       (Some (getFieldListTypes moduleOptions)))
  = getChunkNames moduleOptions
  ∧ getFieldListTypes
      (mkModuleOptions (Some (getChunkNames moduleOptions))
         (Some (getFieldListTypes moduleOptions)))
    = getFieldListTypes moduleOptions.
Proof.
  split.
  - unfold getChunkNames at 1. cbn [chunkNames default].
    rewrite include_then_unique. apply include_then_unique_fixed.
    + apply getChunkNames_NoDup.
    + unfold getChunkNames. rewrite include_then_unique.
      apply first_appearances_elem. split; [|apply not_elem_of_nil].
      apply elem_of_app. right. by left.
  - unfold getFieldListTypes at 1. cbn [fieldListTypes default].
    rewrite include_then_unique. apply include_then_unique_fixed.
    + unfold getFieldListTypes. rewrite include_then_unique.
      apply first_appearances_NoDup.
    + unfold getFieldListTypes. rewrite include_then_unique.
      apply first_appearances_elem. split; [|apply not_elem_of_nil].
      apply elem_of_app. right. by left.
Qed.

Lemma find_eq_Some (files : list string) (filePath p : string) :
  List.find (λ v, bool_decide (v = filePath)) files = Some p ↔
  p = filePath ∧ filePath ∈ files.
Proof.
  induction files as [|f files IH]; simpl.
  - split; [done|]. by intros [_ ?%elem_of_nil].
  - case_bool_decide as Hf.
    + subst f. split; [intros [= <-]; split; [done|by left]|].
      by intros [-> _].
    + rewrite IH, elem_of_cons. split; [tauto|].
      intros [-> [?|?]]; [congruence|done].
Qed.

Lemma filter_builder_chunks (l : list Template) :
  List.filter paragraphsBuilder ((λ t, mkRegistered t true false) <$> l)
  = (λ t, mkRegistered t true false) <$> l.
Proof.
  induction l as [|t l IH]; [done|].
  rewrite fmap_cons. cbn [List.filter paragraphsBuilder]. by rewrite IH.
Qed.

Lemma filter_style_chunks (l : list Template) :
  List.filter paragraphsBuilderStyle ((λ t, mkRegistered t true false) <$> l)
  = [].
Proof.
  induction l as [|t l IH]; [done|].
  rewrite fmap_cons. cbn [List.filter paragraphsBuilderStyle]. by rewrite IH.
Qed.

Lemma filter_builder (moduleOptions : ModuleOptions) :
  List.filter paragraphsBuilder (setup_templates moduleOptions)
  = [templateDefinitions; templateGeneratedTypes;
     templateDefaultGlobalOptions]
    ++ ((λ t, mkRegistered t true false) <$> chunk_templates moduleOptions)
    ++ [templateImports].
Proof.
  unfold setup_templates.
  by rewrite !List.filter_app, filter_builder_chunks.
Qed.

Lemma filter_style (moduleOptions : ModuleOptions) :
  List.filter paragraphsBuilderStyle (setup_templates moduleOptions)
  = [templateStyles].
Proof.
  unfold setup_templates.
  by rewrite !List.filter_app, filter_style_chunks.
Qed.

(** X8. What a watch event regenerates.  The update after a style change
    generates [edit.css] again and nothing else; the update after a change
    of a definition generates again every template that [setup] registered
    except [edit.css]: the three fixed ones, the chunk file of every
    effective chunk name but "global", and the imports. *)
Theorem watch_regenerates (moduleOptions : ModuleOptions) :
  updateTemplates moduleOptions paragraphsBuilderStyle
  = UpdateTemplates ["paragraphs-builder/edit.css"]
  ∧ updateTemplates moduleOptions paragraphsBuilder
    = UpdateTemplates
        (["paragraphs-builder/definitions.ts";
          "paragraphs-builder/generated-types.ts";
          "paragraphs-builder/default-global-options.ts"]
         ++ ((λ chunkName, "paragraphs-builder/chunk-" +:+ chunkName +:+ ".ts")
             <$> filter (λ chunkName, chunkName ≠ "global")
                   (getChunkNames moduleOptions))
         ++ ["paragraphs-builder/imports.ts"])
  ∧ ∀ name,
      name ∈ (λ r, filename (template r)) <$> setup_templates moduleOptions →
      name ≠ "paragraphs-builder/edit.css" →
      ∃ names,
        updateTemplates moduleOptions paragraphsBuilder
        = UpdateTemplates names
        ∧ name ∈ names.
Proof.
  unfold updateTemplates. rewrite filter_style, filter_builder.
  split; [done|]. split.
  - rewrite !fmap_app, <-list_fmap_compose, chunk_templates_filter,
      <-list_fmap_compose. done.
  - intros name Hname Hne. eexists. split; [done|].
    unfold setup_templates in Hname.
    change ([templateStyles; templateDefinitions; templateGeneratedTypes;
             templateDefaultGlobalOptions])
      with ([templateStyles]
            ++ [templateDefinitions; templateGeneratedTypes;
                templateDefaultGlobalOptions]) in Hname.
    rewrite <-(assoc_L (++)), fmap_app in Hname.
    apply elem_of_app in Hname as [Hname|Hname]; [|done].
    by apply list_elem_of_singleton in Hname.
Qed.

(** X9. What a watch event hands to the extractor.  A path reaches
    [extractor.handleFile] exactly when its resolved path is not empty,
    has one of the possible extensions and is among the files that the
    pattern finds; and the definitions are generated again exactly when,
    moreover, the extractor reports a change.  Outside dev mode nothing
    happens. *)
Theorem watch_extractor (moduleOptions : ModuleOptions)
    (resolve extname : string → string) (files : list string)
    (handleFile : string → bool) (path filePath : string) :
  (HandleFile filePath
   ∈ watch moduleOptions resolve extname files handleFile true path
   ↔ filePath = resolve path
     ∧ filePath ≠ ""
     ∧ extname filePath ∈ POSSIBLE_EXTENSIONS
     ∧ filePath ∈ files)
  ∧ (updateTemplates moduleOptions paragraphsBuilder
     ∈ watch moduleOptions resolve extname files handleFile true path
     ↔ resolve path ≠ ""
       ∧ extname (resolve path) ∈ POSSIBLE_EXTENSIONS
       ∧ resolve path ∈ files
       ∧ handleFile (resolve path) = true)
  ∧ watch moduleOptions resolve extname files handleFile false path = [].
Proof.
  assert (updateTemplates moduleOptions paragraphsBuilder
          ≠ updateTemplates moduleOptions paragraphsBuilderStyle) as Hne.
  { unfold updateTemplates. by rewrite filter_style, filter_builder. }
  unfold watch, builder_watch.
  assert (applies resolve extname files path
          = if bool_decide (extname (resolve path) ∈ POSSIBLE_EXTENSIONS
                            ∧ resolve path ∈ files)
            then Some (resolve path) else None) as ->.
  { unfold applies, array_includes. cbn zeta.
    case_bool_decide as Hext; simpl.
    - destruct (List.find _ files) as [p|] eqn:Hfind.
      + apply find_eq_Some in Hfind as [-> Hin].
        by rewrite bool_decide_eq_true_2.
      + rewrite bool_decide_eq_false_2; [done|]. intros [_ Hin].
        assert (List.find (λ v, bool_decide (v = resolve path)) files
                = Some (resolve path)) as Hsome
          by by apply find_eq_Some.
        congruence.
    - rewrite bool_decide_eq_false_2; [done|]. tauto. }
  split; [|split; [|done]].
  - rewrite elem_of_app. split.
    + intros [Hin|Hin].
      { destruct (appliesStyles path); [|by apply elem_of_nil in Hin].
        rewrite !elem_of_cons, elem_of_nil in Hin.
        unfold updateTemplates in Hin. by destruct Hin as [?|[?|?]]. }
      case_bool_decide as Happ; [|by apply elem_of_nil in Hin].
      destruct (String.eqb_spec (resolve path) "") as [?|Hempty];
        [by apply elem_of_nil in Hin|].
      apply elem_of_cons in Hin as [[= ->]|Hin]; [tauto|].
      unfold updateTemplates in Hin.
      destruct (handleFile (resolve path));
        rewrite ?elem_of_cons, elem_of_nil in Hin; [|done].
      by destruct Hin as [?|[?|?]].
    + intros (-> & Hempty & Hext & Hin). right.
      rewrite bool_decide_eq_true_2 by done.
      destruct (String.eqb_spec (resolve path) ""); [done|]. by left.
  - rewrite elem_of_app. split.
    + intros [Hin|Hin].
      { destruct (appliesStyles path); [|by apply elem_of_nil in Hin].
        rewrite !elem_of_cons, elem_of_nil in Hin.
        destruct Hin as [?|[Hin|?]]; [done| |done].
        unfold updateTemplates in Hin. done. }
      case_bool_decide as Happ; [|by apply elem_of_nil in Hin].
      destruct (String.eqb_spec (resolve path) "") as [?|Hempty];
        [by apply elem_of_nil in Hin|].
      apply elem_of_cons in Hin as [Hin|Hin];
        [unfold updateTemplates in Hin; done|].
      destruct (handleFile (resolve path));
        [tauto|by apply elem_of_nil in Hin].
    + intros (Hempty & Hext & Hin & Hchanged). right.
      rewrite bool_decide_eq_true_2 by done.
      destruct (String.eqb_spec (resolve path) ""); [done|].
      rewrite Hchanged. right. by left.
Qed.

(** ** [defineParagraph]: own defaults, exceptions, precedence *)

Lemma set_default_lookup (key k : string) (v : JSValue)
    (m : gmap string JSValue) :
  set_default key v m !! k =
  if decide (key = k ∧ key ≠ "__proto__") then Some v else m !! k.
Proof.
  unfold set_default. destruct (decide (key = "__proto__")) as [Hp|Hp].
  - rewrite decide_False; [done|]. tauto.
  - destruct (decide (key = k)) as [->|Hne].
    + rewrite decide_True by done. apply lookup_insert_eq.
    + rewrite decide_False by tauto. by apply lookup_insert_ne.
Qed.

Lemma option_defaults_lookup (entries : list (string * JSValue))
    (acc m : gmap string JSValue) (key : string) :
  NoDup entries.*1 →
  option_defaults acc entries = Ok m →
  m !! key =
  match own_default entries key with
  | Some d => Some d
  | None => acc !! key
  end.
Proof.
  revert acc. induction entries as [|[k od] entries IH]; intros acc Hnd.
  { simpl. intros [= <-]. unfold own_default. by case_decide. }
  rewrite fmap_cons in Hnd. apply NoDup_cons in Hnd as [Hk Hnd]. simpl.
  destruct (option_default acc (k, od)) as [acc'|] eqn:Hstep; [|done]. simpl.
  intros Hrest. rewrite (IH _ Hnd Hrest).
  assert (acc' !! key =
          if decide (k = key ∧ k ≠ "__proto__")
          then match od with
               | JSObject o =>
                   match obj_get o "default" with
                   | Some d => Some d
                   | None => acc !! key
                   end
               | _ => acc !! key
               end
          else acc !! key) as Hacc'.
  { unfold option_default in Hstep. simpl in Hstep.
    destruct (truthy od) eqn:Ht.
    - destruct od as [| | | | | |o]; simplify_eq; try by case_decide.
      destruct (obj_get o "default") as [d|]; simplify_eq.
      + apply set_default_lookup.
      + by case_decide.
    - simplify_eq. destruct od as [| | | | | |o]; by case_decide. }
  unfold own_default. simpl.
  destruct (decide (key = "__proto__")) as [Hp|Hp].
  { rewrite Hacc'. case_decide as Hc; [|done]. destruct Hc; congruence. }
  destruct (decide (k = key)) as [->|Hne].
  - rewrite (obj_get_not_elem entries key Hk), Hacc'.
    rewrite decide_True by done.
    destruct od as [| | | | | |o]; try done.
  - rewrite Hacc'. rewrite decide_False by tauto. done.
Qed.

Lemma option_defaults_throws (entries : list (string * JSValue))
    (acc : gmap string JSValue) (e : Exception) :
  option_defaults acc entries = Throw e ↔
  e = TypeError ∧ ∃ kv, kv ∈ entries ∧ primitive_definition kv.2 = true.
Proof.
  revert acc. induction entries as [|[k od] entries IH]; intros acc; simpl.
  { split; [done|]. intros [_ (kv & []%elem_of_nil & _)]. }
  destruct (primitive_definition od) eqn:Hprim.
  - assert (option_default acc (k, od) = Throw TypeError) as ->.
    { unfold option_default, primitive_definition in *. simpl.
      destruct (truthy od); [|done]. by destruct od. }
    simpl. split; [|by intros [-> _]]. intros [= <-]. split; [done|].
    exists (k, od). split; [by left|done].
  - assert (∃ acc', option_default acc (k, od) = Ok acc') as [acc' ->].
    { unfold option_default, primitive_definition in *. simpl.
      destruct (truthy od); [|by eexists].
      destruct od as [| | | | | |o]; try done; [by eexists|].
      destruct (obj_get o "default"); by eexists. }
    simpl. rewrite IH. split; intros [-> (kv & Hin & Hkv)]; (split; [done|]).
    + exists kv. split; [by right|done].
    + exists kv. split; [|done].
      apply elem_of_cons in Hin as [->|?]; [|done]. simpl in Hkv. congruence.
Qed.

(** X10. The defaults that [defineParagraph] takes from the paragraph's own
    options, when it uses no global options: for every key but
    [__proto__], the [default] of that key's option definition, whatever
    its value (an empty string, zero and [false] are kept), and nothing
    for an option without a [default]. *)
Theorem defaultOptions_own (globalOptionsDefaults : gmap string JSValue)
    (config : Config) (entries : JSObj) (result : gmap string JSValue) :
  options config = Some entries →
  NoDup entries.*1 →
  globalOptions config = None →
  defaultOptions globalOptionsDefaults config = Ok result →
  ∀ key, result !! key = own_default entries key.
Proof.
  intros Hoptions Hnd Hglobal. unfold defaultOptions.
  rewrite Hoptions, Hglobal. simpl.
  destruct (option_defaults ∅ entries) as [m|] eqn:Hm; [|done]. simpl.
  intros [= <-] key.
  rewrite (option_defaults_lookup _ _ _ key Hnd Hm), lookup_empty.
  by destruct (own_default entries key).
Qed.

Lemma defaultOptions_own_witness :
  ({[ "title" := JSString ""; "columns" := JSNumber 0%float;
      "size" := JSString "medium" ]} : gmap string JSValue) !! "title"
  = own_default
      [("title", JSObject [("type", JSString "text");
                           ("default", JSString "")]);
       ("columns", JSObject [("type", JSString "number");
                             ("default", JSNumber 0%float)]);
       ("label", JSObject [("type", JSString "text")]);
       ("size", JSObject [("type", JSString "radios");
                          ("default", JSString "medium")])]
      "title".
Proof.
  apply (defaultOptions_own ∅
           (mkConfig
              (Some [("title", JSObject [("type", JSString "text");
                                         ("default", JSString "")]);
                     ("columns", JSObject [("type", JSString "number");
                                           ("default", JSNumber 0%float)]);
                     ("label", JSObject [("type", JSString "text")]);
                     ("size", JSObject [("type", JSString "radios");
                                        ("default", JSString "medium")])])
              None)).
  - reflexivity.
  - by apply (bool_decide_unpack _); vm_compute.
  - reflexivity.
  - by vm_compute.
Defined.

(** X11. [defineParagraph] throws exactly when one of the option
    definitions of its configuration is a truthy value that is not an
    object (a non-empty string, a non-zero number, [true]), and what it
    throws then is a TypeError (from the operator [in]); the global options
    and the injected values never make it throw. *)
Theorem defineParagraph_throws (globalOptionsDefaults : gmap string JSValue)
    (config : Config) (inj : Injected) (e : Exception) :
  defineParagraph_options globalOptionsDefaults config inj = Throw e ↔
  e = TypeError
  ∧ ∃ kv, kv ∈ default [] (options config)
          ∧ primitive_definition kv.2 = true.
Proof.
  rewrite <-(option_defaults_throws _ ∅).
  unfold defineParagraph_options, defaultOptions.
  destruct (option_defaults ∅ (default [] (options config))) as [m|e'];
    simpl.
  - destruct (globalOptions config); simpl;
      (destruct (fromLibraryOptions inj); [done|]);
      (destruct (editContext inj); [|done]);
      by destruct (negb _).
  - done.
Qed.

Lemma defineParagraph_throws_witness :
  defineParagraph_options ∅
    (mkConfig (Some [("size", JSString "medium")]) None)
    (mkInjected None None None)
  = Throw TypeError.
Proof.
  apply defineParagraph_throws. split; [done|].
  exists ("size", JSString "medium"). split; [by left|done].
Defined.

(** X12. The precedence among the sources of the options that
    [defineParagraph] returns.  The options of a library wrapper, when
    injected, are returned as they are.  Otherwise the value of a key is
    taken from the options mutated in the edit context for the paragraph's
    uuid (only when there is an edit context and the uuid is not empty),
    else from the options stored with the paragraph item, else from the
    default options. *)
Theorem defineParagraph_precedence
    (globalOptionsDefaults : gmap string JSValue) (config : Config)
    (inj : Injected) (defaults result : gmap string JSValue) :
  defaultOptions globalOptionsDefaults config = Ok defaults →
  defineParagraph_options globalOptionsDefaults config inj = Ok result →
  match fromLibraryOptions inj with
  | Some libraryOptions => result = libraryOptions
  | None =>
      ∀ key,
        result !! key =
        match mutated_option inj key, stored_option inj key with
        | Some v, _ => Some v
        | None, Some v => Some v
        | None, None => defaults !! key
        end
  end.
Proof.
  intros Hdefaults. unfold defineParagraph_options. rewrite Hdefaults. simpl.
  destruct (fromLibraryOptions inj) as [lib|]; [by intros [= <-]|].
  unfold mutated_option, stored_option.
  destruct (paragraphItem inj) as [item|]; simpl.
  - destruct (editContext inj) as [context|]; simpl.
    + destruct (String.eqb (uuid item) ""); simpl.
      * intros [= <-] key. rewrite lookup_union.
        destruct (paragraphsBuilderOptions item) as [stored|]; simpl.
        -- destruct (stored !! key), (defaults !! key); done.
        -- rewrite lookup_empty. by destruct (defaults !! key).
      * intros [= <-] key. rewrite !lookup_union.
        destruct (context !! uuid item) as [override|]; simpl.
        -- destruct (override !! key); simpl.
           ++ by destruct (default ∅ (paragraphsBuilderOptions item) !! key),
                (defaults !! key).
           ++ destruct (paragraphsBuilderOptions item) as [stored|]; simpl.
              ** destruct (stored !! key), (defaults !! key); done.
              ** rewrite lookup_empty. by destruct (defaults !! key).
        -- rewrite lookup_empty.
           destruct (paragraphsBuilderOptions item) as [stored|]; simpl.
           ++ destruct (stored !! key), (defaults !! key); done.
           ++ rewrite lookup_empty. by destruct (defaults !! key).
    + intros [= <-] key. rewrite lookup_union.
      destruct (paragraphsBuilderOptions item) as [stored|]; simpl.
      * destruct (stored !! key), (defaults !! key); done.
      * rewrite lookup_empty. by destruct (defaults !! key).
  - destruct (editContext inj) as [context|]; simpl;
      intros [= <-] key; rewrite lookup_union, lookup_empty;
      by destruct (defaults !! key).
Qed.

Lemma defineParagraph_precedence_witness :
  ({[ "size" := JSString "large"; "theme" := JSString "dark" ]}
     ∪ ({[ "size" := JSString "small" ]}
          ∪ {[ "size" := JSString "medium" ]}) : gmap string JSValue)
  !! "size"
  = match
      mutated_option
        (mkInjected
           (Some (mkParagraphItem "abc"
                    (Some {[ "size" := JSString "small" ]})))
           None
           (Some {[ "abc" := {[ "size" := JSString "large";
                                 "theme" := JSString "dark" ]} ]}))
        "size",
      stored_option
        (mkInjected
           (Some (mkParagraphItem "abc"
                    (Some {[ "size" := JSString "small" ]})))
           None
           (Some {[ "abc" := {[ "size" := JSString "large";
                                 "theme" := JSString "dark" ]} ]}))
        "size"
    with
    | Some v, _ => Some v
    | None, Some v => Some v
    | None, None =>
        ({[ "size" := JSString "medium" ]} : gmap string JSValue) !! "size"
    end.
Proof.
  apply (defineParagraph_precedence ∅
           (mkConfig
              (Some [("size", JSObject [("default", JSString "medium")])])
              None)
           (mkInjected
              (Some (mkParagraphItem "abc"
                       (Some {[ "size" := JSString "small" ]})))
              None
              (Some {[ "abc" := {[ "size" := JSString "large";
                                    "theme" := JSString "dark" ]} ]}))).
  - reflexivity.
  - reflexivity.
Defined.

(** ** The delayed intersection observer *)

Lemma delayed_calls_collected {El : Type} `{EqDecision El}
    (cs : list (DelayedObserver.Call El)) (els : list El)
    (old : list (list El)) :
  DelayedObserver.calls cs (DelayedObserver.mkState None els old)
  = DelayedObserver.mkState None
      (els ++ omap (λ c, match c with
                         | DelayedObserver.Observe el => Some el
                         | DelayedObserver.Unobserve _ => None
                         end) cs)
      old.
Proof.
  unfold DelayedObserver.calls. revert els.
  induction cs as [|c cs IH]; intros els; simpl.
  { by rewrite app_nil_r. }
  destruct c as [el|el]; simpl.
  - unfold DelayedObserver.observe. simpl. rewrite IH.
    by rewrite <-(assoc_L (++)).
  - apply IH.
Qed.

Lemma io_observe_all {El : Type} `{EqDecision El} (els targets : list El) :
  NoDup targets →
  NoDup (foldl (λ targets el, DelayedObserver.io_observe el targets)
           targets els)
  ∧ ∀ el,
      el ∈ foldl (λ targets el, DelayedObserver.io_observe el targets)
             targets els
      ↔ el ∈ targets ∨ el ∈ els.
Proof.
  revert targets. induction els as [|x els IH]; intros targets Hnd; simpl.
  { split; [done|]. intros el. rewrite elem_of_nil. tauto. }
  assert (NoDup (DelayedObserver.io_observe x targets)
          ∧ ∀ el, el ∈ DelayedObserver.io_observe x targets
                  ↔ el ∈ targets ∨ el = x) as [Hnd' Hin].
  { unfold DelayedObserver.io_observe. case_bool_decide as Hx.
    - split; [done|]. intros el. split; [tauto|]. by intros [?| ->].
    - split.
      + apply NoDup_app. split; [done|]. split; [|apply NoDup_singleton].
        by intros y Hy ->%list_elem_of_singleton.
      + intros el. by rewrite elem_of_app, list_elem_of_singleton. }
  destruct (IH _ Hnd') as [Hnd'' Hin'']. split; [done|].
  intros el. rewrite Hin'', Hin, elem_of_cons. tauto.
Qed.

(** X13. What [init] hands to the observer.  After any calls of [observe]
    and [unobserve] on the composable before [init], [init] leaves nothing
    collected and creates an observer whose targets are, each once, the
    elements that were passed to [observe]: a call of [unobserve] before
    [init] withdraws nothing, so an element observed and unobserved before
    [init] is observed after it. *)
Theorem delayed_observer_init {El : Type} `{EqDecision El}
    (cs : list (DelayedObserver.Call El)) :
  ∃ targets,
    DelayedObserver.init (DelayedObserver.calls cs DelayedObserver.initial)
    = DelayedObserver.mkState (Some targets) [] []
    ∧ NoDup targets
    ∧ ∀ el, el ∈ targets ↔ DelayedObserver.Observe el ∈ cs.
Proof.
  unfold DelayedObserver.initial. rewrite delayed_calls_collected.
  unfold DelayedObserver.init. simpl. eexists. split; [done|].
  destruct (io_observe_all
              (omap (λ c, match c with
                          | DelayedObserver.Observe el => Some el
                          | DelayedObserver.Unobserve _ => None
                          end) cs) []) as [Hnd Hin]; [constructor|].
  split; [done|]. intros el. rewrite Hin, elem_of_nil, list_elem_of_omap.
  split.
  - intros [[]|(c & Hc & Hel)]. destruct c; by simplify_eq.
  - intros Hc. right. by exists (DelayedObserver.Observe el).
Qed.

(** ** The animation loop *)

Lemma animation_run_app (inputs inputs' : list AnimationProvider.Input)
    (st : AnimationProvider.State) :
  AnimationProvider.run (inputs ++ inputs') st
  = let '(st1, emitted) := AnimationProvider.run inputs st in
    let '(st2, emitted') := AnimationProvider.run inputs' st1 in
    (st2, emitted ++ emitted').
Proof.
  revert st. induction inputs as [|input inputs IH]; intros st; simpl.
  { by destruct (AnimationProvider.run inputs' st). }
  destruct (AnimationProvider.step st input) as [st1 e1].
  rewrite IH. destruct (AnimationProvider.run inputs st1) as [st2 e2].
  destruct (AnimationProvider.run inputs' st2) as [st3 e3].
  by rewrite (assoc_L (++)).
Qed.

Lemma animation_iterator_range (inputs : list AnimationProvider.Input)
    (st : AnimationProvider.State) :
  (0 ≤ AnimationProvider.iterator st ≤ 120)%Z →
  (0 ≤ AnimationProvider.iterator (AnimationProvider.run inputs st).1
   ≤ 120)%Z.
Proof.
  revert st. induction inputs as [|input inputs IH]; intros st Hst; [done|].
  simpl. destruct (AnimationProvider.step st input) as [st1 e1] eqn:Hstep.
  specialize (IH st1). destruct (AnimationProvider.run inputs st1).
  simpl in *. apply IH.
  destruct input as [x y| |ctx w]; simpl in Hstep.
  - injection Hstep as <- _. simpl. lia.
  - injection Hstep as <- _. simpl. lia.
  - unfold AnimationProvider.frame in Hstep.
    destruct (Z.ltb_spec (AnimationProvider.iterator st) 1);
      injection Hstep as <- _; simpl; lia.
Qed.

Lemma animation_frames_drawn (frames : list (bool * bool))
    (st : AnimationProvider.State) :
  (0 ≤ AnimationProvider.iterator st)%Z →
  AnimationProvider.drawn
    (AnimationProvider.run
       ((λ f, AnimationProvider.Frame f.1 f.2) <$> frames) st).2
  = length frames `min` Z.to_nat (AnimationProvider.iterator st).
Proof.
  revert st. induction frames as [|[ctx w] frames IH]; intros st Hst; [done|].
  rewrite fmap_cons. cbn [AnimationProvider.run AnimationProvider.step fst snd].
  unfold AnimationProvider.frame.
  destruct (Z.ltb_spec (AnimationProvider.iterator st) 1) as [Hlt|Hge].
  - specialize (IH st Hst).
    destruct (AnimationProvider.run _ st) as [st' e']. simpl in *.
    rewrite IH. replace (AnimationProvider.iterator st) with 0%Z by lia.
    simpl. lia.
  - set (st1 := AnimationProvider.mkState _ _ _).
    specialize (IH st1). destruct (AnimationProvider.run _ st1) as [st' e'].
    unfold AnimationProvider.drawn in *.
    replace (Z.to_nat (AnimationProvider.iterator st))
      with (S (Z.to_nat (AnimationProvider.iterator st - 1))) by lia.
    destruct ctx, w; simpl in *; by rewrite IH by lia.
Qed.

(** X14. The animation loop stops by itself.  The frame counter stays
    between 0 and 120 whatever happens; and after a draw request (or a
    pointer move), however much happened before, of any number of frames
    that follow without another request the first 120 are drawn
    ([animationFrame:before] is emitted) and none after them. *)
Theorem animation_frames_bounded (history : list AnimationProvider.Input)
    (frames : list (bool * bool)) :
  let st := (AnimationProvider.run history AnimationProvider.initial).1 in
  let inputs := (λ f, AnimationProvider.Frame f.1 f.2) <$> frames in
  (0 ≤ AnimationProvider.iterator st ≤ 120)%Z
  ∧ AnimationProvider.drawn
      (AnimationProvider.run inputs (AnimationProvider.requestDraw st)).2
    = length frames `min` 120
  ∧ ∀ x y,
      AnimationProvider.drawn
        (AnimationProvider.run inputs
           (AnimationProvider.onPointerMove x y st)).2
      = length frames `min` 120.
Proof.
  intros st inputs. split; [by apply animation_iterator_range|].
  split; [|intros x y]; unfold inputs; by rewrite animation_frames_drawn.
Qed.

Lemma animation_pointer (inputs : list AnimationProvider.Input)
    (st : AnimationProvider.State) :
  let st' := (AnimationProvider.run inputs st).1 in
  (AnimationProvider.mouseX st', AnimationProvider.mouseY st')
  = AnimationProvider.pointer
      (AnimationProvider.mouseX st, AnimationProvider.mouseY st) inputs.
Proof.
  revert st. induction inputs as [|input inputs IH]; intros st; [done|].
  simpl. destruct (AnimationProvider.step st input) as [st1 e1] eqn:Hstep.
  specialize (IH st1). destruct (AnimationProvider.run inputs st1).
  simpl in *. rewrite IH. f_equal.
  destruct input as [x y| |ctx w]; simpl in Hstep.
  - by injection Hstep as <- _.
  - by injection Hstep as <- _.
  - unfold AnimationProvider.frame in Hstep.
    destruct (AnimationProvider.iterator st <? 1)%Z;
      by injection Hstep as <- _.
Qed.

(** X15. Every [animationFrame] event carries the position of the latest
    pointer move before its frame (the origin when the pointer has not
    moved), and follows an [animationFrame:before] of the same frame. *)
Theorem animation_frame_pointer (history : list AnimationProvider.Input)
    (ctx wrapperEl : bool) (x y : float) :
  let st := (AnimationProvider.run history AnimationProvider.initial).1 in
  let emitted :=
    (AnimationProvider.step st (AnimationProvider.Frame ctx wrapperEl)).2 in
  AnimationProvider.AnimationFrame x y ∈ emitted →
  (x, y) = AnimationProvider.pointer (0%float, 0%float) history
  ∧ emitted = [AnimationProvider.AnimationFrameBefore;
               AnimationProvider.AnimationFrame x y].
Proof.
  intros st emitted.
  pose proof (animation_pointer history AnimationProvider.initial) as Hp.
  simpl in Hp. fold st in Hp. rewrite <-Hp.
  unfold emitted. simpl. unfold AnimationProvider.frame.
  destruct (AnimationProvider.iterator st <? 1)%Z; simpl.
  { by intros ?%elem_of_nil. }
  destruct ctx, wrapperEl; simpl; rewrite ?elem_of_cons, elem_of_nil;
    intros Hin; try by destruct Hin as [?|?].
  destruct Hin as [?|[[= -> ->]|?]]; done.
Qed.

Lemma animation_frame_pointer_witness :
  (3%float, 4%float)
  = AnimationProvider.pointer (0%float, 0%float)
      [AnimationProvider.PointerMove 1 2; AnimationProvider.Frame true true;
       AnimationProvider.PointerMove 3 4]
  ∧ (AnimationProvider.step
       (AnimationProvider.run
          [AnimationProvider.PointerMove 1 2;
           AnimationProvider.Frame true true;
           AnimationProvider.PointerMove 3 4]
          AnimationProvider.initial).1
       (AnimationProvider.Frame true true)).2
    = [AnimationProvider.AnimationFrameBefore;
       AnimationProvider.AnimationFrame 3 4].
Proof.
  apply (animation_frame_pointer
           [AnimationProvider.PointerMove 1 2;
            AnimationProvider.Frame true true;
            AnimationProvider.PointerMove 3 4] true true 3 4).
  simpl. right. left.
Defined.

(** ** The cached elements of the UI provider *)

Lemma ui_calls_from {El : Type} (cs : list (UiProvider.Call El))
    (st : UiProvider.State El) :
  UiProvider.calls El cs st
  = imap
      (λ i c,
         match c with
         | UiProvider.ArtboardElement _ =>
             match
               from_option Some
                 (UiProvider.first_artboard El (take (S i) cs))
                 (UiProvider.cachedArtboardElement El st)
             with
             | Some el => UiProvider.Return el
             | None =>
                 UiProvider.ThrowError "Failed to locate artboard element."
             end
         | UiProvider.RootElement _ =>
             match
               from_option Some
                 (UiProvider.first_root El (take (S i) cs))
                 (UiProvider.cachedRootElement El st)
             with
             | Some el => UiProvider.Return el
             | None =>
                 UiProvider.ThrowError "Failed to locate root Nuxt element."
             end
         end)
      cs.
Proof.
  revert st. induction cs as [|c cs IH]; intros st; [done|].
  rewrite imap_cons. cbn [UiProvider.calls].
  destruct (UiProvider.call El c st) as [st1 r] eqn:Hcall.
  rewrite IH. f_equal.
  - destruct c as [found|found]; simpl in Hcall.
    + unfold UiProvider.artboardElement in Hcall.
      unfold UiProvider.first_artboard. simpl.
      destruct (UiProvider.cachedArtboardElement El st) as [el|]; simpl.
      * by injection Hcall as <- <-.
      * destruct found; by injection Hcall as <- <-.
    + unfold UiProvider.rootElement in Hcall.
      unfold UiProvider.first_root. simpl.
      destruct (UiProvider.cachedRootElement El st) as [el|]; simpl.
      * by injection Hcall as <- <-.
      * destruct found; by injection Hcall as <- <-.
  - apply imap_ext. intros i c' _. simpl.
    unfold UiProvider.first_artboard, UiProvider.first_root.
    destruct c as [found|found]; simpl in Hcall.
    + unfold UiProvider.artboardElement in Hcall.
      destruct (UiProvider.cachedArtboardElement El st) as [el|] eqn:Hc.
      * injection Hcall as <- <-. by rewrite Hc.
      * destruct found as [el|]; injection Hcall as <- <-; simpl;
          by rewrite ?Hc.
    + unfold UiProvider.rootElement in Hcall.
      destruct (UiProvider.cachedRootElement El st) as [el|] eqn:Hc.
      * injection Hcall as <- <-. by rewrite Hc.
      * destruct found as [el|]; injection Hcall as <- <-; simpl;
          by rewrite ?Hc.
Qed.

(** X16. The element functions of the UI provider answer from their first
    success.  In any sequence of calls of [artboardElement] and
    [rootElement], a call throws as long as no call of the same function
    has found its element in the document, and from then on returns the
    element that the first successful call found, whatever the document
    holds at the time of the call. *)
Theorem ui_elements_cached {El : Type} (cs : list (UiProvider.Call El)) :
  UiProvider.calls El cs (UiProvider.initial El)
  = imap
      (λ i c,
         match c with
         | UiProvider.ArtboardElement _ =>
             match UiProvider.first_artboard El (take (S i) cs) with
             | Some el => UiProvider.Return el
             | None =>
                 UiProvider.ThrowError "Failed to locate artboard element."
             end
         | UiProvider.RootElement _ =>
             match UiProvider.first_root El (take (S i) cs) with
             | Some el => UiProvider.Return el
             | None =>
                 UiProvider.ThrowError "Failed to locate root Nuxt element."
             end
         end)
      cs.
Proof. by rewrite ui_calls_from. Qed.

(** ** The edit state *)

Section StateProviderFacts.

Context {MutatedField MutationItem Validation MutatedOptions : Type}.
Context {Translation Language AdapterState : Type}.

Local Abbreviation MappedState :=
  (@StateProvider.MappedState MutatedField MutationItem Validation
     MutatedOptions Translation Language).
Local Abbreviation State :=
  (@StateProvider.State MutatedField MutationItem Validation MutatedOptions
     Translation Language).

Variable noMutatedOptions : MutatedOptions.
Variable helpers_falsy : option Translation → bool.
Variable mapState : AdapterState → MappedState.

Local Abbreviation setContext :=
  (StateProvider.setContext noMutatedOptions helpers_falsy).
Local Abbreviation mutateWithLoadingState :=
  (StateProvider.mutateWithLoadingState noMutatedOptions helpers_falsy
     mapState).

(** X17. How [mutateWithLoadingState] ends.  With a promise, whatever
    happens, the provider is not loading afterwards and the body is
    unlocked.  The result is [false] exactly when the promise was rejected,
    or resolved without a state and without success, or resolved with a
    state whose mapped form has no entity (then [setContext] throws); and
    an error message is emitted exactly then. *)
Theorem mutateWithLoadingState_outcome
    (settled : StateProvider.Settled) (errorMessage successMessage :
    option string) (now : string) (st : State) :
  let r :=
    mutateWithLoadingState (Some settled) errorMessage successMessage now st
  in
  StateProvider.isLoading r.1 = false
  ∧ StateProvider.bodyLoading r.1 = false
  ∧ r.2 = negb (StateProvider.fails mapState settled)
  ∧ existsb StateProvider.is_error
      (drop (length (StateProvider.effects st)) (StateProvider.effects r.1))
    = StateProvider.fails mapState settled.
Proof.
  unfold StateProvider.mutateWithLoadingState, StateProvider.fails.
  destruct settled as [|[state|] success]; cbn zeta.
  - simpl. by rewrite drop_app_length.
  - unfold StateProvider.setContext.
    destruct (StateProvider.c_entity (mapState state)) as [contextEntity|].
    + destruct successMessage as [message|];
        [destruct (String.eqb message "")|]; simpl;
        rewrite <-?(assoc_L (++)), drop_app_length; done.
    + simpl. rewrite <-?(assoc_L (++)), drop_app_length. done.
  - destruct success; simpl.
    + destruct successMessage as [message|];
        [destruct (String.eqb message "")|]; simpl;
        rewrite ?drop_all, ?drop_app_length; done.
    + by rewrite drop_app_length.
Qed.

(** X18. A state without entity is taken over in part.  When the promise
    resolves with a state whose mapped form has no entity,
    [mutateWithLoadingState] fails, yet the provider has already replaced
    its owner, mutations, violations, mutated options and current index by
    those of the new state, while the mutated fields, the translation
    state and the refresh key are still the old ones, and neither
    [updateMutatedFields] nor [state:reloaded] is emitted. *)
Theorem mutateWithLoadingState_partial
    (state : AdapterState) (success : bool)
    (errorMessage successMessage : option string) (now : string)
    (st : State) :
  StateProvider.c_entity (mapState state) = None →
  let context := mapState state in
  let st' :=
    (mutateWithLoadingState
       (Some (StateProvider.Resolved (Some state) success))
       errorMessage successMessage now st).1 in
  StateProvider.mutations st'
  = default [] (StateProvider.c_mutations context)
  ∧ StateProvider.violations st'
    = default []
        (StateProvider.c_mutatedState context ≫= StateProvider.ms_violations)
  ∧ StateProvider.mutatedOptions st'
    = default noMutatedOptions
        (StateProvider.c_mutatedState context
         ≫= StateProvider.ms_mutatedOptions)
  ∧ StateProvider.currentMutationIndex st'
    = default (-1)%Z (StateProvider.c_currentIndex context)
  ∧ StateProvider.owner st'
    = Some (StateProvider.mkOwner (StateProvider.c_ownerName context)
              (StateProvider.to_boolean
                 (StateProvider.c_currentUserIsOwner context)))
  ∧ StateProvider.mutatedFields st' = StateProvider.mutatedFields st
  ∧ StateProvider.translation st' = StateProvider.translation st
  ∧ StateProvider.refreshKey st' = StateProvider.refreshKey st
  ∧ StateProvider.effects st'
    = StateProvider.effects st
      ++ [StateProvider.RemoveDroppedElements;
          StateProvider.EmitMessage
            (StateProvider.or_string errorMessage
               "Es ist ein unerwarteter Fehler aufgetreten.")
            true].
Proof.
  intros Hentity context st'. subst st' context.
  unfold StateProvider.mutateWithLoadingState, StateProvider.setContext.
  rewrite Hentity. simpl.
  by rewrite <-(assoc_L (++)).
Qed.

(** X19. The edit mode after a state was set.  When [setContext] returns,
    the edit mode is [readonly] unless the context says that the current
    user is the owner; for the owner it is [editing] when the language of
    the adapter context is the source language of the context's
    translation state (the empty string when the context has none), and
    [translating] otherwise. *)
Theorem editMode_after_setContext (context : option MappedState)
    (now language : string) (st st' : State) :
  setContext context now st = (st', None) →
  StateProvider.editMode language st'
  = if StateProvider.to_boolean
         (context ≫= StateProvider.c_currentUserIsOwner)
    then
      if String.eqb language
           (StateProvider.or_string
              ((context ≫= StateProvider.c_translationState)
               ≫= StateProvider.ts_sourceLanguage) "")
      then "editing" else "translating"
    else "readonly".
Proof.
  unfold StateProvider.setContext.
  assert (∀ newEditUrl,
            StateProvider.editMode language
              (StateProvider.setContext_rest helpers_falsy context newEditUrl
                 now (StateProvider.setContext_first noMutatedOptions
                        context st))
            = if StateProvider.to_boolean
                   (context ≫= StateProvider.c_currentUserIsOwner)
              then
                if String.eqb language
                     (StateProvider.or_string
                        ((context ≫= StateProvider.c_translationState)
                         ≫= StateProvider.ts_sourceLanguage) "")
                then "editing" else "translating"
              else "readonly") as Hmode.
  { intros newEditUrl.
    unfold StateProvider.editMode, StateProvider.canEdit,
      StateProvider.isTranslation. simpl.
    destruct (StateProvider.to_boolean _); [|done]. simpl.
    by destruct (String.eqb language _). }
  destruct context as [c|].
  - destruct (StateProvider.c_entity c) as [contextEntity|]; [|done].
    intros [= <-]. apply Hmode.
  - intros [= <-]. apply Hmode.
Qed.

End StateProviderFacts.

Lemma mutateWithLoadingState_partial_witness :
  StateProvider.mutations
    (StateProvider.mutateWithLoadingState (MutatedField:=unit)
       (Validation:=unit) (Translation:=unit) (Language:=unit)
       tt (λ _, true)
       (λ _ : unit,
          StateProvider.mkMappedState None (Some ["move"]) (Some 3%Z)
            (Some "editor") (Some (JSBoolean true)) None None)
       (Some (StateProvider.Resolved (Some tt) true))
       None (Some "Saved.") "1700000000000" (StateProvider.initial tt)).1
  = ["move"]
  ∧ StateProvider.violations
      (StateProvider.mutateWithLoadingState (MutatedField:=unit)
         (Validation:=unit) (Translation:=unit) (Language:=unit)
         tt (λ _, true)
         (λ _ : unit,
            StateProvider.mkMappedState None (Some ["move"]) (Some 3%Z)
              (Some "editor") (Some (JSBoolean true)) None None)
         (Some (StateProvider.Resolved (Some tt) true))
         None (Some "Saved.") "1700000000000" (StateProvider.initial tt)).1
    = []
  ∧ StateProvider.mutatedOptions
      (StateProvider.mutateWithLoadingState (MutatedField:=unit)
         (Validation:=unit) (Translation:=unit) (Language:=unit)
         tt (λ _, true)
         (λ _ : unit,
            StateProvider.mkMappedState None (Some ["move"]) (Some 3%Z)
              (Some "editor") (Some (JSBoolean true)) None None)
         (Some (StateProvider.Resolved (Some tt) true))
         None (Some "Saved.") "1700000000000" (StateProvider.initial tt)).1
    = tt
  ∧ StateProvider.currentMutationIndex
      (StateProvider.mutateWithLoadingState (MutatedField:=unit)
         (Validation:=unit) (Translation:=unit) (Language:=unit)
         tt (λ _, true)
         (λ _ : unit,
            StateProvider.mkMappedState None (Some ["move"]) (Some 3%Z)
              (Some "editor") (Some (JSBoolean true)) None None)
         (Some (StateProvider.Resolved (Some tt) true))
         None (Some "Saved.") "1700000000000" (StateProvider.initial tt)).1
    = 3%Z
  ∧ StateProvider.owner
      (StateProvider.mutateWithLoadingState (MutatedField:=unit)
         (Validation:=unit) (Translation:=unit) (Language:=unit)
         tt (λ _, true)
         (λ _ : unit,
            StateProvider.mkMappedState None (Some ["move"]) (Some 3%Z)
              (Some "editor") (Some (JSBoolean true)) None None)
         (Some (StateProvider.Resolved (Some tt) true))
         None (Some "Saved.") "1700000000000" (StateProvider.initial tt)).1
    = Some (StateProvider.mkOwner (Some "editor") true)
  ∧ StateProvider.mutatedFields
      (StateProvider.mutateWithLoadingState (MutatedField:=unit)
         (Validation:=unit) (Translation:=unit) (Language:=unit)
         tt (λ _, true)
         (λ _ : unit,
            StateProvider.mkMappedState None (Some ["move"]) (Some 3%Z)
              (Some "editor") (Some (JSBoolean true)) None None)
         (Some (StateProvider.Resolved (Some tt) true))
         None (Some "Saved.") "1700000000000" (StateProvider.initial tt)).1
    = []
  ∧ StateProvider.translation
      (StateProvider.mutateWithLoadingState (MutatedField:=unit)
         (Validation:=unit) (Translation:=unit) (Language:=unit)
         tt (λ _, true)
         (λ _ : unit,
            StateProvider.mkMappedState None (Some ["move"]) (Some 3%Z)
              (Some "editor") (Some (JSBoolean true)) None None)
         (Some (StateProvider.Resolved (Some tt) true))
         None (Some "Saved.") "1700000000000" (StateProvider.initial tt)).1
    = StateProvider.mkTranslationState false "" [] []
  ∧ StateProvider.refreshKey
      (StateProvider.mutateWithLoadingState (MutatedField:=unit)
         (Validation:=unit) (Translation:=unit) (Language:=unit)
         tt (λ _, true)
         (λ _ : unit,
            StateProvider.mkMappedState None (Some ["move"]) (Some 3%Z)
              (Some "editor") (Some (JSBoolean true)) None None)
         (Some (StateProvider.Resolved (Some tt) true))
         None (Some "Saved.") "1700000000000" (StateProvider.initial tt)).1
    = ""
  ∧ StateProvider.effects
      (StateProvider.mutateWithLoadingState (MutatedField:=unit)
         (Validation:=unit) (Translation:=unit) (Language:=unit)
         tt (λ _, true)
         (λ _ : unit,
            StateProvider.mkMappedState None (Some ["move"]) (Some 3%Z)
              (Some "editor") (Some (JSBoolean true)) None None)
         (Some (StateProvider.Resolved (Some tt) true))
         None (Some "Saved.") "1700000000000" (StateProvider.initial tt)).1
    = [StateProvider.RemoveDroppedElements;
       StateProvider.EmitMessage
         "Es ist ein unerwarteter Fehler aufgetreten." true].
Proof.
  apply (mutateWithLoadingState_partial (MutatedField:=unit)
           (Validation:=unit) (Translation:=unit) (Language:=unit)
           tt (λ _, true)
           (λ _ : unit,
              StateProvider.mkMappedState None (Some ["move"]) (Some 3%Z)
                (Some "editor") (Some (JSBoolean true)) None None)
           tt true None (Some "Saved.") "1700000000000"
           (StateProvider.initial tt)).
  reflexivity.
Defined.

Lemma editMode_after_setContext_witness :
  StateProvider.editMode "de"
    (StateProvider.setContext (MutatedField:=unit) (MutationItem:=unit)
       (Validation:=unit) (Translation:=unit) (Language:=unit)
       tt (λ _, true)
       (Some (StateProvider.mkMappedState None None None None
                (Some (JSBoolean true))
                (Some (StateProvider.mkMappedEntity None None None None None
                         None))
                None))
       "1700000000000" (StateProvider.initial tt)).1
  = "translating".
Proof.
  apply (editMode_after_setContext (MutatedField:=unit) (MutationItem:=unit)
           (Validation:=unit) (Translation:=unit) (Language:=unit)
           tt (λ _, true)
           (Some (StateProvider.mkMappedState None None None None
                    (Some (JSBoolean true))
                    (Some (StateProvider.mkMappedEntity None None None None
                             None None))
                    None))
           "1700000000000" "de" (StateProvider.initial tt)).
  reflexivity.
Defined.

(** ** From the build to the runtime *)




